(** * Ultimate Tic-Tac-Toe: rules engine and decision engine

    A shallow embedding of [src/services/gameLogic.ts] and
    [src/services/ai.ts] (with the tables of [constants.ts] and the types of
    [types.ts]), and the properties of the specification stated over it.

    JavaScript arrays are lists; [arr[i]] is the partial lookup [arr !! i]
    ([None] is [undefined]).  Reading a property of [undefined] throws a
    [TypeError]; the functions that can do so return a [result]. *)

From Stdlib Require Import ZArith Floats Lia.
From stdpp Require Import base tactics option list numbers sorting.

Open Scope Z_scope.
Open Scope nat_scope.

(** ** Errors *)

Inductive error : Type :=
  | TypeError    (* property read on [undefined] *)
  | Timeout      (* [throw new Error("Timeout")] in [minimax] *)
  | SparseWrite. (* an array write that would leave holes: outside the model *)

Inductive result (A : Type) : Type :=
  | Ok (a : A)
  | Throw (e : error).
Arguments Ok {A} a.
Arguments Throw {A} e.

#[global] Instance result_ret : MRet result := fun A a => Ok a.
#[global] Instance result_bind : MBind result := fun A B f m =>
  match m with
  | Ok a => f a
  | Throw e => Throw e
  end.

(** [obj.field] where [obj] was read from an array: a [TypeError] on
    [undefined]. *)
Definition prop {A} (o : option A) : result A :=
  match o with
  | Some a => Ok a
  | None => Throw TypeError
  end.

(** [arr[i] = v].  Inside the array it overwrites, at [arr.length] it
    appends; further out JavaScript leaves holes, which a list cannot hold. *)
Definition js_set {A} (arr : list A) (i : nat) (v : A) : result (list A) :=
  if decide (i < length arr) then Ok (<[i := v]> arr)
  else if decide (i = length arr) then Ok (arr ++ [v])
  else Throw SparseWrite.

(** ** types.ts *)

Inductive Player : Type := X | O.

(** The non-null values of [Winner = Player | 'Draw' | null]. *)
Inductive Outcome : Type :=
  | Won (p : Player)
  | Draw.

Definition Winner : Type := option Outcome.

#[global] Instance Player_eq_dec : EqDecision Player.
Proof. solve_decision. Defined.
#[global] Instance Outcome_eq_dec : EqDecision Outcome.
Proof. solve_decision. Defined.

Record SmallBoardState : Type := {
  cells : list (option Player);
  winner : Winner
}.

Record MoveHistory : Type := {
  h_boardIndex : nat;
  h_cellIndex : nat;
  h_player : Player
}.

Record Move : Type := {
  boardIndex : nat;
  cellIndex : nat
}.

#[global] Instance Move_eq_dec : EqDecision Move.
Proof. solve_decision. Defined.

Inductive Difficulty : Type :=
  | easy | medium | hard | impossible
  | other. (* any other run-time value *)

(** [state.winner] is [state_winner]: the field name [winner] is taken by
    [SmallBoardState]. *)
Record GameState : Type := {
  boards : list SmallBoardState;
  macroBoard : list Winner;
  activeBoard : option nat;
  currentPlayer : Player;
  state_winner : Winner;
  history : list MoveHistory;
  difficulty : option Difficulty;
  lastMove : option Move
}.

(** ** constants.ts *)

Definition WINNING_PATTERNS : list (nat * nat * nat) :=
  [ (0, 1, 2); (3, 4, 5); (6, 7, 8);
    (0, 3, 6); (1, 4, 7); (2, 5, 8);
    (0, 4, 8); (2, 4, 6) ].

Definition INITIAL_GAME_STATE : GameState := {|
  boards := replicate 9 {| cells := replicate 9 None; winner := None |};
  macroBoard := replicate 9 None;
  activeBoard := None;
  currentPlayer := X;
  state_winner := None;
  history := [];
  difficulty := None;
  lastMove := None
|}.

(** ** gameLogic.ts *)

Definition opponentOf (p : Player) : Player :=
  match p with X => O | O => X end.

(** A sub-board cell seen at the type [Player | Winner | null] that
    [checkBoardWinner] takes. *)
Definition cellValue (c : option Player) : Winner := Won <$> c.

(** [cells[a] && cells[a] === cells[b] && cells[a] === cells[c]], giving
    [cells[a]] when it holds. *)
Definition lineValue (cs : list Winner) (pattern : nat * nat * nat) : option Outcome :=
  let '(a, b, c) := pattern in
  match cs !! a with
  | Some (Some v) =>
      if bool_decide (cs !! b = Some (Some v)) && bool_decide (cs !! c = Some (Some v))
      then Some v else None
  | _ => None
  end.

Fixpoint firstLine (cs : list Winner) (patterns : list (nat * nat * nat)) : option Outcome :=
  match patterns with
  | [] => None
  | pattern :: rest =>
      match lineValue cs pattern with
      | Some v => Some v
      | None => firstLine cs rest
      end
  end.

(** [cells.every(c => c !== null)] *)
Definition allFilled {A} (cs : list (option A)) : bool :=
  forallb (fun c => bool_decide (c ≠ None)) cs.

Definition checkBoardWinner (cs : list Winner) : Winner :=
  match firstLine cs WINNING_PATTERNS with
  | Some v => Some v
  | None => if allFilled cs then Some Draw else None
  end.

Definition isMoveValid (state : GameState) (boardIndex cellIndex : nat) : result bool :=
  if bool_decide (state_winner state ≠ None) then Ok false
  else if bool_decide (activeBoard state ≠ None ∧ activeBoard state ≠ Some boardIndex)
  then Ok false
  else
    targetBoard ← prop (boards state !! boardIndex);
    if bool_decide (winner targetBoard ≠ None) then Ok false
    else if bool_decide (cells targetBoard !! cellIndex ≠ Some None) then Ok false
    else Ok true.

Definition makeMove (state : GameState) (boardIndex cellIndex : nat) : result GameState :=
  currentBoard ← prop (boards state !! boardIndex);
  newCells ← js_set (cells currentBoard) cellIndex (Some (currentPlayer state));
  let smallBoardWinner := checkBoardWinner (cellValue <$> newCells) in
  newMacroBoard ←
    (match smallBoardWinner with
     | Some _ => js_set (macroBoard state) boardIndex smallBoardWinner
     | None => Ok (macroBoard state)
     end);
  let newBoards :=
    <[boardIndex := {| cells := newCells;
                       winner := match smallBoardWinner with
                                 | Some _ => smallBoardWinner
                                 | None => winner currentBoard
                                 end |}]> (boards state) in
  let globalWinner := checkBoardWinner newMacroBoard in
  target ← prop (newBoards !! cellIndex);
  let nextActiveBoard :=
    if bool_decide (winner target ≠ None) || allFilled (cells target)
    then None else Some cellIndex in
  Ok {| boards := newBoards;
        macroBoard := newMacroBoard;
        activeBoard := nextActiveBoard;
        currentPlayer := opponentOf (currentPlayer state);
        state_winner := globalWinner;
        history := history state ++
                   [ {| h_boardIndex := boardIndex; h_cellIndex := cellIndex;
                        h_player := currentPlayer state |} ];
        difficulty := difficulty state;
        lastMove := Some {| boardIndex := boardIndex; cellIndex := cellIndex |} |}.

(** The inner loop of [getAvailableMoves] over [cIdx = 0 .. 8]. *)
Definition emptyCells (bIdx : nat) (board : SmallBoardState) : list Move :=
  omap (fun cIdx =>
          if bool_decide (cells board !! cIdx = Some None)
          then Some {| boardIndex := bIdx; cellIndex := cIdx |} else None)
       (seq 0 9).

Fixpoint collectMoves (bs : list SmallBoardState) (boardsToCheck : list nat)
  : result (list Move) :=
  match boardsToCheck with
  | [] => Ok []
  | bIdx :: rest =>
      board ← prop (bs !! bIdx);
      moves ← collectMoves bs rest;
      Ok ((if bool_decide (winner board ≠ None) then [] else emptyCells bIdx board) ++ moves)
  end.

Definition getAvailableMoves (state : GameState) : result (list Move) :=
  let boardsToCheck :=
    match activeBoard state with
    | Some a => [a]
    | None => seq 0 9
    end in
  collectMoves (boards state) boardsToCheck.

(** The loop of [reconstructGameState], from any state. *)
Fixpoint replayFrom (currentState : GameState) (moves : list MoveHistory) : result GameState :=
  match moves with
  | [] => Ok currentState
  | move :: rest =>
      next ← makeMove currentState (h_boardIndex move) (h_cellIndex move);
      replayFrom next rest
  end.

Definition withDifficulty (state : GameState) (d : option Difficulty) : GameState :=
  {| boards := boards state; macroBoard := macroBoard state;
     activeBoard := activeBoard state; currentPlayer := currentPlayer state;
     state_winner := state_winner state; history := history state;
     difficulty := d; lastMove := lastMove state |}.

Definition reconstructGameState (moves : list MoveHistory)
    (initialDifficulty : option Difficulty) : result GameState :=
  replayFrom (withDifficulty INITIAL_GAME_STATE initialDifficulty) moves.

(** ** ai.ts: numbers

    Every score is an integer-valued double far below [2^53], so [Z] is exact;
    [num] adds the two infinities the search starts from. *)

Inductive num : Type :=
  | NegInf
  | Fin (z : Z)
  | PosInf.

#[global] Instance num_eq_dec : EqDecision num.
Proof. solve_decision. Defined.

Definition num_leb (a b : num) : bool :=
  match a, b with
  | NegInf, _ => true
  | _, PosInf => true
  | Fin x, Fin y => (x <=? y)%Z
  | _, _ => false
  end.

(** [a > b] *)
Definition num_gtb (a b : num) : bool := negb (num_leb a b).

(** [Math.max], [Math.min] *)
Definition num_max (a b : num) : num := if num_leb a b then b else a.
Definition num_min (a b : num) : num := if num_leb a b then a else b.

(** The clock is read as a double, and the time spent is a difference of
    doubles, rounded as such. *)
Definition TIME_LIMIT_MS : float := 1500%float.

(** [t - startTime > TIME_LIMIT_MS] *)
Definition overBudget (t startTime : float) : bool :=
  PrimFloat.ltb TIME_LIMIT_MS (PrimFloat.sub t startTime).
Definition MAX_DEPTH_IMPOSSIBLE : nat := 12.
Definition WIN_SCORE : Z := 10000000.

Module W.
Definition LINE_2 : Z := 10.
Definition LINE_1 : Z := 1.
Definition BLOCK_OPP_2 : Z := 15.
Definition BOARD_WON : Z := 150.
Definition BOARD_LOST : Z := -150.
Definition MACRO_WIN_THREAT : Z := 5000.
Definition MACRO_BLOCK_THREAT : Z := 6000.
Definition MACRO_LINE_1 : Z := 200.
Definition MACRO_CENTER : Z := 5.
Definition MACRO_CORNER : Z := 3.
Definition MACRO_EDGE : Z := 1.
Definition GIVE_FREE_MOVE : Z := -5000.
Definition SEND_TO_WINNABLE : Z := -4000.
End W.

Definition getMacroWeight (idx : nat) : Z :=
  if bool_decide (idx = 4) then W.MACRO_CENTER
  else if bool_decide (idx = 0 ∨ idx = 2 ∨ idx = 6 ∨ idx = 8) then W.MACRO_CORNER
  else W.MACRO_EDGE.

(** ** ai.ts: evaluation *)

(** [test = [...cells]; test[i] = player; checkBoardWinner(test) === player]
    for some empty cell [i] of the nine. *)
Definition canWinBoard (cs : list (option Player)) (player : Player) : bool :=
  existsb (fun i =>
             bool_decide (cs !! i = Some None) &&
             bool_decide (checkBoardWinner (cellValue <$> <[i := Some player]> cs)
                          = Some (Won player)))
          (seq 0 9).

(** The counting loop over the three indices of a pattern. *)
Definition countCells (cs : list (option Player)) (player opponent : Player)
    (pattern : nat * nat * nat) : nat * nat :=
  let '(a, b, c) := pattern in
  fold_left (fun '(pCount, oCount) idx =>
               if bool_decide (cs !! idx = Some (Some player)) then (S pCount, oCount)
               else if bool_decide (cs !! idx = Some (Some opponent)) then (pCount, S oCount)
               else (pCount, oCount))
            [a; b; c] (0, 0).

Definition evaluateSmallBoardRaw (cs : list (option Player)) (player opponent : Player) : Z :=
  let s := 0%Z in
  let s := if bool_decide (cs !! 4 = Some (Some player)) then (s + 5)%Z else s in
  let s := if bool_decide (cs !! 4 = Some (Some opponent)) then (s - 5)%Z else s in
  fold_left (fun s pattern =>
               let '(pCount, oCount) := countCells cs player opponent pattern in
               if bool_decide (0 < pCount) && bool_decide (oCount = 0) then
                 if bool_decide (pCount = 2) then (s + W.LINE_2)%Z else (s + W.LINE_1)%Z
               else if bool_decide (0 < oCount) && bool_decide (pCount = 0) then
                 if bool_decide (oCount = 2) then (s - W.LINE_2)%Z else (s - W.LINE_1)%Z
               else if bool_decide (oCount = 2) && bool_decide (pCount = 1) then
                 (s + W.BLOCK_OPP_2)%Z
               else s)
            WINNING_PATTERNS s.

(** The counting loop of the macro-board part: [(pCount, oCount, draws)]. *)
Definition countMacro (macro : list Winner) (player opponent : Player)
    (pattern : nat * nat * nat) : nat * nat * nat :=
  let '(a, b, c) := pattern in
  fold_left (fun '(pCount, oCount, draws) idx =>
               if bool_decide (macro !! idx = Some (Some (Won player)))
               then (S pCount, oCount, draws)
               else if bool_decide (macro !! idx = Some (Some (Won opponent)))
               then (pCount, S oCount, draws)
               else if bool_decide (macro !! idx = Some (Some Draw))
               then (pCount, oCount, S draws)
               else (pCount, oCount, draws))
            [a; b; c] (0, 0, 0).

(** How the macro-board loop of [evaluateStateAdvanced] ends: it returns from
    the function, or it falls through with the score so far. *)
Inductive macroExit : Type :=
  | Returned (z : Z)
  | Fell (score : Z).

Fixpoint evaluateMacro (macro : list Winner) (player opponent : Player)
    (patterns : list (nat * nat * nat)) (score : Z) : macroExit :=
  match patterns with
  | [] => Fell score
  | pattern :: rest =>
      let '(pCount, oCount, draws) := countMacro macro player opponent pattern in
      if bool_decide (draws = 0) then
        if bool_decide (pCount = 3) then Returned WIN_SCORE
        else if bool_decide (oCount = 3) then Returned (- WIN_SCORE)%Z
        else
          let score :=
            if bool_decide (pCount = 2) && bool_decide (oCount = 0)
            then (score + W.MACRO_WIN_THREAT)%Z
            else if bool_decide (oCount = 2) && bool_decide (pCount = 0)
            then (score - W.MACRO_BLOCK_THREAT)%Z
            else if bool_decide (pCount = 1) && bool_decide (oCount = 0)
            then (score + W.MACRO_LINE_1)%Z
            else if bool_decide (oCount = 1) && bool_decide (pCount = 0)
            then (score - W.MACRO_LINE_1)%Z
            else score in
          evaluateMacro macro player opponent rest score
      else evaluateMacro macro player opponent rest score
  end.

(** The loop over the nine sub-boards, [i] running through [idxs]. *)
Fixpoint evaluateBoards (bs : list SmallBoardState) (player opponent : Player)
    (idxs : list nat) (score : Z) : result Z :=
  match idxs with
  | [] => Ok score
  | i :: rest =>
      board ← prop (bs !! i);
      let weight := getMacroWeight i in
      let score :=
        if bool_decide (winner board = Some (Won player))
        then (score + W.BOARD_WON * weight)%Z
        else if bool_decide (winner board = Some (Won opponent))
        then (score + W.BOARD_LOST * weight)%Z
        else if bool_decide (winner board = Some Draw)
        then (score - 20)%Z
        else (score + evaluateSmallBoardRaw (cells board) player opponent * weight)%Z in
      evaluateBoards bs player opponent rest score
  end.

Definition evaluateStateAdvanced (state : GameState) (player : Player) : result Z :=
  let opponent := opponentOf player in
  match evaluateMacro (macroBoard state) player opponent WINNING_PATTERNS 0%Z with
  | Returned z => Ok z
  | Fell score =>
      score ← evaluateBoards (boards state) player opponent (seq 0 9) score;
      if bool_decide (currentPlayer state = opponent) then
        match activeBoard state with
        | None => Ok (score + W.GIVE_FREE_MOVE)%Z
        | Some a =>
            target ← prop (boards state !! a);
            if canWinBoard (cells target) opponent
            then Ok (score + W.SEND_TO_WINNABLE)%Z
            else Ok score
        end
      else Ok score
  end.

Definition evaluateState (state : GameState) (player : Player) (_lastMove : Move)
  : result Z :=
  evaluateStateAdvanced state player.

(** ** ai.ts: move ordering *)

Definition orderScore (state : GameState) (player : Player) (move : Move) : result Z :=
  let opponent := opponentOf player in
  let score := 0%Z in
  let targetBoard := boards state !! boardIndex move in
  macroTest ← js_set (macroBoard state) (boardIndex move) (Some (Won player));
  let score :=
    if bool_decide (checkBoardWinner macroTest = Some (Won player))
    then (score + WIN_SCORE)%Z else score in
  targetBoard ← prop targetBoard;
  testCells ← js_set (cells targetBoard) (cellIndex move) (Some player);
  let score :=
    if bool_decide (checkBoardWinner (cellValue <$> testCells) = Some (Won player))
    then (score + W.BOARD_WON * getMacroWeight (boardIndex move) * 10)%Z else score in
  let sentTo := cellIndex move in
  destBoard ← prop (boards state !! sentTo);
  let score :=
    if bool_decide (winner destBoard ≠ None) || allFilled (cells destBoard)
    then (score + W.GIVE_FREE_MOVE)%Z
    else if canWinBoard (cells destBoard) opponent
    then (score + W.SEND_TO_WINNABLE)%Z
    else score in
  let score := if bool_decide (cellIndex move = 4) then (score + 20)%Z else score in
  Ok score.

(** [Array.prototype.sort] with the comparator [(a, b) => b.score - a.score]:
    the sort is stable, so its result is the one an insertion sort gives that
    puts an item behind the items scoring at least as much. *)
Fixpoint insertByScore (item : Move * Z) (sorted : list (Move * Z)) : list (Move * Z) :=
  match sorted with
  | [] => [item]
  | first :: rest =>
      if (item.2 <? first.2)%Z then first :: insertByScore item rest
      else item :: sorted
  end.

Definition sortByScore (items : list (Move * Z)) : list (Move * Z) :=
  foldr insertByScore [] items.

Fixpoint scoreMoves (state : GameState) (player : Player) (moves : list Move)
  : result (list (Move * Z)) :=
  match moves with
  | [] => Ok []
  | move :: rest =>
      score ← orderScore state player move;
      items ← scoreMoves state player rest;
      Ok ((move, score) :: items)
  end.

Definition orderMoves (state : GameState) (moves : list Move) (player : Player)
  : result (list Move) :=
  items ← scoreMoves state player moves;
  Ok ((sortByScore items).*1).

(** ** ai.ts: search *)

(** What [getBestMove] returns when it is not [null]: the coordinates and the
    optional [score]. *)
Definition ScoredMove : Type := Move * option num.

(** The loop of the ['hard'] tier over [orderedMoves]. *)
Fixpoint hardLoop (state : GameState) (aiPlayer : Player) (orderedMoves : list Move)
    (bestScore : num) (bestMove : Move) : result (num * Move) :=
  match orderedMoves with
  | [] => Ok (bestScore, bestMove)
  | move :: rest =>
      nextState ← makeMove state (boardIndex move) (cellIndex move);
      score ← evaluateStateAdvanced nextState aiPlayer;
      if num_gtb (Fin score) bestScore
      then hardLoop state aiPlayer rest (Fin score) move
      else hardLoop state aiPlayer rest bestScore bestMove
  end.

(** The first loop of the ['medium'] tier: a move that wins its sub-board. *)
Fixpoint mediumWin (state : GameState) (aiPlayer : Player) (moves : list Move)
  : result (option Move) :=
  match moves with
  | [] => Ok None
  | move :: rest =>
      simulatedState ← makeMove state (boardIndex move) (cellIndex move);
      board ← prop (boards simulatedState !! boardIndex move);
      if bool_decide (winner board = Some (Won aiPlayer)) then Ok (Some move)
      else mediumWin state aiPlayer rest
  end.

(** The second loop of the ['medium'] tier: a move that blocks the opponent. *)
Fixpoint mediumBlock (state : GameState) (opponent : Player) (moves : list Move)
  : result (option Move) :=
  match moves with
  | [] => Ok None
  | move :: rest =>
      board ← prop (boards state !! boardIndex move);
      cellsClone ← js_set (cells board) (cellIndex move) (Some opponent);
      if bool_decide (checkBoardWinner (cellValue <$> cellsClone) = Some (Won opponent))
      then Ok (Some move)
      else mediumBlock state opponent rest
  end.

Inductive MoveClassification : Type :=
  | brilliant | best | good | inaccuracy | blunder | forced.

#[global] Instance MoveClassification_eq_dec : EqDecision MoveClassification.
Proof. solve_decision. Defined.

(** What [analyzeMoveQuality] returns. *)
Record Analysis : Type := {
  classification : MoveClassification;
  score : Z;
  bestMove : option Move (* [None]: [undefined] or absent *)
}.

Section Search.

(** [now k] is what the [k]-th call of [performance.now()] returns during
    one call of [getBestMove]: a double, in milliseconds. *)
Variable now : nat → float.

(** [random_index n] is [Math.floor(Math.random() * n)]. *)
Variable random_index : nat → nat.

(** A computation that reads the clock and may throw: from the number of
    clock reads so far to a value and the new count. *)
Definition Timed (A : Type) : Type := nat → result (A * nat).

Definition tret {A} (a : A) : Timed A := fun k => Ok (a, k).
Definition tbind {A B} (m : Timed A) (f : A → Timed B) : Timed B :=
  fun k => match m k with
           | Ok (a, k') => f a k'
           | Throw e => Throw e
           end.
Definition tlift {A} (r : result A) : Timed A :=
  fun k => match r with
           | Ok a => Ok (a, k)
           | Throw e => Throw e
           end.
Definition tthrow {A} (e : error) : Timed A := fun _ => Throw e.

(** [performance.now()] *)
Definition performance_now : Timed float := fun k => Ok (now k, S k).

Notation "x ⇐ m ;; f" := (tbind m (fun x => f))
  (at level 100, m at next level, right associativity).

Fixpoint minimax (depth : nat) (state : GameState) (alpha beta : num)
    (isMaximizing : bool) (aiPlayer : Player) (startTime : float) {struct depth}
  : Timed num :=
  t ⇐ performance_now ;;
  if overBudget t startTime then tthrow Timeout
  else if bool_decide (state_winner state = Some (Won aiPlayer))
  then tret (Fin (WIN_SCORE + Z.of_nat depth))
  else if bool_decide (state_winner state ≠ None ∧ state_winner state ≠ Some Draw)
  then tret (Fin (- WIN_SCORE - Z.of_nat depth))
  else if bool_decide (state_winner state = Some Draw) then tret (Fin 0)
  else
    match depth with
    | 0 => z ⇐ tlift (evaluateStateAdvanced state aiPlayer) ;; tret (Fin z)
    | S depth' =>
        moves ⇐ tlift (getAvailableMoves state) ;;
        if bool_decide (length moves = 0) then tret (Fin 0)
        else if isMaximizing then
          (fix loop (moves : list Move) (alpha maxEval : num) : Timed num :=
             match moves with
             | [] => tret maxEval
             | move :: rest =>
                 nextState ⇐ tlift (makeMove state (boardIndex move) (cellIndex move)) ;;
                 evalScore ⇐ minimax depth' nextState alpha beta false aiPlayer startTime ;;
                 let maxEval := num_max maxEval evalScore in
                 let alpha := num_max alpha evalScore in
                 if num_leb beta alpha then tret maxEval
                 else loop rest alpha maxEval
             end) moves alpha NegInf
        else
          (fix loop (moves : list Move) (beta minEval : num) : Timed num :=
             match moves with
             | [] => tret minEval
             | move :: rest =>
                 nextState ⇐ tlift (makeMove state (boardIndex move) (cellIndex move)) ;;
                 evalScore ⇐ minimax depth' nextState alpha beta true aiPlayer startTime ;;
                 let minEval := num_min minEval evalScore in
                 let beta := num_min beta evalScore in
                 if num_leb beta alpha then tret minEval
                 else loop rest beta minEval
             end) moves beta PosInf
    end.

(** The loop over [sortedMoves] at the root, for one depth. *)
Fixpoint rootLoop (state : GameState) (depth : nat) (aiPlayer : Player) (startTime : float)
    (sortedMoves : list Move) (alpha beta : num)
    (currentBestScore : num) (currentBestMove : option Move)
  : Timed (num * option Move) :=
  match sortedMoves with
  | [] => tret (currentBestScore, currentBestMove)
  | move :: rest =>
      nextState ⇐ tlift (makeMove state (boardIndex move) (cellIndex move)) ;;
      score ⇐ minimax (depth - 1) nextState alpha beta false aiPlayer startTime ;;
      let '(currentBestScore, currentBestMove) :=
        if num_gtb score currentBestScore then (score, Some move)
        else (currentBestScore, currentBestMove) in
      let alpha := num_max alpha score in
      if num_leb beta alpha then tret (currentBestScore, currentBestMove)
      else rootLoop state depth aiPlayer startTime rest alpha beta
             currentBestScore currentBestMove
  end.

(** One pass through the [try] block of the deepening loop: it leaves the
    loop at the time check, or completes a depth. *)
Inductive depthExit : Type :=
  | Break
  | Completed (currentBestScore : num) (currentBestMove : option Move).

Definition searchDepth (state : GameState) (depth : nat) (aiPlayer : Player)
    (startTime : float) (sortedMoves : list Move) : Timed depthExit :=
  t ⇐ performance_now ;;
  if overBudget t startTime then tret Break
  else
    r ⇐ rootLoop state depth aiPlayer startTime sortedMoves NegInf PosInf
          NegInf (head sortedMoves) ;;
    tret (Completed r.1 r.2).

(** The iterative-deepening loop, with [remaining] depths to go from
    [depth]; [bestMove] is [None] for [undefined].  A caught exception
    leaves the loop like [break].  A completed depth without a best move
    had nothing to search ([sortedMoves] empty); the next pass would then
    read [undefined.boardIndex] inside [try] and leave the loop, so the loop
    is left at once. *)
Fixpoint deepen (remaining : nat) (state : GameState) (depth : nat) (aiPlayer : Player)
    (startTime : float) (sortedMoves : list Move) (bestScore : num) (bestMove : option Move)
    (k : nat) : num * option Move :=
  match remaining with
  | 0 => (bestScore, bestMove)
  | S remaining' =>
      match searchDepth state depth aiPlayer startTime sortedMoves k with
      | Throw _ => (bestScore, bestMove)
      | Ok (Break, _) => (bestScore, bestMove)
      | Ok (Completed currentBestScore None, _) => (currentBestScore, None)
      | Ok (Completed currentBestScore (Some top), k') =>
          deepen remaining' state (S depth) aiPlayer startTime
            (top :: filter (fun m => boardIndex m ≠ boardIndex top
                                      ∨ cellIndex m ≠ cellIndex top) sortedMoves)
            currentBestScore (Some top) k'
      end
  end.

(** Returns [bestMove] (or [None] for [undefined]) and [bestScore], the
    parts of [{ ...bestMove, score: bestScore }]. *)
Definition getImpossibleMove (state : GameState) (moves : list Move)
  : result (option Move * num) :=
  let startTime := now 0 in
  let aiPlayer := currentPlayer state in
  sortedMoves ← orderMoves state moves aiPlayer;
  let '(bestScore, bestMove) :=
    deepen MAX_DEPTH_IMPOSSIBLE state 1 aiPlayer startTime sortedMoves
      NegInf (head moves) 1 in
  Ok (bestMove, bestScore).

(** [moves[Math.floor(Math.random() * moves.length)]] *)
Definition randomMove (moves : list Move) : option ScoredMove :=
  move ← moves !! random_index (length moves);
  Some (move, None).

(** [None] is [null].  An object without coordinates (were [bestMove]
    [undefined]) is not a move either and is [None] too. *)
Definition getBestMove (state : GameState) (difficulty : Difficulty)
  : result (option ScoredMove) :=
  moves ← getAvailableMoves state;
  match moves with
  | [] => Ok None
  | first :: _ =>
      let aiPlayer := currentPlayer state in
      let opponent := opponentOf aiPlayer in
      match difficulty with
      | easy => Ok (randomMove moves)
      | medium =>
          win ← mediumWin state aiPlayer moves;
          match win with
          | Some move => Ok (Some (move, None))
          | None =>
              block ← mediumBlock state opponent moves;
              match block with
              | Some move => Ok (Some (move, None))
              | None => Ok (randomMove moves)
              end
          end
      | hard =>
          orderedMoves ← orderMoves state moves aiPlayer;
          '(bestScore, bestMove) ← hardLoop state aiPlayer orderedMoves NegInf first;
          Ok (Some (bestMove, Some bestScore))
      | impossible =>
          '(bestMove, bestScore) ← getImpossibleMove state moves;
          Ok (move ← bestMove; Some (move, Some bestScore))
      | other => Ok (Some (first, None))
      end
  end.

Definition analyzeMoveQuality (previousState : GameState) (moveMade : Move)
  : result Analysis :=
  let player := currentPlayer previousState in
  stateAfterMove ← makeMove previousState (boardIndex moveMade) (cellIndex moveMade);
  scoreMade ← evaluateStateAdvanced stateAfterMove player;
  bestMoveObj ← getBestMove previousState hard;
  match bestMoveObj with
  | None => Ok {| classification := forced; score := scoreMade; bestMove := None |}
  | Some (best_, _) =>
      stateAfterBest ← makeMove previousState (boardIndex best_) (cellIndex best_);
      scoreBest ← evaluateStateAdvanced stateAfterBest player;
      let diff := (scoreBest - scoreMade)%Z in
      let cls :=
        if bool_decide (diff < 50)%Z then best
        else if bool_decide (diff < 300)%Z then good
        else if bool_decide (diff < 2000)%Z then inaccuracy
        else blunder in
      let cls :=
        if bool_decide (cls = best) && bool_decide (scoreMade > 1000)%Z
           && bool_decide (Z.abs (scoreBest - scoreMade) < 10)%Z
        then brilliant else cls in
      Ok {| classification := cls;
            score := scoreMade;
            bestMove := if bool_decide (cls = best) then None else Some best_ |}
  end.
End Search.


(** * Notions used to state the properties *)

(** A reading of the clock of [z] milliseconds, for [z] a natural number
    below [2^63]. *)
Definition msec (z : Z) : float := PrimFloat.of_uint63 (Uint63.of_Z z).

(** The data model of the specification: nine sub-boards of nine cells, nine
    macro cells, and an active sub-board that exists. *)
Definition wf_state (state : GameState) : Prop :=
  length (boards state) = 9
  ∧ length (macroBoard state) = 9
  ∧ Forall (fun board => length (cells board) = 9) (boards state)
  ∧ ∀ a, activeBoard state = Some a → a < 9.

(** A grid holds a completed line of [v] along [pattern]. *)
Definition completed (cs : list Winner) (pattern : nat * nat * nat) (v : Outcome) : Prop :=
  cs !! pattern.1.1 = Some (Some v)
  ∧ cs !! pattern.1.2 = Some (Some v)
  ∧ cs !! pattern.2 = Some (Some v).

(** The states of play: the initial state (with any difficulty), and what
    [makeMove] gives on a move that [isMoveValid] accepts, as [App.tsx]
    calls them. *)
Inductive reachable : GameState → Prop :=
  | reachable_init (d : option Difficulty) :
      reachable (withDifficulty INITIAL_GAME_STATE d)
  | reachable_move (state state' : GameState) (b c : nat) :
      reachable state →
      isMoveValid state b c = Ok true →
      makeMove state b c = Ok state' →
      reachable state'.

(** Plays a list of moves, each checked by [isMoveValid] first. *)
Fixpoint playLegal (state : GameState) (moves : list (nat * nat)) : option GameState :=
  match moves with
  | [] => Some state
  | (b, c) :: rest =>
      match isMoveValid state b c, makeMove state b c with
      | Ok true, Ok state' => playLegal state' rest
      | _, _ => None
      end
  end.

(** [evaluate(apply(state, move), mover)] *)
Definition moveScore (state : GameState) (mover : Player) (move : Move) : result Z :=
  nextState ← makeMove state (boardIndex move) (cellIndex move);
  evaluateStateAdvanced nextState mover.

(** The sub-board [board] after [player] has marked its cell [c], as
    [makeMove] leaves it. *)
Definition placed (player : Player) (board : SmallBoardState) (c : nat) : SmallBoardState :=
  let newCells := <[c := Some player]> (cells board) in
  {| cells := newCells;
     winner := match checkBoardWinner (cellValue <$> newCells) with
               | Some v => Some v
               | None => winner board
               end |}.

(** The macro board after that move in sub-board [b]. *)
Definition macroAfter (state : GameState) (board : SmallBoardState) (b c : nat) : list Winner :=
  match checkBoardWinner (cellValue <$> <[c := Some (currentPlayer state)]> (cells board)) with
  | Some v => <[b := Some v]> (macroBoard state)
  | None => macroBoard state
  end.

(** What play maintains besides [wf_state]: the macro board mirrors the
    sub-board outcomes, an undecided sub-board has an empty cell, the result
    is the line detection of the macro board, and a specific active sub-board
    is undecided. *)
Definition play_inv (state : GameState) : Prop :=
  wf_state state
  ∧ (∀ i board, boards state !! i = Some board →
       macroBoard state !! i = Some (winner board))
  ∧ (∀ i board, boards state !! i = Some board → winner board = None →
       ∃ c, cells board !! c = Some None)
  ∧ state_winner state = checkBoardWinner (macroBoard state)
  ∧ (∀ a, activeBoard state = Some a →
       ∃ board, boards state !! a = Some board ∧ winner board = None).

(** A game of 57 legal moves that ends in a draw. *)
Definition drawnGame : list (nat * nat) :=
  [ (0, 0); (0, 2); (2, 5); (5, 2); (2, 2); (2, 8); (8, 7); (7, 8); (8, 8); (8, 5);
    (5, 1); (1, 7); (7, 6); (6, 8); (8, 6); (6, 4); (4, 5); (5, 8); (1, 1); (1, 4);
    (4, 7); (7, 2); (2, 1); (1, 3); (3, 8); (5, 0); (0, 4); (4, 8); (3, 7); (7, 4);
    (4, 1); (1, 5); (5, 7); (7, 0); (0, 5); (5, 6); (6, 5); (5, 5); (3, 5); (3, 2);
    (2, 4); (4, 6); (6, 2); (2, 3); (3, 6); (6, 7); (2, 7); (0, 7); (6, 0); (0, 8);
    (4, 2); (0, 6); (6, 6); (6, 1); (4, 3); (4, 4); (4, 0) ].

(** Seventeen legal moves after which [O], to move in sub-board 0, has two
    moves of the same best evaluation. *)
Definition tiedGame : list (nat * nat) :=
  [ (0, 0); (0, 5); (5, 6); (6, 5); (5, 0); (0, 3); (3, 4); (4, 6); (6, 0);
    (0, 8); (8, 6); (6, 8); (8, 4); (4, 5); (5, 3); (3, 1); (1, 0) ].

(** Six legal moves after which [X] can take sub-board 0 with cell 2. *)
Definition openingGame : list (nat * nat) :=
  [ (0, 0); (0, 6); (6, 3); (3, 0); (0, 1); (1, 0) ].

(** The move object [{ boardIndex: b, cellIndex: c }]. *)
Definition mv (b c : nat) : Move := {| boardIndex := b; cellIndex := c |}.

(** A game of 39 legal moves that [X] wins with the top macro row. *)
Definition wonGame : list (nat * nat) :=
  [ (0, 0); (0, 2); (2, 3); (3, 2); (2, 5); (5, 8); (8, 6); (6, 7); (7, 5); (5, 1);
    (1, 5); (5, 0); (0, 6); (6, 1); (1, 7); (7, 7); (7, 0); (0, 1); (1, 1); (1, 2);
    (2, 7); (7, 4); (4, 6); (6, 2); (2, 2); (2, 1); (1, 4); (4, 5); (5, 5); (5, 2);
    (2, 8); (8, 4); (4, 8); (8, 8); (8, 0); (0, 8); (8, 3); (3, 5); (0, 3) ].

(** The state a list of legal moves leads to (the initial state, should a
    move of the list be illegal). *)
Definition stateAfter (moves : list (nat * nat)) : GameState :=
  default INITIAL_GAME_STATE (playLegal INITIAL_GAME_STATE moves).

(** The state after [X] took the centre of the centre sub-board and [O]
    answered in its corner: [X] is to move in sub-board 0. *)
Definition replyState : GameState := stateAfter [(4, 4); (4, 0)].


(** * App.tsx: the handlers that call the rules engine

    The state variables of the component that the handlers read and set,
    and each handler as the step from their current values to the next
    ones.  What a handler sends to the peer is returned beside the state. *)

Inductive GameMode : Type := local | cpu | online.

#[global] Instance GameMode_eq_dec : EqDecision GameMode.
Proof. solve_decision. Defined.

Inductive PeerData : Type :=
  | MOVE (boardIndex cellIndex : nat)
  | SYNC (state : GameState)
  | RESTART.

Record AppState : Type := {
  gameMode : option GameMode;      (* [null] on the menu *)
  gameState : GameState;
  hasPeerService : bool;           (* [peerService] is not [null] *)
  myPlayerId : Player;
  undoneMoves : list MoveHistory;
  statsRecorded : bool
}.

Definition setGame (app : AppState) (state : GameState) (undone : list MoveHistory)
    (recorded : bool) : AppState :=
  {| gameMode := gameMode app; gameState := state;
     hasPeerService := hasPeerService app; myPlayerId := myPlayerId app;
     undoneMoves := undone; statsRecorded := recorded |}.

Definition handleMove (app : AppState) (boardIndex cellIndex : nat) (isRemote : bool)
  : result (AppState * option PeerData) :=
  if bool_decide (state_winner (gameState app) ≠ None) then Ok (app, None)
  else if bool_decide (gameMode app = Some online) && negb isRemote
          && bool_decide (currentPlayer (gameState app) ≠ myPlayerId app)
  then Ok (app, None)
  else
    valid ← isMoveValid (gameState app) boardIndex cellIndex;
    if negb valid then Ok (app, None)
    else
      let undone := if negb isRemote then [] else undoneMoves app in
      nextState ← makeMove (gameState app) boardIndex cellIndex;
      Ok (setGame app nextState undone (statsRecorded app),
          if bool_decide (gameMode app = Some online) && negb isRemote && hasPeerService app
          then Some (MOVE boardIndex cellIndex) else None).

(** [removedMoves.unshift(currentHistory.pop()!)], [movesToUndo] times,
    while [currentHistory] is not empty. *)
Fixpoint popMoves (movesToUndo : nat) (currentHistory removedMoves : list MoveHistory)
  : list MoveHistory * list MoveHistory :=
  match movesToUndo with
  | 0 => (currentHistory, removedMoves)
  | S n =>
      match reverse currentHistory with
      | move :: before => popMoves n (reverse before) (move :: removedMoves)
      | [] => popMoves n currentHistory removedMoves
      end
  end.

Definition handleUndo (app : AppState) : result AppState :=
  if bool_decide (gameMode app = Some online)
     || bool_decide (length (history (gameState app)) = 0)
  then Ok app
  else
    let movesToUndo :=
      if bool_decide (gameMode app = Some cpu)
         && bool_decide (currentPlayer (gameState app) = X)
         && bool_decide (2 ≤ length (history (gameState app)))
      then 2 else 1 in
    let '(currentHistory, removedMoves) :=
      popMoves movesToUndo (history (gameState app)) [] in
    newState ← reconstructGameState currentHistory (difficulty (gameState app));
    Ok (setGame app newState (removedMoves ++ undoneMoves app) false).

Definition handleRedo (app : AppState) : result AppState :=
  if bool_decide (gameMode app = Some online)
     || bool_decide (length (undoneMoves app) = 0)
  then Ok app
  else
    let movesToRedo := 1 in
    let movesToApply := take movesToRedo (undoneMoves app) in
    let remainingUndone := drop movesToRedo (undoneMoves app) in
    newState ← replayFrom (gameState app) movesToApply;
    Ok (setGame app newState remainingUndone (statsRecorded app)).

Definition handleRestart (app : AppState) : AppState * option PeerData :=
  if bool_decide (gameMode app = Some online) then
    if hasPeerService app
    then (setGame app INITIAL_GAME_STATE [] (statsRecorded app), Some RESTART)
    else (app, None)
  else
    (setGame app (withDifficulty INITIAL_GAME_STATE (difficulty (gameState app))) [] false,
     None).

(** The coordinates of the entries of a move log. *)
Definition coordinates (moves : list MoveHistory) : list (nat * nat) :=
  (fun move => (h_boardIndex move, h_cellIndex move)) <$> moves.

(** What the handlers maintain: the game shown is a state of play, and the
    moves kept for redo can be played from it, each one legal in its turn. *)
Definition app_inv (app : AppState) : Prop :=
  reachable (gameState app)
  ∧ is_Some (playLegal (gameState app) (coordinates (undoneMoves app))).

(** [m1] comes before [m2] in the enumeration order: ascending sub-board
    index, then ascending cell index. *)
Definition moveLt (m1 m2 : Move) : Prop :=
  boardIndex m1 < boardIndex m2
  ∨ (boardIndex m1 = boardIndex m2 ∧ cellIndex m1 < cellIndex m2).

(** The player of the [k]-th move of a game: [X] begins. *)
Definition playerOfTurn (k : nat) : Player := if Nat.even k then X else O.

(** The cell [c] of sub-board [b], when both exist. *)
Definition cellAt (state : GameState) (b c : nat) : option (option Player) :=
  board ← boards state !! b; cells board !! c.

(** [a] is ahead of [b] in the order of [orderMoves]: a higher ordering
    score, or the same score and ahead in the enumeration order. *)
Definition itemBefore (a b : Move * Z) : Prop :=
  (b.2 < a.2)%Z ∨ (b.2 = a.2 ∧ moveLt a.1 b.1).

Definition orderBefore (state : GameState) (player : Player) (m1 m2 : Move) : Prop :=
  ∃ z1 z2,
    orderScore state player m1 = Ok z1
    ∧ orderScore state player m2 = Ok z2
    ∧ itemBefore (m1, z1) (m2, z2).

(** Playing [move] completes its sub-board for [player]. *)
Definition winsBoard (state : GameState) (player : Player) (move : Move) : Prop :=
  ∃ state' board,
    makeMove state (boardIndex move) (cellIndex move) = Ok state'
    ∧ boards state' !! boardIndex move = Some board
    ∧ winner board = Some (Won player).

(** The cell of [move] is one where [opponent] would complete the
    sub-board. *)
Definition blocksBoard (state : GameState) (opponent : Player) (move : Move) : Prop :=
  ∃ board cellsClone,
    boards state !! boardIndex move = Some board
    ∧ js_set (cells board) (cellIndex move) (Some opponent) = Ok cellsClone
    ∧ checkBoardWinner (cellValue <$> cellsClone) = Some (Won opponent).

(** [move] is the first element of [moves] with the property [P]. *)
Definition firstWith (P : Move → Prop) (moves : list Move) (move : Move) : Prop :=
  ∃ before after,
    moves = before ++ move :: after ∧ P move ∧ ∀ m, m ∈ before → ¬ P m.


(** ** The search in full

    [minimax] without the clock and without the cut-off: every move of
    every position down to [depth] is searched.  It is the value that the
    pruned search is measured against. *)
Definition mapResult {A B} (f : A → result B) : list A → result (list B) :=
  fix go (l : list A) : result (list B) :=
    match l with
    | [] => Ok []
    | a :: rest => b ← f a; bs ← go rest; Ok (b :: bs)
    end.

Fixpoint fullMinimax (depth : nat) (state : GameState) (isMaximizing : bool)
    (aiPlayer : Player) {struct depth} : result num :=
  if bool_decide (state_winner state = Some (Won aiPlayer))
  then Ok (Fin (WIN_SCORE + Z.of_nat depth))
  else if bool_decide (state_winner state ≠ None ∧ state_winner state ≠ Some Draw)
  then Ok (Fin (- WIN_SCORE - Z.of_nat depth))
  else if bool_decide (state_winner state = Some Draw) then Ok (Fin 0)
  else
    match depth with
    | 0 => z ← evaluateStateAdvanced state aiPlayer; Ok (Fin z)
    | S depth' =>
        moves ← getAvailableMoves state;
        if bool_decide (length moves = 0) then Ok (Fin 0)
        else
          scores ← mapResult
                     (fun move =>
                        nextState ← makeMove state (boardIndex move) (cellIndex move);
                        fullMinimax depth' nextState (negb isMaximizing) aiPlayer)
                     moves;
          Ok (if isMaximizing then foldr num_max NegInf scores
              else foldr num_min PosInf scores)
    end.

(** The value of [move] for [aiPlayer] in a search of [depth] from
    [state]: the full search, one level less deep, of the position after
    it, with the opponent to choose. *)
Definition moveValue (depth : nat) (state : GameState) (aiPlayer : Player) (move : Move)
  : result num :=
  nextState ← makeMove state (boardIndex move) (cellIndex move);
  fullMinimax (depth - 1) nextState false aiPlayer.

(** A game against the computer after the six moves of [openingGame]: the
    player, [X], is to move. *)
Definition cpuApp : AppState :=
  {| gameMode := Some cpu; gameState := stateAfter openingGame;
     hasPeerService := false; myPlayerId := X;
     undoneMoves := []; statsRecorded := true |}.

(** ** App.tsx: the computer's turn

    The effect that answers for the computer, with the body of its timer:
    [getBestMove] is asked with the difficulty of the game ([medium], the
    default of the parameter, when there is none) and its move goes to
    [handleMove]. *)
Definition aiTurn (now : nat → float) (random_index : nat → nat) (app : AppState)
  : result (AppState * option PeerData) :=
  if bool_decide (gameMode app = Some cpu)
     && bool_decide (currentPlayer (gameState app) = O)
     && negb (bool_decide (state_winner (gameState app) ≠ None))
  then
    aiMove ← getBestMove now random_index (gameState app)
                (default medium (difficulty (gameState app)));
    match aiMove with
    | Some (move, _) => handleMove app (boardIndex move) (cellIndex move) false
    | None => Ok (app, None)
    end
  else Ok (app, None).

(** ** BigBoard.tsx, SmallBoard.tsx, Cell.tsx: the cells that can be clicked

    [isActive] as [BigBoard] computes it for the sub-board [idx], [isValid]
    as [SmallBoard] computes it for one of its cells, and the [disabled]
    attribute that [Cell] gives its button. *)
Definition isActive (gameState : GameState) (highlightMoves : bool) (idx : nat)
    (board : SmallBoardState) : bool :=
  let isTargeted := bool_decide (activeBoard gameState = None)
                    || bool_decide (activeBoard gameState = Some idx) in
  isTargeted && bool_decide (winner board = None) && highlightMoves.

Definition isValid (isActive isPlayable : bool) (data : SmallBoardState)
    (cell : option Player) : bool :=
  isActive && negb (bool_decide (winner data ≠ None)) && isPlayable
  && bool_decide (cell = None).

Definition buttonDisabled (disabled : bool) (value : option Player) : bool :=
  disabled || bool_decide (value ≠ None).

(** Whether the button of cell [cellIdx] of sub-board [idx] is rendered
    enabled; [None] when [boards.map] and [cells.map] render no such
    cell. *)
Definition cellEnabled (gameState : GameState) (highlightMoves : bool)
    (idx cellIdx : nat) : option bool :=
  board ← boards gameState !! idx;
  cell ← cells board !! cellIdx;
  let valid := isValid (isActive gameState highlightMoves idx board) highlightMoves
                 board cell in
  Some (negb (buttonDisabled (negb valid) cell)).

(** A game against the computer after [X] took the centre of the centre
    sub-board: the computer, [O], is to move. *)
Definition cpuTurnApp : AppState :=
  {| gameMode := Some cpu; gameState := stateAfter [(4, 4)];
     hasPeerService := false; myPlayerId := X;
     undoneMoves := []; statsRecorded := false |}.

(** ** GameReview.tsx: the analysis of one move of a record

    The body of the effect that grades the move at [index], which is
    [currentMoveIndex - 1]: the log up to it is replayed without a
    difficulty, and the move is graded in the state obtained. *)
Definition reviewMove (now : nat → float) (random_index : nat → nat)
    (gameHistory : list MoveHistory) (index : nat) : result Analysis :=
  previousState ← reconstructGameState (take index gameHistory) None;
  match gameHistory !! index with
  | None => Throw TypeError
  | Some moveMade =>
      analyzeMoveQuality now random_index previousState
        (mv (h_boardIndex moveMade) (h_cellIndex moveMade))
  end.


(** * Properties *)

(** ** The error monad *)

Lemma bind_Ok {A B} (m : result A) (f : A → result B) (b : B) :
  m ≫= f = Ok b ↔ ∃ a, m = Ok a ∧ f a = Ok b.
Proof.
  destruct m as [a|e]; simpl; split.
  - intros H. by exists a.
  - by intros (a' & [= ->] & H).
  - done.
  - by intros (a' & [=] & _).
Qed.

Lemma prop_Ok {A} (o : option A) (a : A) : prop o = Ok a ↔ o = Some a.
Proof. destruct o; simpl; split; congruence. Qed.

Lemma js_set_in_range {A} (arr : list A) (i : nat) (v : A) :
  i < length arr → js_set arr i v = Ok (<[i := v]> arr).
Proof. intros Hi. unfold js_set. by rewrite decide_True. Qed.

Lemma fmap_Some_eq {A B} (f : A → B) (a : A) (b : B) : f <$> Some a = Some b → f a = b.
Proof. by intros [= <-]. Qed.

Lemma lineValue_completed (cs : list Winner) (pattern : nat * nat * nat) (v : Outcome) :
  lineValue cs pattern = Some v ↔ completed cs pattern v.
Proof.
  destruct pattern as [[a b] c]. unfold lineValue, completed. simpl.
  destruct (cs !! a) as [[w|]|] eqn:Ea.
  - destruct (bool_decide (cs !! b = Some (Some w))) eqn:Eb;
      destruct (bool_decide (cs !! c = Some (Some w))) eqn:Ec; simpl;
      try apply bool_decide_eq_true in Eb; try apply bool_decide_eq_true in Ec;
      try apply bool_decide_eq_false in Eb; try apply bool_decide_eq_false in Ec;
      split; try (intros [= <-]; done);
      intros ([= <-] & Hb & Hc); congruence.
  - split; [done | by intros ([=] & _)].
  - split; [done | by intros ([=] & _)].
Qed.

Lemma lineValue_None (cs : list Winner) (pattern : nat * nat * nat) :
  lineValue cs pattern = None ↔ ∀ v, ¬ completed cs pattern v.
Proof.
  split.
  - intros H v Hv. apply lineValue_completed in Hv. congruence.
  - intros H. destruct (lineValue cs pattern) as [v|] eqn:E; [|done].
    apply lineValue_completed in E. by destruct (H v).
Qed.

(** [firstLine] gives the value of the first completed pattern. *)
Lemma firstLine_split (cs : list Winner) (pre post : list (nat * nat * nat))
    (pattern : nat * nat * nat) (v : Outcome) :
  (∀ p w, p ∈ pre → ¬ completed cs p w) →
  completed cs pattern v →
  firstLine cs (pre ++ pattern :: post) = Some v.
Proof.
  intros Hpre Hpat. induction pre as [|p pre IH]; simpl.
  - apply lineValue_completed in Hpat. by rewrite Hpat.
  - assert (lineValue cs p = None) as ->.
    { apply lineValue_None. intros w. apply Hpre. left. }
    apply IH. intros q w Hq. apply Hpre. by right.
Qed.

Lemma firstLine_Some (cs : list Winner) (patterns : list (nat * nat * nat)) (v : Outcome) :
  firstLine cs patterns = Some v →
  ∃ pre pattern post,
    patterns = pre ++ pattern :: post
    ∧ (∀ p w, p ∈ pre → ¬ completed cs p w)
    ∧ completed cs pattern v.
Proof.
  induction patterns as [|p ps IH]; simpl; [done|].
  destruct (lineValue cs p) as [w|] eqn:E.
  - intros [= ->]. exists [], p, ps. split_and!; [done| |by apply lineValue_completed].
    intros q w' Hq. by apply elem_of_nil in Hq.
  - intros H. destruct (IH H) as (pre & pat & post & -> & Hpre & Hpat).
    exists (p :: pre), pat, post. split_and!; [done| |done].
    intros q w [->|Hq]%elem_of_cons; [|by apply Hpre].
    revert w. by apply lineValue_None.
Qed.

Lemma firstLine_None (cs : list Winner) (patterns : list (nat * nat * nat)) :
  firstLine cs patterns = None ↔ ∀ p w, p ∈ patterns → ¬ completed cs p w.
Proof.
  induction patterns as [|p ps IH]; simpl.
  - split; [|done]. intros _ q w Hq. by apply elem_of_nil in Hq.
  - destruct (lineValue cs p) as [w|] eqn:E.
    + split; [done|]. intros H. apply lineValue_completed in E.
      destruct (H p w); [left | done].
    + rewrite IH. split.
      * intros H q w [->|Hq]%elem_of_cons; [|by apply H].
        revert w. by apply lineValue_None.
      * intros H q w Hq. apply H. by right.
Qed.

Lemma allFilled_Forall {A} (cs : list (option A)) :
  allFilled cs = true ↔ Forall (fun c => c ≠ None) cs.
Proof.
  unfold allFilled. induction cs as [|c cs IH]; simpl.
  - split; [constructor | done].
  - case_bool_decide as Hc; simpl.
    + rewrite IH. split; [by constructor | by inversion 1].
    + split; [done | inversion 1; done].
Qed.

(** ** Rules engine *)

(** C1. On a state and a move whose target sub-board and target cell exist,
    [isMoveValid] returns [false] when the game is decided, when the active
    sub-board is specific and another one, when the target sub-board is
    decided, or when the target cell is marked; and [true] otherwise. *)
Theorem isMoveValid_rejections (state : GameState) (b c : nat)
    (targetBoard : SmallBoardState) :
  boards state !! b = Some targetBoard →
  c < length (cells targetBoard) →
  let rejected :=
    state_winner state ≠ None
    ∨ (∃ a, activeBoard state = Some a ∧ a ≠ b)
    ∨ winner targetBoard ≠ None
    ∨ (∃ p, cells targetBoard !! c = Some (Some p)) in
  (rejected → isMoveValid state b c = Ok false)
  ∧ (¬ rejected → isMoveValid state b c = Ok true).
Proof.
  intros Hb Hc rejected. subst rejected. unfold isMoveValid.
  rewrite Hb. simpl.
  destruct (lookup_lt_is_Some_2 _ _ Hc) as [cell Hcell]. rewrite Hcell.
  split.
  - intros [Hw | [(a & Ha & Hab) | [Hw | (p & Hp)]]];
      repeat case_bool_decide; try done; exfalso.
    + match goal with H : ¬ (_ ∧ _) |- _ => apply H end.
      rewrite Ha. split; congruence.
    + congruence.
  - intros Hno.
    rewrite bool_decide_eq_false_2 by (intros H; apply Hno; by left).
    rewrite bool_decide_eq_false_2.
    2:{ intros [H1 H2]. apply Hno. right; left.
        destruct (activeBoard state) as [a|]; [|done]. exists a. split; congruence. }
    rewrite bool_decide_eq_false_2 by (intros H; apply Hno; by right; right; left).
    rewrite bool_decide_eq_false_2; [done|].
    intros H. apply Hno. right; right; right.
    destruct cell as [p|]; [by exists p | done].
Qed.

Lemma isMoveValid_rejections_witness :
  boards INITIAL_GAME_STATE !! 0 = Some {| cells := replicate 9 None; winner := None |}
  ∧ 0 < length (replicate 9 (@None Player))
  ∧ isMoveValid INITIAL_GAME_STATE 0 0 = Ok true.
Proof.
  split; [reflexivity|]. split; [simpl; lia|].
  apply (isMoveValid_rejections INITIAL_GAME_STATE 0 0
           {| cells := replicate 9 None; winner := None |}).
  - reflexivity.
  - simpl. lia.
  - intros [H | [(a & H & _) | [H | (p & H)]]]; simpl in H; congruence.
Defined.

Lemma isMoveValid_true (state : GameState) (b c : nat) :
  isMoveValid state b c = Ok true →
  state_winner state = None
  ∧ (activeBoard state = None ∨ activeBoard state = Some b)
  ∧ ∃ targetBoard, boards state !! b = Some targetBoard
      ∧ winner targetBoard = None
      ∧ cells targetBoard !! c = Some None.
Proof.
  unfold isMoveValid. intros H.
  case_bool_decide as H1; [done|]. try apply dec_stable in H1.
  case_bool_decide as H2; [done|].
  apply bind_Ok in H as (tb & Htb%prop_Ok & H).
  case_bool_decide as H3; [done|]. try apply dec_stable in H3.
  case_bool_decide as H4; [done|]. try apply dec_stable in H4.
  split_and!; [done| |by exists tb].
  destruct (activeBoard state) as [a|]; [|by left].
  right. destruct (decide (a = b)) as [->|Hne]; [done|].
  destruct H2. split; congruence.
Qed.

Lemma wf_state_cells (state : GameState) (b : nat) (board : SmallBoardState) :
  wf_state state → boards state !! b = Some board →
  b < 9 ∧ length (cells board) = 9.
Proof.
  intros (Hlen & _ & Hcells & _) Hb. split.
  - rewrite <- Hlen. by eapply lookup_lt_Some.
  - by eapply (Forall_lookup_1 _ _ _ _ Hcells).
Qed.

(** What [makeMove] returns on a state of nine sub-boards of nine cells. *)
Lemma makeMove_eq (state : GameState) (b c : nat) (board : SmallBoardState) :
  wf_state state →
  boards state !! b = Some board →
  c < 9 →
  ∃ target,
    <[b := placed (currentPlayer state) board c]> (boards state) !! c = Some target
    ∧ makeMove state b c =
      Ok {| boards := <[b := placed (currentPlayer state) board c]> (boards state);
            macroBoard := macroAfter state board b c;
            activeBoard :=
              if bool_decide (winner target ≠ None) || allFilled (cells target)
              then None else Some c;
            currentPlayer := opponentOf (currentPlayer state);
            state_winner := checkBoardWinner (macroAfter state board b c);
            history := history state ++
                       [ {| h_boardIndex := b; h_cellIndex := c;
                            h_player := currentPlayer state |} ];
            difficulty := difficulty state;
            lastMove := Some {| boardIndex := b; cellIndex := c |} |}.
Proof.
  intros Hwf Hb Hc.
  destruct (wf_state_cells _ _ _ Hwf Hb) as [Hb9 Hbc].
  destruct Hwf as (Hlen & Hmac & Hcells & Hact).
  destruct (lookup_lt_is_Some_2
              (<[b := placed (currentPlayer state) board c]> (boards state)) c)
    as [target Ht].
  { rewrite length_insert. lia. }
  exists target. split; [done|].
  unfold makeMove. rewrite Hb. simpl.
  rewrite js_set_in_range by lia. simpl.
  unfold macroAfter, placed in *.
  destruct (checkBoardWinner _) as [v|] eqn:Ew; simpl.
  - rewrite js_set_in_range by lia. simpl. rewrite Ht. simpl. done.
  - rewrite Ht. simpl. done.
Qed.

Lemma makeMove_Ok_range (state state' : GameState) (b c : nat) :
  wf_state state →
  makeMove state b c = Ok state' →
  c < 9 ∧ ∃ board, boards state !! b = Some board.
Proof.
  intros (Hlen & Hmac & Hcells & Hact) H. unfold makeMove in H.
  apply bind_Ok in H as (board & Hb%prop_Ok & H).
  apply bind_Ok in H as (newCells & Hset & H).
  apply bind_Ok in H as (newMacro & Hmacro & H).
  apply bind_Ok in H as (target & Ht%prop_Ok & H).
  split; [|by exists board].
  apply lookup_lt_Some in Ht. rewrite length_insert in Ht. lia.
Qed.

Lemma wf_state_makeMove (state state' : GameState) (b c : nat) :
  wf_state state →
  makeMove state b c = Ok state' →
  wf_state state'.
Proof.
  intros Hwf H.
  destruct (makeMove_Ok_range _ _ _ _ Hwf H) as (Hc & board & Hb).
  destruct (makeMove_eq _ _ _ _ Hwf Hb Hc) as (target & Ht & Heq).
  rewrite Heq in H. injection H as <-.
  destruct (wf_state_cells _ _ _ Hwf Hb) as [Hb9 Hbc].
  destruct Hwf as (Hlen & Hmac & Hcells & Hact).
  unfold wf_state; cbn [boards macroBoard activeBoard]. split_and!.
  - by rewrite length_insert.
  - clear Heq. unfold macroAfter. destruct (checkBoardWinner _); [by rewrite length_insert | done].
  - apply Forall_insert; [done|]. unfold placed. cbn [cells]. by rewrite length_insert.
  - intros a. destruct (_ || _); [done|]. by intros [= <-].
Qed.

Lemma wf_state_initial (d : option Difficulty) :
  wf_state (withDifficulty INITIAL_GAME_STATE d).
Proof.
  unfold wf_state; simpl. split_and!; [done | done | | done].
  repeat constructor.
Qed.

Lemma reachable_wf (state : GameState) : reachable state → wf_state state.
Proof.
  induction 1 as [d | s s' b c _ IH _ Hmove].
  - apply wf_state_initial.
  - by eapply wf_state_makeMove.
Qed.

(** C2. After a legal move into cell [c], the active sub-board is [c], unless
    sub-board [c] (as the move leaves it; the sub-board of the state itself
    when the move was played elsewhere) is decided or full: then it is free. *)
Theorem makeMove_activeBoard (state : GameState) (b c : nat) :
  wf_state state →
  isMoveValid state b c = Ok true →
  ∃ state' target,
    makeMove state b c = Ok state'
    ∧ boards state' !! c = Some target
    ∧ (b ≠ c → boards state !! c = Some target)
    ∧ (winner target ≠ None ∨ Forall (fun cell => cell ≠ None) (cells target) →
       activeBoard state' = None)
    ∧ (winner target = None → ¬ Forall (fun cell => cell ≠ None) (cells target) →
       activeBoard state' = Some c).
Proof.
  intros Hwf Hlegal.
  destruct (isMoveValid_true _ _ _ Hlegal) as (_ & _ & board & Hb & _ & Hcell).
  assert (c < 9) as Hc.
  { destruct (wf_state_cells _ _ _ Hwf Hb) as [_ <-]. by eapply lookup_lt_Some. }
  destruct (makeMove_eq _ _ _ _ Hwf Hb Hc) as (target & Ht & Heq).
  eexists _, target. split; [exact Heq|]. simpl. split_and!.
  - done.
  - intros Hne. by rewrite list_lookup_insert_ne in Ht.
  - intros [Hw | Hfull].
    + by rewrite bool_decide_eq_true_2.
    + apply allFilled_Forall in Hfull. rewrite Hfull. by rewrite orb_true_r.
  - intros Hw Hnot. rewrite bool_decide_eq_false_2 by (by intros ?). simpl.
    destruct (allFilled (cells target)) eqn:E; [|done].
    by apply allFilled_Forall in E.
Qed.

Lemma makeMove_activeBoard_witness :
  wf_state INITIAL_GAME_STATE
  ∧ isMoveValid INITIAL_GAME_STATE 4 4 = Ok true
  ∧ ∃ state' target,
      makeMove INITIAL_GAME_STATE 4 4 = Ok state'
      ∧ boards state' !! 4 = Some target
      ∧ (4 ≠ 4 → boards INITIAL_GAME_STATE !! 4 = Some target)
      ∧ (winner target ≠ None ∨ Forall (fun cell => cell ≠ None) (cells target) →
         activeBoard state' = None)
      ∧ (winner target = None → ¬ Forall (fun cell => cell ≠ None) (cells target) →
         activeBoard state' = Some 4).
Proof.
  split; [exact (wf_state_initial None)|]. split; [reflexivity|].
  apply (makeMove_activeBoard INITIAL_GAME_STATE 4 4).
  - exact (wf_state_initial None).
  - reflexivity.
Defined.

(** ** Line detection *)

Lemma checkBoardWinner_first (grid : list Winner) (pre post : list (nat * nat * nat))
    (pattern : nat * nat * nat) (v : Outcome) :
  WINNING_PATTERNS = pre ++ pattern :: post →
  (∀ p w, p ∈ pre → ¬ completed grid p w) →
  completed grid pattern v →
  checkBoardWinner grid = Some v.
Proof.
  intros Hsplit Hpre Hpat. unfold checkBoardWinner.
  rewrite Hsplit. by rewrite (firstLine_split grid pre post pattern v).
Qed.

Lemma allFilled_false {A} (cs : list (option A)) :
  allFilled cs = false → ∃ i, cs !! i = Some None.
Proof.
  unfold allFilled. induction cs as [|c cs IH]; simpl; [done|].
  destruct c as [a|]; simpl.
  - intros H. destruct (IH H) as [i Hi]. by exists (S i).
  - intros _. by exists 0.
Qed.

Lemma checkBoardWinner_None (grid : list Winner) :
  checkBoardWinner grid = None →
  ∃ i, grid !! i = Some None.
Proof.
  unfold checkBoardWinner. destruct (firstLine _ _); [done|].
  destruct (allFilled grid) eqn:E; [done|]. intros _.
  by apply allFilled_false.
Qed.

(** C3, the claim as stated, fails: the grid [XXX/OOO/___] holds a completed
    line for [O] (the middle row), and [checkBoardWinner] returns [X], whose
    line comes first in [WINNING_PATTERNS]. *)
Lemma checkBoardWinner_second_line_lost :
  ¬ (∀ (grid : list Winner) (m : Player),
       length grid = 9 →
       (∃ pattern, pattern ∈ WINNING_PATTERNS ∧ completed grid pattern (Won m)) →
       checkBoardWinner grid = Some (Won m)).
Proof.
  intros H.
  specialize (H (cellValue <$> [Some X; Some X; Some X; Some O; Some O; Some O;
                                None; None; None]) O eq_refl).
  assert (checkBoardWinner
            (cellValue <$> [Some X; Some X; Some X; Some O; Some O; Some O;
                            None; None; None]) = Some (Won X)) as HX by reflexivity.
  rewrite HX in H. discriminate H.
  exists (3, 4, 5). split.
  - unfold WINNING_PATTERNS. apply list_elem_of_further, list_elem_of_here.
  - by repeat split.
Qed.

(** C3, amended.  On a 9-cell grid the lines are checked in the order of
    [WINNING_PATTERNS], before fullness: the value of the first completed
    line is returned, filled grid or not; so a mark whose lines are the only
    completed ones is returned; and a filled grid without a completed line
    gives [Draw]. *)
Theorem checkBoardWinner_lines_before_full (grid : list Winner) :
  length grid = 9 →
  (∀ pre pattern post v,
      WINNING_PATTERNS = pre ++ pattern :: post →
      (∀ p w, p ∈ pre → ¬ completed grid p w) →
      completed grid pattern v →
      checkBoardWinner grid = Some v)
  ∧ (∀ m : Player,
      (∃ pattern, pattern ∈ WINNING_PATTERNS ∧ completed grid pattern (Won m)) →
      (∀ pattern w, pattern ∈ WINNING_PATTERNS → completed grid pattern w → w = Won m) →
      checkBoardWinner grid = Some (Won m))
  ∧ (Forall (fun c => c ≠ None) grid →
      (∀ pattern w, pattern ∈ WINNING_PATTERNS → ¬ completed grid pattern w) →
      checkBoardWinner grid = Some Draw).
Proof.
  intros _. split_and!.
  - intros pre pattern post v. apply checkBoardWinner_first.
  - intros m (pattern & Hin & Hpat) Honly. unfold checkBoardWinner.
    destruct (firstLine grid WINNING_PATTERNS) as [v|] eqn:E.
    + apply firstLine_Some in E as (pre & pat & post & Hsplit & _ & Hv).
      f_equal. apply (Honly pat); [|done].
      rewrite Hsplit. apply elem_of_app. right. left.
    + rewrite firstLine_None in E. by destruct (E pattern (Won m)).
  - intros Hfull Hno. unfold checkBoardWinner.
    apply firstLine_None in Hno. rewrite Hno.
    apply allFilled_Forall in Hfull. by rewrite Hfull.
Qed.

Lemma checkBoardWinner_lines_before_full_witness :
  let grid := cellValue <$> [Some X; Some O; Some X; Some O; Some X; Some O;
                             Some O; Some X; Some X] in
  length grid = 9
  ∧ checkBoardWinner grid = Some (Won X).
Proof.
  intros grid. split; [reflexivity|].
  destruct (checkBoardWinner_lines_before_full grid eq_refl) as (Hfirst & _ & _).
  apply (Hfirst [(0, 1, 2); (3, 4, 5); (6, 7, 8); (0, 3, 6); (1, 4, 7); (2, 5, 8)]
           (0, 4, 8) [(2, 4, 6)] (Won X)).
  - reflexivity.
  - intros p w Hp (H1 & H2 & H3).
    repeat (apply elem_of_cons in Hp as [-> | Hp]; [vm_compute in H1, H2, H3; congruence|]).
    by apply elem_of_nil in Hp.
  - by repeat split.
Defined.

(** ** Replay *)

Lemma replayFrom_app (state : GameState) (pre suf : list MoveHistory) :
  replayFrom state (pre ++ suf) = replayFrom state pre ≫= fun s => replayFrom s suf.
Proof.
  revert state. induction pre as [|move pre IH]; intros state; simpl; [done|].
  destruct (makeMove state (h_boardIndex move) (h_cellIndex move)) as [next|e]; simpl.
  - apply IH.
  - done.
Qed.

(** C9. Replaying a log twice gives the same result, and replaying a prefix
    and then folding [makeMove] over the rest from the state obtained gives
    what replaying the whole log gives (an error of the prefix included). *)
Theorem reconstructGameState_prefix_suffix (log : list MoveHistory)
    (initialDifficulty : option Difficulty) :
  (∀ first second,
      first = reconstructGameState log initialDifficulty →
      second = reconstructGameState log initialDifficulty →
      first = second)
  ∧ (∀ pre suf,
      log = pre ++ suf →
      reconstructGameState log initialDifficulty =
      reconstructGameState pre initialDifficulty ≫= fun state => replayFrom state suf).
Proof.
  split.
  - by intros first second -> ->.
  - intros pre suf ->. unfold reconstructGameState. apply replayFrom_app.
Qed.

(** ** Legal moves *)

Lemma emptyCells_elem (bIdx : nat) (board : SmallBoardState) (move : Move) :
  move ∈ emptyCells bIdx board ↔
  boardIndex move = bIdx ∧ cellIndex move < 9
  ∧ cells board !! cellIndex move = Some None.
Proof.
  unfold emptyCells. rewrite list_elem_of_omap. split.
  - intros (c & Hc & H). apply elem_of_seq in Hc.
    case_bool_decide as E; [|done]. injection H as <-. simpl. split_and!; [done|lia|done].
  - intros (Hb & Hc & Hcell). exists (cellIndex move). split.
    + apply elem_of_seq. lia.
    + rewrite bool_decide_eq_true_2 by done. destruct move; simpl in *. by subst.
Qed.

Lemma collectMoves_Ok (bs : list SmallBoardState) (boardsToCheck : list nat) :
  (∀ i, i ∈ boardsToCheck → i < length bs) →
  ∃ moves, collectMoves bs boardsToCheck = Ok moves.
Proof.
  induction boardsToCheck as [|i rest IH]; intros Hall; simpl; [by eexists|].
  destruct (lookup_lt_is_Some_2 bs i) as [board Hb]; [apply Hall; left|].
  rewrite Hb. simpl.
  destruct IH as [moves ->]; [intros j Hj; apply Hall; by right|].
  simpl. by eexists.
Qed.

Lemma collectMoves_elem (bs : list SmallBoardState) (boardsToCheck : list nat)
    (moves : list Move) (move : Move) :
  collectMoves bs boardsToCheck = Ok moves →
  move ∈ moves ↔
  boardIndex move ∈ boardsToCheck
  ∧ ∃ board, bs !! boardIndex move = Some board
      ∧ winner board = None
      ∧ cellIndex move < 9
      ∧ cells board !! cellIndex move = Some None.
Proof.
  revert moves. induction boardsToCheck as [|i rest IH]; intros moves; simpl.
  - intros [= <-]. split; [by intros ?%elem_of_nil | by intros [?%elem_of_nil _]].
  - intros H. apply bind_Ok in H as (board & Hb%prop_Ok & H).
    apply bind_Ok in H as (tail & Htail & [= <-]).
    rewrite elem_of_app, (IH tail Htail), elem_of_cons. split.
    + intros [Hhere | (Hin & Hrest)].
      * case_bool_decide as Hw; [by apply elem_of_nil in Hhere|].
        apply emptyCells_elem in Hhere as (<- & Hc & Hcell).
        split; [by left|]. exists board.
        split_and!; try done; by destruct (winner board).
      * split; [by right | done].
    + intros ([Heq | Hin] & board' & Hb' & Hw & Hc & Hcell).
      * left. subst i. assert (board' = board) as -> by congruence.
        rewrite bool_decide_eq_false_2 by (rewrite Hw; by intros ?).
        by apply emptyCells_elem.
      * right. split; [done|]. by exists board'.
Qed.

Lemma getAvailableMoves_Ok (state : GameState) :
  wf_state state → ∃ moves, getAvailableMoves state = Ok moves.
Proof.
  intros (Hlen & _ & _ & Hact). unfold getAvailableMoves.
  apply collectMoves_Ok. intros i Hi. rewrite Hlen.
  destruct (activeBoard state) as [a|] eqn:Ea.
  - apply list_elem_of_singleton in Hi as ->. by apply Hact.
  - apply elem_of_seq in Hi. lia.
Qed.

Lemma getAvailableMoves_elem (state : GameState) (moves : list Move) (move : Move) :
  getAvailableMoves state = Ok moves →
  move ∈ moves →
  (activeBoard state = None ∨ activeBoard state = Some (boardIndex move))
  ∧ cellIndex move < 9
  ∧ ∃ board, boards state !! boardIndex move = Some board
      ∧ winner board = None
      ∧ cells board !! cellIndex move = Some None.
Proof.
  unfold getAvailableMoves. intros H Hin.
  apply (collectMoves_elem _ _ _ move H) in Hin as (Hidx & board & Hb & Hw & Hc & Hcell).
  split_and!; [|done|by exists board].
  destruct (activeBoard state) as [a|]; [|by left].
  right. by apply list_elem_of_singleton in Hidx as ->.
Qed.

(** ** Invariants of play *)

Lemma play_inv_initial (d : option Difficulty) :
  play_inv (withDifficulty INITIAL_GAME_STATE d).
Proof.
  split; [apply wf_state_initial|].
  unfold withDifficulty, INITIAL_GAME_STATE.
  cbn [boards macroBoard activeBoard state_winner]. split_and!.
  - intros i board Hi. apply lookup_replicate in Hi as [-> Hi].
    cbn [winner]. by apply lookup_replicate.
  - intros i board Hi _. apply lookup_replicate in Hi as [-> Hi].
    by exists 0.
  - reflexivity.
  - done.
Qed.

Lemma placed_undecided (player : Player) (board : SmallBoardState) (c : nat) :
  winner (placed player board c) = None →
  ∃ c', cells (placed player board c) !! c' = Some None.
Proof.
  unfold placed. cbn [winner cells].
  destruct (checkBoardWinner _) as [v|] eqn:E; [done|]. intros _.
  apply checkBoardWinner_None in E as [i Hi]. exists i.
  rewrite list_lookup_fmap in Hi.
  destruct (_ !! i) as [[p|]|]; simpl in Hi; congruence.
Qed.

Lemma play_inv_makeMove (state state' : GameState) (b c : nat) :
  play_inv state →
  isMoveValid state b c = Ok true →
  makeMove state b c = Ok state' →
  play_inv state'.
Proof.
  intros (Hwf & Hmirror & Hempty & Hres & Hactive) Hlegal Hmove.
  split; [by eapply wf_state_makeMove|].
  destruct (isMoveValid_true _ _ _ Hlegal) as (_ & _ & board & Hb & Hw & Hcell).
  destruct (makeMove_Ok_range _ _ _ _ Hwf Hmove) as (Hc & _).
  destruct (makeMove_eq _ _ _ _ Hwf Hb Hc) as (target & Ht & Heq).
  rewrite Heq in Hmove. injection Hmove as <-. clear Heq.
  destruct (wf_state_cells _ _ _ Hwf Hb) as [Hb9 _].
  destruct Hwf as (Hlen & Hmac & _ & _).
  cbn [boards macroBoard activeBoard state_winner]. split_and!.
  - intros i bd Hi. destruct (decide (i = b)) as [->|Hne].
    + rewrite list_lookup_insert_eq in Hi by lia. injection Hi as <-.
      unfold macroAfter, placed. cbn [winner cells].
      destruct (checkBoardWinner (cellValue <$> _)) as [v|].
      * by rewrite list_lookup_insert_eq by lia.
      * rewrite (Hmirror b board Hb). done.
    + rewrite list_lookup_insert_ne in Hi by done.
      unfold macroAfter. destruct (checkBoardWinner (cellValue <$> _)) as [v|].
      * rewrite list_lookup_insert_ne by done. by apply Hmirror.
      * by apply Hmirror.
  - intros i bd Hi Hwi. destruct (decide (i = b)) as [->|Hne].
    + rewrite list_lookup_insert_eq in Hi by lia. injection Hi as <-.
      by apply placed_undecided.
    + rewrite list_lookup_insert_ne in Hi by done. by eapply Hempty.
  - done.
  - intros a. destruct (bool_decide (winner target ≠ None)) eqn:E; simpl; [done|].
    destruct (allFilled (cells target)); [done|]. intros [= <-].
    exists target. split; [done|].
    apply bool_decide_eq_false in E. by destruct (winner target); [destruct E|].
Qed.

Lemma reachable_play_inv (state : GameState) : reachable state → play_inv state.
Proof.
  induction 1 as [d | s s' b c _ IH Hlegal Hmove].
  - apply play_inv_initial.
  - by eapply play_inv_makeMove.
Qed.

(** A legal move on a state of play is always carried out. *)
Lemma reachable_makeMove_Ok (state : GameState) (b c : nat) :
  reachable state →
  isMoveValid state b c = Ok true →
  ∃ state', makeMove state b c = Ok state' ∧ reachable state'.
Proof.
  intros Hr Hlegal.
  pose proof (reachable_wf _ Hr) as Hwf.
  destruct (isMoveValid_true _ _ _ Hlegal) as (_ & _ & board & Hb & _ & Hcell).
  assert (c < 9) as Hc.
  { destruct (wf_state_cells _ _ _ Hwf Hb) as [_ <-]. by eapply lookup_lt_Some. }
  destruct (makeMove_eq _ _ _ _ Hwf Hb Hc) as (target & _ & Heq).
  eexists. split; [exact Heq|]. by eapply reachable_move.
Qed.

Lemma playLegal_reachable (state state' : GameState) (moves : list (nat * nat)) :
  reachable state →
  playLegal state moves = Some state' →
  reachable state'.
Proof.
  revert state. induction moves as [|[b c] rest IH]; intros state Hr; simpl.
  - by intros [= <-].
  - destruct (isMoveValid state b c) as [[|]|] eqn:Hlegal; try done.
    destruct (makeMove state b c) as [next|] eqn:Hmove; try done.
    apply IH. by eapply reachable_move.
Qed.

(** C4. A state of play whose result is [None] has a legal move. *)
Theorem getAvailableMoves_nonempty (state : GameState) :
  reachable state →
  state_winner state = None →
  ∃ move moves, getAvailableMoves state = Ok (move :: moves).
Proof.
  intros Hr Hnone.
  destruct (reachable_play_inv _ Hr) as (Hwf & Hmirror & Hempty & Hres & Hactive).
  destruct (getAvailableMoves_Ok _ Hwf) as [moves Hmoves].
  assert (∃ move, move ∈ moves) as [move Hin].
  { assert (∃ b board c, (activeBoard state = None ∨ activeBoard state = Some b)
                         ∧ boards state !! b = Some board ∧ winner board = None
                         ∧ cells board !! c = Some None)
      as (b & board & c & Hact & Hb & Hw & Hcell).
    { destruct (activeBoard state) as [a|] eqn:Ea.
      - destruct (Hactive a eq_refl) as (board & Hb & Hw).
        destruct (Hempty a board Hb Hw) as [c Hc].
        exists a, board, c. split_and!; try done. by right.
      - rewrite Hres in Hnone. apply checkBoardWinner_None in Hnone as [i Hi].
        destruct Hwf as (Hlen & Hmac & _ & _).
        destruct (lookup_lt_is_Some_2 (boards state) i) as [board Hb].
        { rewrite Hlen, <- Hmac. by eapply lookup_lt_Some. }
        assert (winner board = None) as Hw.
        { specialize (Hmirror i board Hb). unfold Winner in *. congruence. }
        destruct (Hempty i board Hb Hw) as [c Hc].
        exists i, board, c. split_and!; try done. by left. }
    exists {| boardIndex := b; cellIndex := c |}.
    unfold getAvailableMoves in Hmoves.
    apply (collectMoves_elem _ _ _ _ Hmoves). cbn [boardIndex cellIndex]. split.
    - destruct Hact as [-> | ->].
      + apply elem_of_seq. destruct (wf_state_cells _ _ _ Hwf Hb). lia.
      + by apply list_elem_of_singleton.
    - exists board. split_and!; try done.
      destruct (wf_state_cells _ _ _ Hwf Hb) as [_ <-]. by eapply lookup_lt_Some. }
  destruct moves as [|m ms]; [by apply elem_of_nil in Hin|].
  by exists m, ms.
Qed.

Lemma getAvailableMoves_nonempty_witness :
  reachable INITIAL_GAME_STATE
  ∧ state_winner INITIAL_GAME_STATE = None
  ∧ ∃ move moves, getAvailableMoves INITIAL_GAME_STATE = Ok (move :: moves).
Proof.
  split; [exact (reachable_init None)|]. split; [reflexivity|].
  apply (getAvailableMoves_nonempty INITIAL_GAME_STATE).
  - exact (reachable_init None).
  - reflexivity.
Defined.

(** ** Evaluation *)

Lemma opponentOf_ne (p : Player) : opponentOf p ≠ p.
Proof. by destruct p. Qed.

Lemma countMacro_cases (macro : list Winner) (player opponent : Player)
    (pattern : nat * nat * nat) :
  opponent ≠ player →
  match countMacro macro player opponent pattern with
  | (pCount, oCount, draws) =>
      (pCount = 3 → draws = 0 ∧ completed macro pattern (Won player))
      ∧ (oCount = 3 → draws = 0 ∧ completed macro pattern (Won opponent))
  end.
Proof.
  intros Hne. destruct pattern as [[a b] c]. unfold countMacro, completed. simpl.
  repeat case_bool_decide; split; intros; try lia; done.
Qed.

(** A pattern without a completed line lets the macro loop go on. *)
Lemma evaluateMacro_skip (macro : list Winner) (player opponent : Player)
    (pattern : nat * nat * nat) (rest : list (nat * nat * nat)) (score : Z) :
  opponent ≠ player →
  (∀ w, ¬ completed macro pattern w) →
  ∃ score', evaluateMacro macro player opponent (pattern :: rest) score
            = evaluateMacro macro player opponent rest score'.
Proof.
  intros Hne Hno. simpl.
  pose proof (countMacro_cases macro player opponent pattern Hne) as Hc.
  destruct (countMacro macro player opponent pattern) as [[pCount oCount] draws].
  destruct Hc as [Hp Ho].
  case_bool_decide as Hd; [|by eexists].
  case_bool_decide as H3.
  { destruct (Hp H3) as [_ Hline]. by destruct (Hno _ Hline). }
  case_bool_decide as H3'.
  { destruct (Ho H3') as [_ Hline]. by destruct (Hno _ Hline). }
  by eexists.
Qed.

Lemma countMacro_completed (macro : list Winner) (player opponent : Player)
    (pattern : nat * nat * nat) :
  opponent ≠ player →
  (completed macro pattern (Won player) →
   countMacro macro player opponent pattern = (3, 0, 0))
  ∧ (completed macro pattern (Won opponent) →
     countMacro macro player opponent pattern = (0, 3, 0)).
Proof.
  intros Hne. destruct pattern as [[a b] c]. unfold countMacro, completed. simpl.
  split; intros (Ha & Hb & Hc); repeat case_bool_decide; try done;
    unfold Winner in *; congruence.
Qed.

Lemma evaluateMacro_line (macro : list Winner) (player opponent : Player)
    (pattern : nat * nat * nat) (rest : list (nat * nat * nat)) (score : Z) (q : Player) :
  opponent ≠ player →
  completed macro pattern (Won q) →
  evaluateMacro macro player opponent (pattern :: rest) score
  = Returned (if decide (player = q) then WIN_SCORE else (- WIN_SCORE)%Z).
Proof.
  intros Hne Hline.
  destruct (countMacro_completed macro player opponent pattern Hne) as [Hp Ho].
  cbn [evaluateMacro].
  destruct (decide (player = q)) as [->|Hpq].
  - by rewrite (Hp Hline).
  - assert (q = opponent) as -> by (destruct player, opponent, q; congruence).
    by rewrite (Ho Hline).
Qed.

Lemma evaluateMacro_first (macro : list Winner) (player opponent : Player)
    (pre post : list (nat * nat * nat)) (pattern : nat * nat * nat)
    (score : Z) (q : Player) :
  opponent ≠ player →
  (∀ p w, p ∈ pre → ¬ completed macro p w) →
  completed macro pattern (Won q) →
  evaluateMacro macro player opponent (pre ++ pattern :: post) score
  = Returned (if decide (player = q) then WIN_SCORE else (- WIN_SCORE)%Z).
Proof.
  intros Hne Hpre Hline. revert score.
  induction pre as [|p pre IH]; intros score.
  - by apply evaluateMacro_line.
  - destruct (evaluateMacro_skip macro player opponent p (pre ++ pattern :: post) score Hne)
      as [score' Hskip].
    { intros w. apply Hpre. left. }
    rewrite <- app_comm_cons, Hskip. apply IH.
    intros p' w Hp'. apply Hpre. by right.
Qed.

(** C5, at a drawn game, where the code departs from the claim: after these
    57 legal moves the macro board is full without a line, the result is
    [Draw], and the evaluation is [-4550] for [X] and [-450] for [O], where
    the claim, and [minimax] on the same state, give [0]. *)
Lemma evaluate_draw_not_zero :
  ∃ state,
    playLegal INITIAL_GAME_STATE drawnGame = Some state
    ∧ reachable state
    ∧ state_winner state = Some Draw
    ∧ evaluateStateAdvanced state X = Ok (-4550)%Z
    ∧ evaluateStateAdvanced state O = Ok (-450)%Z
    ∧ ∀ now depth alpha beta isMaximizing aiPlayer startTime k,
        overBudget (now k) startTime = false →
        minimax now depth state alpha beta isMaximizing aiPlayer startTime k
        = Ok (Fin 0, S k).
Proof.
  assert (state_winner <$> playLegal INITIAL_GAME_STATE drawnGame = Some (Some Draw)) as H1
    by (vm_compute; reflexivity).
  assert ((fun s => evaluateStateAdvanced s X) <$> playLegal INITIAL_GAME_STATE drawnGame
          = Some (Ok (-4550)%Z)) as H2
    by (vm_compute; reflexivity).
  assert ((fun s => evaluateStateAdvanced s O) <$> playLegal INITIAL_GAME_STATE drawnGame
          = Some (Ok (-450)%Z)) as H3
    by (vm_compute; reflexivity).
  pose proof (playLegal_reachable INITIAL_GAME_STATE) as Hreach.
  specialize (fun s => Hreach s drawnGame (reachable_init None)).
  revert H1 H2 H3 Hreach. generalize (playLegal INITIAL_GAME_STATE drawnGame).
  intros [state|] H1 H2 H3 Hreach; [|discriminate H1].
  exists state. apply fmap_Some_eq in H1, H2, H3. split_and!; try done.
  - by apply Hreach.
  - intros now depth alpha beta isMaximizing aiPlayer startTime k Hbudget.
    destruct depth; cbn [minimax]; unfold tbind, performance_now;
      rewrite Hbudget, H1;
      rewrite (bool_decide_eq_false_2 (Some Draw = Some (Won aiPlayer))) by done;
      rewrite bool_decide_eq_false_2 by (by intros [_ ?]);
      by rewrite bool_decide_eq_true_2.
Qed.

(** X24. Where the result is what line detection gives on the macro board
    (as in every state of play) and is a win, the evaluation is [WIN_SCORE]
    for the winner and [- WIN_SCORE] for the other player. *)
Theorem evaluate_decisive_win (state : GameState) (perspective q : Player) :
  state_winner state = checkBoardWinner (macroBoard state) →
  state_winner state = Some (Won q) →
  evaluateStateAdvanced state perspective
  = Ok (if decide (perspective = q) then WIN_SCORE else (- WIN_SCORE)%Z).
Proof.
  intros Hres Hwin. rewrite Hres in Hwin. unfold checkBoardWinner in Hwin.
  destruct (firstLine (macroBoard state) WINNING_PATTERNS) as [v|] eqn:E.
  - injection Hwin as ->.
    apply firstLine_Some in E as (pre & pattern & post & Hsplit & Hpre & Hline).
    unfold evaluateStateAdvanced. rewrite Hsplit.
    rewrite (evaluateMacro_first _ _ _ pre post pattern 0%Z q); try done.
    apply opponentOf_ne.
  - by destruct (allFilled (macroBoard state)).
Qed.

Lemma evaluate_decisive_win_witness :
  state_winner (stateAfter wonGame) = checkBoardWinner (macroBoard (stateAfter wonGame))
  ∧ state_winner (stateAfter wonGame) = Some (Won X)
  ∧ evaluateStateAdvanced (stateAfter wonGame) O = Ok (- WIN_SCORE)%Z.
Proof.
  split; [vm_compute; reflexivity|]. split; [vm_compute; reflexivity|].
  apply (evaluate_decisive_win (stateAfter wonGame) O X).
  - vm_compute; reflexivity.
  - vm_compute; reflexivity.
Defined.

(** ** The heuristic tier and the analyzer at two positions *)

(** C6, the claim as stated, fails: in this position of play [O] has the
    moves [(0,1); (0,2); (0,4); (0,6); (0,7)], in enumeration order; the
    moves [(0,2)] and [(0,4)] both score the maximum [485], and the
    ['hard'] tier returns [(0,4)], which [orderMoves] puts first, and not
    [(0,2)], which [getAvailableMoves] lists first. *)
Lemma hard_tie_follows_orderMoves :
  ∃ state,
    playLegal INITIAL_GAME_STATE tiedGame = Some state
    ∧ reachable state
    ∧ currentPlayer state = O
    ∧ getAvailableMoves state = Ok [mv 0 1; mv 0 2; mv 0 4; mv 0 6; mv 0 7]
    ∧ moveScore state O <$> [mv 0 1; mv 0 2; mv 0 4; mv 0 6; mv 0 7]
      = [Ok (-499)%Z; Ok 485%Z; Ok 485%Z; Ok (-475)%Z; Ok (-475)%Z]
    ∧ orderMoves state [mv 0 1; mv 0 2; mv 0 4; mv 0 6; mv 0 7] O
      = Ok [mv 0 4; mv 0 2; mv 0 1; mv 0 6; mv 0 7]
    ∧ getBestMove (fun _ => 0%float) (fun _ => 0) state hard
      = Ok (Some (mv 0 4, Some (Fin 485))).
Proof.
  assert (currentPlayer <$> playLegal INITIAL_GAME_STATE tiedGame = Some O) as H1
    by (vm_compute; reflexivity).
  assert (getAvailableMoves <$> playLegal INITIAL_GAME_STATE tiedGame
          = Some (Ok [mv 0 1; mv 0 2; mv 0 4; mv 0 6; mv 0 7])) as H2
    by (vm_compute; reflexivity).
  assert ((fun s => moveScore s O <$> [mv 0 1; mv 0 2; mv 0 4; mv 0 6; mv 0 7])
          <$> playLegal INITIAL_GAME_STATE tiedGame
          = Some [Ok (-499)%Z; Ok 485%Z; Ok 485%Z; Ok (-475)%Z; Ok (-475)%Z]) as H3
    by (vm_compute; reflexivity).
  assert ((fun s => orderMoves s [mv 0 1; mv 0 2; mv 0 4; mv 0 6; mv 0 7] O)
          <$> playLegal INITIAL_GAME_STATE tiedGame
          = Some (Ok [mv 0 4; mv 0 2; mv 0 1; mv 0 6; mv 0 7])) as H4
    by (vm_compute; reflexivity).
  assert ((fun s => getBestMove (fun _ => 0%float) (fun _ => 0) s hard)
          <$> playLegal INITIAL_GAME_STATE tiedGame
          = Some (Ok (Some (mv 0 4, Some (Fin 485))))) as H5
    by (vm_compute; reflexivity).
  pose proof (playLegal_reachable INITIAL_GAME_STATE) as Hreach.
  specialize (fun s => Hreach s tiedGame (reachable_init None)).
  revert H1 H2 H3 H4 H5 Hreach. generalize (playLegal INITIAL_GAME_STATE tiedGame).
  intros [state|] H1 H2 H3 H4 H5 Hreach; [|discriminate H1].
  exists state.
  apply fmap_Some_eq in H1. apply fmap_Some_eq in H2. apply fmap_Some_eq in H3.
  apply fmap_Some_eq in H4. apply fmap_Some_eq in H5.
  split_and!; [reflexivity | by apply Hreach | exact H1 | exact H2 | exact H3
              | exact H4 | exact H5].
Qed.

(** C7, at a position of play where the code departs from the claim: [X]
    takes sub-board 0 with cell 2, the move is labelled [brilliant], and
    [bestMove] is filled in all the same. *)
Theorem analyzeMoveQuality_brilliant_has_bestMove :
  ∃ state,
    playLegal INITIAL_GAME_STATE openingGame = Some state
    ∧ reachable state
    ∧ isMoveValid state 0 2 = Ok true
    ∧ analyzeMoveQuality (fun _ => 0%float) (fun _ => 0) state (mv 0 2)
      = Ok {| classification := brilliant; score := 1050; bestMove := Some (mv 0 2) |}.
Proof.
  assert ((fun s => isMoveValid s 0 2) <$> playLegal INITIAL_GAME_STATE openingGame
          = Some (Ok true)) as H1
    by (vm_compute; reflexivity).
  assert ((fun s => analyzeMoveQuality (fun _ => 0%float) (fun _ => 0) s (mv 0 2))
          <$> playLegal INITIAL_GAME_STATE openingGame
          = Some (Ok {| classification := brilliant; score := 1050;
                        bestMove := Some (mv 0 2) |})) as H2
    by (vm_compute; reflexivity).
  pose proof (playLegal_reachable INITIAL_GAME_STATE) as Hreach.
  specialize (fun s => Hreach s openingGame (reachable_init None)).
  revert H1 H2 Hreach. generalize (playLegal INITIAL_GAME_STATE openingGame).
  intros [state|] H1 H2 Hreach; [|discriminate H1].
  exists state. apply fmap_Some_eq in H1. apply fmap_Some_eq in H2.
  split_and!; [reflexivity | by apply Hreach | exact H1 | exact H2].
Qed.

(** ** Move ordering *)

Lemma insertByScore_Permutation (item : Move * Z) (sorted : list (Move * Z)) :
  insertByScore item sorted ≡ₚ item :: sorted.
Proof.
  induction sorted as [|first rest IH]; simpl; [done|].
  destruct (item.2 <? first.2)%Z; [|done].
  rewrite IH. apply Permutation_swap.
Qed.

Lemma sortByScore_Permutation (items : list (Move * Z)) :
  sortByScore items ≡ₚ items.
Proof.
  induction items as [|item items IH]; simpl; [done|].
  rewrite insertByScore_Permutation. by rewrite IH.
Qed.

Lemma scoreMoves_fst (state : GameState) (player : Player) (moves : list Move)
    (items : list (Move * Z)) :
  scoreMoves state player moves = Ok items → items.*1 = moves.
Proof.
  revert items. induction moves as [|move rest IH]; intros items; simpl.
  - by intros [= <-].
  - intros H. apply bind_Ok in H as (z & Hz & H).
    apply bind_Ok in H as (tail & Htail & [= <-]).
    simpl. f_equal. by apply IH.
Qed.

Lemma orderMoves_Permutation (state : GameState) (moves ordered : list Move)
    (player : Player) :
  orderMoves state moves player = Ok ordered → ordered ≡ₚ moves.
Proof.
  unfold orderMoves. intros H. apply bind_Ok in H as (items & Hitems & [= <-]).
  rewrite sortByScore_Permutation. by rewrite (scoreMoves_fst _ _ _ _ Hitems).
Qed.

Lemma orderScore_Ok (state : GameState) (player : Player) (move : Move)
    (board : SmallBoardState) :
  wf_state state →
  boards state !! boardIndex move = Some board →
  cellIndex move < 9 →
  ∃ z, orderScore state player move = Ok z.
Proof.
  intros Hwf Hb Hc.
  destruct (wf_state_cells _ _ _ Hwf Hb) as [Hb9 Hcells].
  destruct Hwf as (Hlen & Hmac & _ & _).
  destruct (lookup_lt_is_Some_2 (boards state) (cellIndex move)) as [dest Hdest]; [lia|].
  unfold orderScore.
  rewrite js_set_in_range by lia. simpl.
  rewrite Hb. simpl.
  rewrite js_set_in_range by lia. simpl.
  rewrite Hdest. simpl. by eexists.
Qed.

Lemma scoreMoves_Ok (state : GameState) (player : Player) (moves : list Move) :
  (∀ move, move ∈ moves → ∃ z, orderScore state player move = Ok z) →
  ∃ items, scoreMoves state player moves = Ok items.
Proof.
  induction moves as [|move rest IH]; intros Hall; simpl; [by eexists|].
  destruct (Hall move) as [z ->]; [left|]. simpl.
  destruct IH as [items ->]; [intros m Hm; apply Hall; by right|].
  simpl. by eexists.
Qed.

Lemma orderMoves_Ok (state : GameState) (moves : list Move) (player : Player) :
  wf_state state →
  getAvailableMoves state = Ok moves →
  ∃ ordered, orderMoves state moves player = Ok ordered.
Proof.
  intros Hwf Hmoves. unfold orderMoves.
  destruct (scoreMoves_Ok state player moves) as [items ->]; [|simpl; by eexists].
  intros move Hin.
  destruct (getAvailableMoves_elem _ _ _ Hmoves Hin) as (_ & Hc & board & Hb & _ & _).
  by eapply orderScore_Ok.
Qed.

(** ** Scores of legal moves *)

Lemma evaluateBoards_Ok (bs : list SmallBoardState) (player opponent : Player)
    (idxs : list nat) (score : Z) :
  (∀ i, i ∈ idxs → i < length bs) →
  ∃ z, evaluateBoards bs player opponent idxs score = Ok z.
Proof.
  revert score. induction idxs as [|i rest IH]; intros score Hall; simpl; [by eexists|].
  destruct (lookup_lt_is_Some_2 bs i) as [board ->]; [apply Hall; left|]. simpl.
  apply IH. intros j Hj. apply Hall. by right.
Qed.

Lemma evaluateStateAdvanced_Ok (state : GameState) (player : Player) :
  wf_state state → ∃ z, evaluateStateAdvanced state player = Ok z.
Proof.
  intros (Hlen & _ & _ & Hact). unfold evaluateStateAdvanced.
  destruct (evaluateMacro _ _ _ _ _) as [z|score]; [by eexists|].
  destruct (evaluateBoards_Ok (boards state) player (opponentOf player) (seq 0 9) score)
    as [z ->].
  { intros i Hi%elem_of_seq. lia. }
  simpl. case_bool_decide; [|by eexists].
  destruct (activeBoard state) as [a|] eqn:Ea; [|by eexists].
  destruct (lookup_lt_is_Some_2 (boards state) a) as [target ->].
  { rewrite Hlen. by apply Hact. }
  simpl. destruct (canWinBoard _ _); by eexists.
Qed.

Lemma moveScore_Ok (state : GameState) (mover : Player) (moves : list Move) (move : Move) :
  wf_state state →
  getAvailableMoves state = Ok moves →
  move ∈ moves →
  ∃ z, moveScore state mover move = Ok z.
Proof.
  intros Hwf Hmoves Hin.
  destruct (getAvailableMoves_elem _ _ _ Hmoves Hin) as (_ & Hc & board & Hb & _ & _).
  destruct (makeMove_eq _ _ _ _ Hwf Hb Hc) as (target & _ & Heq).
  unfold moveScore.
  destruct (makeMove state (boardIndex move) (cellIndex move)) as [next|e] eqn:Hmove;
    [|by rewrite Heq in Hmove].
  simpl. apply evaluateStateAdvanced_Ok. by eapply wf_state_makeMove.
Qed.

(** ** The heuristic tier *)

Ltac num_crush :=
  unfold num_gtb, num_leb in *;
  repeat match goal with n : num |- _ => destruct n end;
  simpl in *; try done;
  rewrite ?negb_true_iff, ?negb_false_iff, ?Z.leb_le, ?Z.leb_gt in *;
  try done; try lia.

Lemma num_leb_Fin (a b : Z) : num_leb (Fin a) (Fin b) = true ↔ (a ≤ b)%Z.
Proof. unfold num_leb. apply Z.leb_le. Qed.

Lemma num_gtb_Fin (a b : Z) : num_gtb (Fin a) (Fin b) = true ↔ (b < a)%Z.
Proof. unfold num_gtb, num_leb. rewrite negb_true_iff. apply Z.leb_gt. Qed.

Lemma hardLoop_cons (state : GameState) (aiPlayer : Player) (move : Move)
    (rest : list Move) (bestScore : num) (bestMove : Move) :
  hardLoop state aiPlayer (move :: rest) bestScore bestMove =
  moveScore state aiPlayer move ≫= fun score =>
    if num_gtb (Fin score) bestScore
    then hardLoop state aiPlayer rest (Fin score) move
    else hardLoop state aiPlayer rest bestScore bestMove.
Proof.
  unfold moveScore. simpl.
  by destruct (makeMove state (boardIndex move) (cellIndex move)).
Qed.

Lemma hardLoop_Ok (state : GameState) (aiPlayer : Player) (ordered : list Move)
    (bestScore : num) (bestMove : Move) :
  (∀ m, m ∈ ordered → ∃ z, moveScore state aiPlayer m = Ok z) →
  ∃ r, hardLoop state aiPlayer ordered bestScore bestMove = Ok r.
Proof.
  revert bestScore bestMove.
  induction ordered as [|move rest IH]; intros bestScore bestMove Hall.
  - by eexists.
  - rewrite hardLoop_cons. destruct (Hall move) as [z ->]; [left|]. simpl.
    destruct (num_gtb (Fin z) bestScore); apply IH; intros m Hm; apply Hall; by right.
Qed.

(** What the loop of the ['hard'] tier returns: a score that bounds the
    score of every move of the list, and either the best so far unchanged,
    or a move of the list that scores strictly more than the best so far
    and than every move before it. *)
Lemma hardLoop_spec (state : GameState) (aiPlayer : Player) (ordered : list Move) :
  ∀ (bestScore : num) (bestMove : Move) (r : num * Move),
    hardLoop state aiPlayer ordered bestScore bestMove = Ok r →
    (∀ m, m ∈ ordered →
       ∃ z, moveScore state aiPlayer m = Ok z ∧ num_leb (Fin z) r.1 = true)
    ∧ num_leb bestScore r.1 = true
    ∧ (r = (bestScore, bestMove)
       ∨ ∃ before after z,
           ordered = before ++ r.2 :: after
           ∧ r.1 = Fin z
           ∧ moveScore state aiPlayer r.2 = Ok z
           ∧ num_gtb (Fin z) bestScore = true
           ∧ ∀ m, m ∈ before →
               ∃ zm, moveScore state aiPlayer m = Ok zm ∧ (zm < z)%Z).
Proof.
  induction ordered as [|move rest IH]; intros bestScore bestMove r H.
  - injection H as <-. simpl. split_and!.
    + by intros m ?%elem_of_nil.
    + by destruct bestScore; simpl; try apply Z.leb_refl.
    + by left.
  - rewrite hardLoop_cons in H. apply bind_Ok in H as (zx & Hzx & H).
    destruct (num_gtb (Fin zx) bestScore) eqn:Hgt.
    + destruct (IH _ _ _ H) as (Hall & Hle & Hcase). split_and!.
      * intros m [->|Hm]%elem_of_cons; [by exists zx | by apply Hall].
      * destruct r as [[] ?]; num_crush.
      * right. destruct Hcase as [-> | (before & after & z & -> & Hr & Hz & Hgt' & Hbefore)].
        -- exists [], rest, zx. simpl. split_and!; try done.
           by intros m ?%elem_of_nil.
        -- exists (move :: before), after, z. split_and!; try done.
           ++ apply num_gtb_Fin in Hgt'. destruct bestScore; num_crush.
           ++ intros m [->|Hm]%elem_of_cons; [|by apply Hbefore].
              exists zx. split; [done|]. by apply num_gtb_Fin.
    + destruct (IH _ _ _ H) as (Hall & Hle & Hcase). split_and!.
      * intros m [->|Hm]%elem_of_cons; [|by apply Hall].
        exists zx. split; [done|]. destruct r as [[] ?]; num_crush.
      * done.
      * destruct Hcase as [-> | (before & after & z & -> & Hr & Hz & Hgt' & Hbefore)];
          [by left|].
        right. exists (move :: before), after, z. split_and!; try done.
        intros m [->|Hm]%elem_of_cons; [|by apply Hbefore].
        exists zx. split; [done|]. destruct bestScore; num_crush.
Qed.

(** C6, amended.  On a state of nine sub-boards of nine cells with a legal
    move, the ['hard'] tier returns a move of maximal score
    [evaluate(apply(state, move), mover)] together with that score; among
    the moves of maximal score it is the first in the order of [orderMoves]
    (a permutation of the legal moves), not of [getAvailableMoves]. *)
Theorem hard_first_best_of_orderMoves (now : nat → float) (random_index : nat → nat)
    (state : GameState) (moves : list Move) :
  wf_state state →
  getAvailableMoves state = Ok moves →
  moves ≠ [] →
  ∃ ordered before move after sc,
    orderMoves state moves (currentPlayer state) = Ok ordered
    ∧ ordered ≡ₚ moves
    ∧ ordered = before ++ move :: after
    ∧ getBestMove now random_index state hard = Ok (Some (move, Some (Fin sc)))
    ∧ moveScore state (currentPlayer state) move = Ok sc
    ∧ (∀ m, m ∈ moves →
         ∃ z, moveScore state (currentPlayer state) m = Ok z ∧ (z ≤ sc)%Z)
    ∧ (∀ m, m ∈ before →
         ∃ z, moveScore state (currentPlayer state) m = Ok z ∧ (z < sc)%Z).
Proof.
  intros Hwf Hmoves Hne.
  destruct (orderMoves_Ok state moves (currentPlayer state) Hwf Hmoves) as [ordered Hord].
  pose proof (orderMoves_Permutation _ _ _ _ Hord) as Hperm.
  destruct moves as [|first rest]; [done|].
  destruct (hardLoop_Ok state (currentPlayer state) ordered NegInf first) as [r Hr].
  { intros m Hm. eapply moveScore_Ok; [done..|]. by rewrite <- Hperm. }
  destruct (hardLoop_spec _ _ _ _ _ _ Hr) as (Hall & _ & Hcase).
  assert (first ∈ ordered) as Hfirst by (rewrite Hperm; left).
  destruct Hcase as [-> | (before & after & z & Hsplit & Hr1 & Hz & _ & Hbefore)].
  { destruct (Hall first Hfirst) as (z & _ & Hz). done. }
  exists ordered, before, r.2, after, z. split_and!; try done.
  - unfold getBestMove. rewrite Hmoves. simpl. rewrite Hord. simpl.
    rewrite Hr. simpl. destruct r as [r1 r2]. simpl in *. by subst r1.
  - intros m Hm. rewrite <- Hperm in Hm.
    destruct (Hall m Hm) as (zm & Hzm & Hle). exists zm. split; [done|].
    rewrite Hr1 in Hle. by apply num_leb_Fin.
Qed.

Lemma hard_first_best_of_orderMoves_witness :
  wf_state replyState
  ∧ getAvailableMoves replyState = Ok (mv 0 <$> seq 0 9)
  ∧ mv 0 <$> seq 0 9 ≠ []
  ∧ ∃ ordered before move after sc,
      orderMoves replyState (mv 0 <$> seq 0 9) (currentPlayer replyState) = Ok ordered
      ∧ ordered ≡ₚ mv 0 <$> seq 0 9
      ∧ ordered = before ++ move :: after
      ∧ getBestMove (fun _ => 0%float) (fun _ => 0) replyState hard
        = Ok (Some (move, Some (Fin sc)))
      ∧ moveScore replyState (currentPlayer replyState) move = Ok sc
      ∧ (∀ m, m ∈ mv 0 <$> seq 0 9 →
           ∃ z, moveScore replyState (currentPlayer replyState) m = Ok z ∧ (z ≤ sc)%Z)
      ∧ (∀ m, m ∈ before →
           ∃ z, moveScore replyState (currentPlayer replyState) m = Ok z ∧ (z < sc)%Z).
Proof.
  assert (wf_state replyState) as Hwf.
  { vm_compute. split_and!; try reflexivity.
    - repeat constructor.
    - intros a [= <-]. lia. }
  split; [exact Hwf|]. split; [vm_compute; reflexivity|]. split; [discriminate|].
  apply (hard_first_best_of_orderMoves (fun _ => 0%float) (fun _ => 0)
           replyState (mv 0 <$> seq 0 9)).
  - exact Hwf.
  - vm_compute. reflexivity.
  - discriminate.
Defined.

(** ** The search tiers *)

Lemma mediumWin_elem (state : GameState) (aiPlayer : Player) (moves : list Move)
    (move : Move) :
  mediumWin state aiPlayer moves = Ok (Some move) → move ∈ moves.
Proof.
  induction moves as [|m rest IH]; simpl; [done|].
  intros H. apply bind_Ok in H as (sim & _ & H).
  apply bind_Ok in H as (board & _ & H).
  case_bool_decide.
  - injection H as <-. left.
  - right. by apply IH.
Qed.

Lemma mediumBlock_elem (state : GameState) (opponent : Player) (moves : list Move)
    (move : Move) :
  mediumBlock state opponent moves = Ok (Some move) → move ∈ moves.
Proof.
  induction moves as [|m rest IH]; simpl; [done|].
  intros H. apply bind_Ok in H as (board & _ & H).
  apply bind_Ok in H as (clone & _ & H).
  case_bool_decide.
  - injection H as <-. left.
  - right. by apply IH.
Qed.

Section SearchProperties.

Variable now : nat → float.
Variable random_index : nat → nat.

(** [Math.random()] is below 1, so the index drawn is below the length. *)
Hypothesis random_index_lt : ∀ n, 0 < n → random_index n < n.

Lemma randomMove_elem (moves : list Move) (move : Move) (sc : option num) :
  randomMove random_index moves = Some (move, sc) → move ∈ moves.
Proof.
  unfold randomMove. intros H.
  destruct (moves !! random_index (length moves)) as [m|] eqn:E; [|done].
  injection H as <- _. by eapply list_elem_of_lookup_2.
Qed.

Lemma randomMove_Some (moves : list Move) :
  moves ≠ [] → ∃ move, randomMove random_index moves = Some (move, None).
Proof.
  intros Hne. unfold randomMove.
  destruct (lookup_lt_is_Some_2 moves (random_index (length moves))) as [m ->].
  - apply random_index_lt. destruct moves; [done | simpl; lia].
  - by exists m.
Qed.

Lemma rootLoop_move (state : GameState) (depth : nat) (aiPlayer : Player)
    (startTime : float) (sortedMoves : list Move) :
  ∀ alpha beta currentBestScore currentBestMove k sc r k',
    rootLoop now state depth aiPlayer startTime sortedMoves alpha beta
      currentBestScore currentBestMove k = Ok ((sc, r), k') →
    r = currentBestMove ∨ ∃ m, r = Some m ∧ m ∈ sortedMoves.
Proof.
  induction sortedMoves as [|move rest IH];
    intros alpha beta cbs cbm k sc r k' H; simpl in H.
  - injection H as _ <- _. by left.
  - unfold tbind, tlift in H.
    destruct (makeMove state (boardIndex move) (cellIndex move)) as [next|]; [|done].
    destruct (minimax now (depth - 1) next alpha beta false aiPlayer startTime k)
      as [[score k1]|]; [|done].
    destruct (num_gtb score cbs).
    + destruct (num_leb beta (num_max alpha score)).
      * injection H as _ <- _. right. exists move. split; [done | left].
      * destruct (IH _ _ _ _ _ _ _ _ H) as [-> | (m & -> & Hm)].
        -- right. exists move. split; [done | left].
        -- right. exists m. split; [done | by right].
    + destruct (num_leb beta (num_max alpha score)).
      * injection H as _ <- _. by left.
      * destruct (IH _ _ _ _ _ _ _ _ H) as [-> | (m & -> & Hm)]; [by left|].
        right. exists m. split; [done | by right].
Qed.

Lemma searchDepth_Completed (state : GameState) (depth : nat) (aiPlayer : Player)
    (startTime : float) (sortedMoves : list Move) (k k' : nat) (sc : num) (r : option Move) :
  sortedMoves ≠ [] →
  searchDepth now state depth aiPlayer startTime sortedMoves k = Ok (Completed sc r, k') →
  ∃ m, r = Some m ∧ m ∈ sortedMoves.
Proof.
  intros Hne. unfold searchDepth, tbind, performance_now, tret.
  destruct (overBudget _ _); [done|].
  destruct (rootLoop _ _ _ _ _ _ _ _ _ _ _) as [[[sc' r'] k1]|] eqn:E; [|done].
  simpl. intros [= <- <- _].
  destruct (rootLoop_move _ _ _ _ _ _ _ _ _ _ _ _ _ E) as [-> | Hin]; [|done].
  destruct sortedMoves as [|m rest]; [done|]. simpl.
  exists m. split; [done | left].
Qed.

(** The move the deepening loop ends with is the one it started with, or
    one of the moves searched. *)
Lemma deepen_move (state : GameState) (aiPlayer : Player) (startTime : float)
    (remaining : nat) :
  ∀ depth sortedMoves bestScore bestMove k sc r,
    sortedMoves ≠ [] →
    deepen now remaining state depth aiPlayer startTime sortedMoves bestScore bestMove k
    = (sc, r) →
    r = bestMove ∨ ∃ m, r = Some m ∧ m ∈ sortedMoves.
Proof.
  induction remaining as [|remaining IH];
    intros depth sortedMoves bestScore bestMove k sc r Hne H; simpl in H.
  - injection H as _ <-. by left.
  - destruct (searchDepth now state depth aiPlayer startTime sortedMoves k)
      as [[[|cs cm] k']|] eqn:E.
    + injection H as _ <-. by left.
    + destruct (searchDepth_Completed _ _ _ _ _ _ _ _ _ Hne E) as (top & -> & Htop).
      apply IH in H; [|done]. destruct H as [-> | (m & -> & Hm)].
      * right. by exists top.
      * right. exists m. split; [done|].
        apply elem_of_cons in Hm as [-> | Hm]; [done|].
        by apply list_elem_of_filter in Hm as [_ Hm].
    + injection H as _ <-. by left.
Qed.

Lemma getImpossibleMove_move (state : GameState) (first : Move) (rest : list Move)
    (r : option Move) (sc : num) :
  getImpossibleMove now state (first :: rest) = Ok (r, sc) →
  ∃ m, r = Some m ∧ m ∈ first :: rest.
Proof.
  unfold getImpossibleMove. intros H.
  apply bind_Ok in H as (sorted & Hsorted & H).
  apply orderMoves_Permutation in Hsorted.
  destruct (deepen _ _ _ _ _ _ _ _ _ _) as [bs bm] eqn:E.
  injection H as <- <-.
  assert (sorted ≠ []) as Hne.
  { intros ->. by apply Permutation_nil_l in Hsorted. }
  destruct (deepen_move _ _ _ _ _ _ _ _ _ _ _ Hne E) as [-> | (m & -> & Hm)].
  - exists first. split; [done | left].
  - exists m. split; [done|]. by rewrite <- Hsorted.
Qed.

(** The time spent is rounded as the code rounds it: the doubles nearest to
    [0.2] and [1500.2] differ by a little more than [1500], their
    difference as a double is [1500], and that is within budget. *)
Example overBudget_double_difference :
  overBudget 0x1.770cccccccccdp+10%float 0x1.999999999999ap-3%float = false
  ∧ PrimFloat.sub 0x1.770cccccccccdp+10%float 0x1.999999999999ap-3%float = 1500%float.
Proof. split; vm_compute; reflexivity. Qed.

(** With the budget used up at the first check, the first legal move
    comes back. *)
Lemma getImpossibleMove_timeout (state : GameState) (first : Move) (rest sorted : list Move) :
  orderMoves state (first :: rest) (currentPlayer state) = Ok sorted →
  overBudget (now 1) (now 0) = true →
  getImpossibleMove now state (first :: rest) = Ok (Some first, NegInf).
Proof.
  intros Hsorted Hlate. unfold getImpossibleMove. rewrite Hsorted. simpl.
  unfold searchDepth, tbind, performance_now.
  by rewrite Hlate.
Qed.

(** C10. Whatever the tier, the clock and the random draw, a move that
    [getBestMove] returns is one of [getAvailableMoves]. *)
Theorem getBestMove_legal (state : GameState) (difficulty : Difficulty)
    (moves : list Move) (move : Move) (sc : option num) :
  getAvailableMoves state = Ok moves →
  getBestMove now random_index state difficulty = Ok (Some (move, sc)) →
  move ∈ moves.
Proof.
  intros Hmoves H. unfold getBestMove in H. rewrite Hmoves in H. simpl in H.
  destruct moves as [|first rest]; [done|].
  destruct difficulty.
  - injection H as H. by eapply randomMove_elem.
  - apply bind_Ok in H as ([win|] & Hwin & H).
    + injection H as <- _. by eapply mediumWin_elem.
    + apply bind_Ok in H as ([block|] & Hblock & H).
      * injection H as <- _. by eapply mediumBlock_elem.
      * injection H as H. by eapply randomMove_elem.
  - apply bind_Ok in H as (ordered & Hord & H).
    apply bind_Ok in H as ([bs bm] & Hloop & H). injection H as <- _.
    apply orderMoves_Permutation in Hord.
    destruct (hardLoop_spec _ _ _ _ _ _ Hloop) as (_ & _ & Hcase).
    destruct Hcase as [[= _ ->] | (before & after & z & Hsplit & _)]; [left|].
    simpl in Hsplit. rewrite <- Hord, Hsplit.
    apply elem_of_app. right. left.
  - apply bind_Ok in H as ([bm bs] & Himp & H).
    destruct (getImpossibleMove_move _ _ _ _ _ Himp) as (m & -> & Hm).
    simpl in H. by injection H as <- _.
  - injection H as <- _. left.
Qed.

(** C8. [getBestMove] returns [null], and no error, exactly when there is no
    legal move.  On a state of nine sub-boards of nine cells with a legal
    move the ['impossible'] tier returns a legal move whatever the clock
    says; when the first check of the budget, made on the doubles [now 1]
    and [now 0] as the code makes it, finds it used up before any depth is
    searched, it is the first legal move. *)
Theorem getBestMove_null_iff_no_moves (state : GameState) (moves : list Move) :
  getAvailableMoves state = Ok moves →
  (∀ difficulty,
      getBestMove now random_index state difficulty = Ok None ↔ moves = [])
  ∧ (wf_state state →
     ∀ first rest, moves = first :: rest →
       (∃ move sc,
           getBestMove now random_index state impossible = Ok (Some (move, sc))
           ∧ move ∈ moves)
       ∧ (overBudget (now 1) (now 0) = true →
          getBestMove now random_index state impossible
          = Ok (Some (first, Some NegInf)))).
Proof.
  intros Hmoves. split.
  - intros difficulty. unfold getBestMove. rewrite Hmoves. simpl.
    destruct moves as [|first rest]; [done|]. split; [|done].
    intros H. exfalso.
    destruct (randomMove_Some (first :: rest)) as [rm Hrm]; [done|].
    destruct difficulty.
    + rewrite Hrm in H. done.
    + apply bind_Ok in H as ([win|] & _ & H); [done|].
      apply bind_Ok in H as ([block|] & _ & H); [done|].
      rewrite Hrm in H. done.
    + apply bind_Ok in H as (ordered & _ & H).
      by apply bind_Ok in H as ([bs bm] & _ & H).
    + apply bind_Ok in H as ([bm bs] & Himp & H).
      by destruct (getImpossibleMove_move _ _ _ _ _ Himp) as (m & -> & _).
    + done.
  - intros Hwf first rest ->.
    destruct (orderMoves_Ok state (first :: rest) (currentPlayer state) Hwf Hmoves)
      as [sorted Hsorted].
    split.
    + destruct (getImpossibleMove now state (first :: rest)) as [[bm bs]|e] eqn:Himp.
      * destruct (getImpossibleMove_move _ _ _ _ _ Himp) as (m & -> & Hm).
        exists m, (Some bs). split; [|done].
        unfold getBestMove. rewrite Hmoves. simpl. by rewrite Himp.
      * unfold getImpossibleMove in Himp. rewrite Hsorted in Himp.
        unfold mbind, result_bind in Himp. cbv beta iota in Himp.
        by destruct (deepen _ _ _ _ _ _ _ _ _ _).
    + intros Hlate. unfold getBestMove. rewrite Hmoves. simpl.
      by rewrite (getImpossibleMove_timeout _ _ _ _ Hsorted Hlate).
Qed.

End SearchProperties.

Lemma getBestMove_legal_witness :
  getAvailableMoves replyState = Ok (mv 0 <$> seq 0 9)
  ∧ getBestMove (fun _ => 0%float) (fun _ => 0) replyState hard
    = Ok (Some (mv 0 4, Some (Fin 57)))
  ∧ mv 0 4 ∈ mv 0 <$> seq 0 9.
Proof.
  split; [vm_compute; reflexivity|]. split; [vm_compute; reflexivity|].
  apply (getBestMove_legal (fun _ => 0%float) (fun _ => 0) replyState hard
           (mv 0 <$> seq 0 9) (mv 0 4) (Some (Fin 57))).
  - vm_compute; reflexivity.
  - vm_compute; reflexivity.
Defined.

Lemma getBestMove_null_iff_no_moves_witness :
  (∀ n, 0 < n → (fun _ : nat => 0) n < n)
  ∧ getAvailableMoves replyState = Ok (mv 0 <$> seq 0 9)
  ∧ wf_state replyState
  ∧ overBudget (msec (2000 * Z.of_nat 1)) (msec (2000 * Z.of_nat 0)) = true
  ∧ (∀ difficulty,
        getBestMove (fun k => msec (2000 * Z.of_nat k)) (fun _ => 0) replyState difficulty
        = Ok None
        ↔ mv 0 <$> seq 0 9 = [])
  ∧ (∃ move sc,
        getBestMove (fun k => msec (2000 * Z.of_nat k)) (fun _ => 0) replyState impossible
        = Ok (Some (move, sc))
        ∧ move ∈ mv 0 <$> seq 0 9)
  ∧ getBestMove (fun k => msec (2000 * Z.of_nat k)) (fun _ => 0) replyState impossible
    = Ok (Some (mv 0 0, Some NegInf)).
Proof.
  assert (getAvailableMoves replyState = Ok (mv 0 <$> seq 0 9)) as Hmoves
    by (vm_compute; reflexivity).
  assert (wf_state replyState) as Hwf.
  { apply reachable_wf.
    apply (playLegal_reachable INITIAL_GAME_STATE _ [(4, 4); (4, 0)] (reachable_init None)).
    vm_compute. reflexivity. }
  assert (overBudget (msec (2000 * Z.of_nat 1)) (msec (2000 * Z.of_nat 0)) = true) as Hlate
    by (vm_compute; reflexivity).
  split; [intros n Hn; exact Hn|]. split; [exact Hmoves|]. split; [exact Hwf|].
  split; [exact Hlate|].
  destruct (getBestMove_null_iff_no_moves (fun k => msec (2000 * Z.of_nat k)) (fun _ => 0)
              (fun n Hn => Hn) replyState (mv 0 <$> seq 0 9) Hmoves) as [Hnull Hmove].
  split; [exact Hnull|].
  destruct (Hmove Hwf (mv 0 0) (fmap (M := list) (mv 0) (seq 1 8)) eq_refl)
    as [Hsome Hfirst].
  split; [exact Hsome | exact (Hfirst Hlate)].
Defined.


(** * Further properties of the rules engine *)

Lemma makeMove_log (state state' : GameState) (b c : nat) :
  makeMove state b c = Ok state' →
  history state' = history state
                   ++ [ {| h_boardIndex := b; h_cellIndex := c;
                           h_player := currentPlayer state |} ]
  ∧ difficulty state' = difficulty state
  ∧ currentPlayer state' = opponentOf (currentPlayer state)
  ∧ lastMove state' = Some (mv b c).
Proof.
  unfold makeMove. intros H.
  apply bind_Ok in H as (board & _ & H).
  apply bind_Ok in H as (newCells & _ & H).
  apply bind_Ok in H as (newMacro & _ & H).
  apply bind_Ok in H as (target & _ & H).
  by injection H as <-.
Qed.

Lemma playerOfTurn_S (k : nat) : playerOfTurn (S k) = opponentOf (playerOfTurn k).
Proof.
  unfold playerOfTurn. rewrite Nat.even_succ, <- Nat.negb_even.
  by destruct (Nat.even k).
Qed.

(** X1. The move log is the source of truth: replaying the log of a state
    of play, with its difficulty, gives that state back. *)
Theorem reachable_replay_history (state : GameState) :
  reachable state →
  reconstructGameState (history state) (difficulty state) = Ok state.
Proof.
  induction 1 as [d | s s' b c Hr IH Hlegal Hmove].
  - reflexivity.
  - destruct (makeMove_log _ _ _ _ Hmove) as (Hh & Hd & _ & _).
    rewrite Hh, Hd. unfold reconstructGameState in *.
    rewrite replayFrom_app, IH. simpl. by rewrite Hmove.
Qed.

Lemma reachable_replay_history_witness :
  reachable (stateAfter openingGame)
  ∧ reconstructGameState (history (stateAfter openingGame))
      (difficulty (stateAfter openingGame))
    = Ok (stateAfter openingGame).
Proof.
  assert (reachable (stateAfter openingGame)) as Hr.
  { apply (playLegal_reachable INITIAL_GAME_STATE _ openingGame (reachable_init None)).
    vm_compute. reflexivity. }
  split; [exact Hr|].
  apply (reachable_replay_history (stateAfter openingGame) Hr).
Defined.

(** X2. Turns alternate from [X]: in a state of play the player to move is
    determined by the number of moves played, the [k]-th entry of the log
    carries the player of turn [k], and [lastMove] is the last entry of the
    log ([null] exactly when the log is empty). *)
Theorem reachable_turns (state : GameState) :
  reachable state →
  currentPlayer state = playerOfTurn (length (history state))
  ∧ (∀ k move, history state !! k = Some move → h_player move = playerOfTurn k)
  ∧ lastMove state
    = (fun move => mv (h_boardIndex move) (h_cellIndex move))
        <$> head (reverse (history state)).
Proof.
  induction 1 as [d | s s' b c Hr (IHp & IHh & IHl) Hlegal Hmove].
  - split_and!; try reflexivity. intros k move Hk. by destruct k.
  - destruct (makeMove_log _ _ _ _ Hmove) as (Hh & _ & Hp & Hl).
    rewrite Hh, Hp, Hl. split_and!.
    + rewrite length_app. simpl. rewrite Nat.add_1_r, playerOfTurn_S. by rewrite IHp.
    + intros k move Hk. apply lookup_app_Some in Hk as [Hk | [Hlen Hk]].
      * by apply IHh.
      * apply list_lookup_singleton_Some in Hk as [Hk0 <-]. simpl.
        rewrite IHp. f_equal. lia.
    + by rewrite reverse_app.
Qed.

Lemma reachable_turns_witness :
  reachable (stateAfter openingGame)
  ∧ currentPlayer (stateAfter openingGame)
    = playerOfTurn (length (history (stateAfter openingGame))).
Proof.
  assert (reachable (stateAfter openingGame)) as Hr.
  { apply (playLegal_reachable INITIAL_GAME_STATE _ openingGame (reachable_init None)).
    vm_compute. reflexivity. }
  split; [exact Hr|].
  apply (reachable_turns (stateAfter openingGame) Hr).
Defined.

(** A legal move on a state of nine sub-boards of nine cells: what it finds
    and what it leaves. *)
Lemma legal_move_boards (state : GameState) (b c : nat) :
  wf_state state →
  isMoveValid state b c = Ok true →
  ∃ board state',
    boards state !! b = Some board
    ∧ winner board = None
    ∧ cells board !! c = Some None
    ∧ b < 9 ∧ c < 9
    ∧ makeMove state b c = Ok state'
    ∧ wf_state state'
    ∧ boards state' = <[b := placed (currentPlayer state) board c]> (boards state)
    ∧ macroBoard state' = macroAfter state board b c.
Proof.
  intros Hwf Hlegal.
  destruct (isMoveValid_true _ _ _ Hlegal) as (_ & _ & board & Hb & Hw & Hcell).
  destruct (wf_state_cells _ _ _ Hwf Hb) as [Hb9 Hlen].
  assert (c < 9) as Hc by (rewrite <- Hlen; by eapply lookup_lt_Some).
  destruct (makeMove_eq _ _ _ _ Hwf Hb Hc) as (target & _ & Heq).
  eexists board, _. split_and!; try done.
  by eapply wf_state_makeMove.
Qed.

Lemma legal_move_other_cells (state state' : GameState) (b c : nat) :
  wf_state state →
  isMoveValid state b c = Ok true →
  makeMove state b c = Ok state' →
  ∀ i j, (i, j) ≠ (b, c) → cellAt state' i j = cellAt state i j.
Proof.
  intros Hwf Hlegal Hmove.
  destruct (legal_move_boards _ _ _ Hwf Hlegal)
    as (board & s' & Hb & Hw & Hcell & Hb9 & Hc9 & Hmove' & _ & Hboards & _).
  assert (s' = state') as -> by congruence.
  destruct Hwf as (Hlen9 & _).
  unfold cellAt. rewrite Hboards.
  intros i j Hne. destruct (decide (i = b)) as [->|Hib].
  - rewrite list_lookup_insert_eq by lia. rewrite Hb. simpl.
    rewrite list_lookup_insert_ne; [done|]. congruence.
  - by rewrite list_lookup_insert_ne.
Qed.

(** X3. A legal move marks the cell played, which was empty, with the mark
    of the player to move, and changes no other cell of any sub-board. *)
Theorem makeMove_marks_one_cell (state state' : GameState) (b c : nat) :
  wf_state state →
  isMoveValid state b c = Ok true →
  makeMove state b c = Ok state' →
  cellAt state b c = Some None
  ∧ cellAt state' b c = Some (Some (currentPlayer state))
  ∧ ∀ i j, (i, j) ≠ (b, c) → cellAt state' i j = cellAt state i j.
Proof.
  intros Hwf Hlegal Hmove.
  destruct (legal_move_boards _ _ _ Hwf Hlegal)
    as (board & s' & Hb & Hw & Hcell & Hb9 & Hc9 & Hmove' & _ & Hboards & _).
  assert (s' = state') as -> by congruence.
  destruct (wf_state_cells _ _ _ Hwf Hb) as [_ Hlen].
  pose proof Hwf as (Hlen9 & _).
  split_and!.
  - unfold cellAt. by rewrite Hb.
  - unfold cellAt. rewrite Hboards.
    rewrite list_lookup_insert_eq by lia. simpl.
    by rewrite list_lookup_insert_eq by lia.
  - by apply (legal_move_other_cells state state' b c).
Qed.

Lemma makeMove_marks_one_cell_witness :
  wf_state INITIAL_GAME_STATE
  ∧ isMoveValid INITIAL_GAME_STATE 4 4 = Ok true
  ∧ makeMove INITIAL_GAME_STATE 4 4 = Ok (stateAfter [(4, 4)])
  ∧ cellAt (stateAfter [(4, 4)]) 4 4 = Some (Some X).
Proof.
  split; [exact (wf_state_initial None)|]. split; [reflexivity|]. split; [reflexivity|].
  apply (makeMove_marks_one_cell INITIAL_GAME_STATE (stateAfter [(4, 4)]) 4 4
           (wf_state_initial None) eq_refl eq_refl).
Defined.

(** X4. Along legal play nothing is taken back: a marked cell keeps its
    mark, a decided sub-board stays as it is, cells and outcome, and a
    decided game has no legal continuation. *)
Theorem playLegal_monotone (state state' : GameState) (moves : list (nat * nat)) :
  wf_state state →
  playLegal state moves = Some state' →
  (∀ i j p, cellAt state i j = Some (Some p) → cellAt state' i j = Some (Some p))
  ∧ (∀ i board, boards state !! i = Some board → winner board ≠ None →
       boards state' !! i = Some board)
  ∧ (state_winner state ≠ None → state' = state ∧ moves = []).
Proof.
  revert state. induction moves as [|[b c] rest IH]; intros state Hwf Hplay.
  - injection Hplay as <-. by split_and!.
  - simpl in Hplay.
    destruct (isMoveValid state b c) as [[|]|] eqn:Hlegal; try done.
    destruct (makeMove state b c) as [next|] eqn:Hmove; try done.
    destruct (legal_move_boards _ _ _ Hwf Hlegal)
      as (board & s' & Hb & Hw & Hcell & Hb9 & Hc9 & Hmove' & Hwf' & Hboards & _).
    assert (s' = next) as -> by congruence.
    destruct (IH next Hwf' Hplay) as (IHcells & IHboards & _).
    pose proof (legal_move_other_cells _ _ _ _ Hwf Hlegal Hmove) as Hother.
    split_and!.
    + intros i j p Hp. apply IHcells. rewrite Hother; [done|].
      intros [= -> ->]. unfold cellAt in Hp. rewrite Hb in Hp. simpl in Hp. congruence.
    + intros i bd Hi Hdec. apply IHboards; [|done].
      rewrite Hboards. rewrite list_lookup_insert_ne; [done|].
      intros ->. congruence.
    + intros Hover. by destruct (isMoveValid_true _ _ _ Hlegal) as (Hnone & _).
Qed.

Lemma playLegal_monotone_witness :
  wf_state (stateAfter tiedGame)
  ∧ playLegal (stateAfter tiedGame) [(0, 4)] = Some (stateAfter (tiedGame ++ [(0, 4)]))
  ∧ cellAt (stateAfter (tiedGame ++ [(0, 4)])) 0 0 = Some (Some X).
Proof.
  assert (wf_state (stateAfter tiedGame)) as Hwf.
  { apply reachable_wf.
    apply (playLegal_reachable INITIAL_GAME_STATE _ tiedGame (reachable_init None)).
    vm_compute. reflexivity. }
  assert (playLegal (stateAfter tiedGame) [(0, 4)]
          = Some (stateAfter (tiedGame ++ [(0, 4)]))) as Hplay
    by (vm_compute; reflexivity).
  split; [exact Hwf|]. split; [exact Hplay|].
  apply (playLegal_monotone _ _ _ Hwf Hplay).
  vm_compute. reflexivity.
Defined.

(** X5. On a state of nine sub-boards of nine cells, [isMoveValid] accepts
    exactly the moves that [getAvailableMoves] lists, as long as the game is
    not decided; once it is decided [isMoveValid] accepts none, whatever the
    list holds. *)
Theorem isMoveValid_iff_available (state : GameState) (moves : list Move) (b c : nat) :
  wf_state state →
  getAvailableMoves state = Ok moves →
  isMoveValid state b c = Ok true ↔ state_winner state = None ∧ mv b c ∈ moves.
Proof.
  intros Hwf Hmoves. split.
  - intros Hlegal.
    destruct (isMoveValid_true _ _ _ Hlegal) as (Hnone & Hact & board & Hb & Hw & Hcell).
    split; [done|].
    destruct (wf_state_cells _ _ _ Hwf Hb) as [Hb9 Hlen].
    unfold getAvailableMoves in Hmoves.
    apply (collectMoves_elem _ _ _ (mv b c) Hmoves). unfold mv. cbn [boardIndex cellIndex]. split.
    + destruct Hact as [-> | ->]; [|by apply list_elem_of_singleton].
      apply elem_of_seq. lia.
    + exists board. split_and!; try done. rewrite <- Hlen. by eapply lookup_lt_Some.
  - intros [Hnone Hin].
    destruct (getAvailableMoves_elem _ _ _ Hmoves Hin) as (Hact & _ & board & Hb & Hw & Hcell).
    unfold mv in *. cbn [boardIndex cellIndex] in *.
    unfold isMoveValid. rewrite Hnone.
    rewrite bool_decide_eq_false_2 by (by intros ?).
    rewrite bool_decide_eq_false_2; [|by destruct Hact as [-> | ->]; intros []].
    rewrite Hb. simpl. rewrite Hw, Hcell.
    rewrite bool_decide_eq_false_2 by (by intros ?).
    by rewrite bool_decide_eq_false_2 by (by intros ?).
Qed.

Lemma isMoveValid_iff_available_witness :
  wf_state replyState
  ∧ getAvailableMoves replyState = Ok (mv 0 <$> seq 0 9)
  ∧ (isMoveValid replyState 0 4 = Ok true
     ↔ state_winner replyState = None ∧ mv 0 4 ∈ mv 0 <$> seq 0 9).
Proof.
  assert (wf_state replyState) as Hwf.
  { apply reachable_wf.
    apply (playLegal_reachable INITIAL_GAME_STATE _ [(4, 4); (4, 0)] (reachable_init None)).
    vm_compute. reflexivity. }
  split; [exact Hwf|]. split; [vm_compute; reflexivity|].
  apply (isMoveValid_iff_available replyState (mv 0 <$> seq 0 9) 0 4 Hwf).
  vm_compute. reflexivity.
Defined.

Lemma emptyCells_sorted (bIdx : nat) (board : SmallBoardState) :
  StronglySorted moveLt (emptyCells bIdx board).
Proof.
  unfold emptyCells.
  assert (StronglySorted lt (seq 0 9)) as Hseq.
  { simpl. repeat (constructor; [|repeat constructor; lia]). constructor. }
  induction Hseq as [|c rest Hrest IH Hall]; simpl; [constructor|].
  case_bool_decide; [|done]. constructor; [done|].
  apply Forall_forall. intros m Hm.
  apply list_elem_of_omap in Hm as (c' & Hc' & Hm).
  case_bool_decide; [|done]. injection Hm as <-.
  right. simpl. split; [done|].
  rewrite Forall_forall in Hall. by apply Hall.
Qed.

Lemma collectMoves_sorted (bs : list SmallBoardState) (boardsToCheck : list nat)
    (moves : list Move) :
  StronglySorted lt boardsToCheck →
  collectMoves bs boardsToCheck = Ok moves →
  StronglySorted moveLt moves.
Proof.
  intros Hsorted. revert moves.
  induction Hsorted as [|bIdx rest Hrest IH Hall]; intros moves; simpl.
  - intros [= <-]. constructor.
  - intros H. apply bind_Ok in H as (board & Hb%prop_Ok & H).
    apply bind_Ok in H as (tail & Htail & [= <-]).
    apply StronglySorted_app_2.
    + intros m1 m2 Hm1 Hm2. left.
      assert (boardIndex m1 = bIdx) as ->.
      { case_bool_decide; [by apply elem_of_nil in Hm1|].
        by apply emptyCells_elem in Hm1 as (-> & _). }
      apply (collectMoves_elem _ _ _ m2 Htail) in Hm2 as (Hin & _).
      rewrite Forall_forall in Hall. by apply Hall.
    + case_bool_decide; [constructor | apply emptyCells_sorted].
    + by apply IH.
Qed.

(** X6. [getAvailableMoves] lists the moves in strictly ascending order of
    sub-board index, then cell index; no move is listed twice. *)
Theorem getAvailableMoves_sorted (state : GameState) (moves : list Move) :
  getAvailableMoves state = Ok moves →
  StronglySorted moveLt moves ∧ NoDup moves.
Proof.
  intros Hmoves.
  assert (StronglySorted moveLt moves) as Hsorted.
  { unfold getAvailableMoves in Hmoves.
    eapply collectMoves_sorted; [|exact Hmoves].
    destruct (activeBoard state); [repeat constructor|].
    simpl. repeat (constructor; [|repeat constructor; lia]). constructor. }
  split; [done|]. clear Hmoves.
  induction Hsorted as [|m rest Hrest IH Hall]; constructor.
  - intros Hin. rewrite Forall_forall in Hall.
    destruct (Hall m Hin) as [? | [_ ?]]; lia.
  - done.
Qed.

Lemma getAvailableMoves_sorted_witness :
  getAvailableMoves replyState = Ok (mv 0 <$> seq 0 9)
  ∧ StronglySorted moveLt (mv 0 <$> seq 0 9)
  ∧ NoDup (mv 0 <$> seq 0 9).
Proof.
  split; [vm_compute; reflexivity|].
  apply (getAvailableMoves_sorted replyState (mv 0 <$> seq 0 9)).
  vm_compute. reflexivity.
Defined.

Lemma allFilled_cellValue (cs : list (option Player)) :
  allFilled (cellValue <$> cs) = allFilled cs.
Proof.
  unfold allFilled. induction cs as [|[p|] cs IH]; [done| |done].
  exact IH.
Qed.

(** X7. [checkBoardWinner] reports nothing it does not see: a value other
    than [Draw] comes with a completed line of that value, [null] with an
    empty cell; and on the cells of a sub-board [Draw] means that every cell
    is marked and no line is completed. *)
Theorem checkBoardWinner_sound (grid : list Winner) (cs : list (option Player)) :
  (∀ v, checkBoardWinner grid = Some v →
     (∃ pattern, pattern ∈ WINNING_PATTERNS ∧ completed grid pattern v)
     ∨ (v = Draw ∧ Forall (fun c => c ≠ None) grid))
  ∧ (checkBoardWinner grid = None → ∃ i, grid !! i = Some None)
  ∧ (checkBoardWinner (cellValue <$> cs) = Some Draw →
     Forall (fun c => c ≠ None) cs
     ∧ ∀ pattern v, pattern ∈ WINNING_PATTERNS →
         ¬ completed (cellValue <$> cs) pattern v).
Proof.
  split_and!.
  - intros v. unfold checkBoardWinner.
    destruct (firstLine grid WINNING_PATTERNS) as [w|] eqn:E.
    + intros [= <-]. left.
      apply firstLine_Some in E as (pre & pattern & post & Hsplit & _ & Hline).
      exists pattern. split; [|done]. rewrite Hsplit. apply elem_of_app. right. left.
    + destruct (allFilled grid) eqn:Hfull; [|done]. intros [= <-]. right.
      split; [done|]. by apply allFilled_Forall.
  - apply checkBoardWinner_None.
  - unfold checkBoardWinner.
    destruct (firstLine (cellValue <$> cs) WINNING_PATTERNS) as [w|] eqn:E.
    + intros [= ->]. exfalso.
      apply firstLine_Some in E as (_ & pattern & _ & _ & _ & (Ha & _)).
      rewrite list_lookup_fmap in Ha.
      by destruct (cs !! pattern.1.1) as [[p|]|].
    + destruct (allFilled (cellValue <$> cs)) eqn:Hfull; [|done]. intros _. split.
      * apply allFilled_Forall. by rewrite <- allFilled_cellValue.
      * intros pattern v Hin. by apply (proj1 (firstLine_None _ _) E).
Qed.

(** ** Bounds of the evaluation *)

Lemma fold_left_step_bound {A} (f : Z → A → Z) (d : Z) (l : list A) (s : Z) :
  (∀ s x, - d ≤ f s x - s ≤ d)%Z →
  (- (d * Z.of_nat (length l)) ≤ fold_left f l s - s ≤ d * Z.of_nat (length l))%Z.
Proof.
  intros Hstep. revert s. induction l as [|x l IH]; intros s; simpl length.
  - simpl. lia.
  - simpl fold_left. specialize (IH (f s x)). specialize (Hstep s x).
    rewrite Nat2Z.inj_succ. nia.
Qed.

Lemma evaluateSmallBoardRaw_bound (cs : list (option Player)) (player opponent : Player) :
  (- 125 ≤ evaluateSmallBoardRaw cs player opponent ≤ 125)%Z.
Proof.
  unfold evaluateSmallBoardRaw.
  match goal with
  | |- (_ ≤ fold_left ?f ?l ?s0 ≤ _)%Z =>
      pose proof (fold_left_step_bound f 15 l s0) as H;
      assert (- 5 ≤ s0 ≤ 5)%Z as Hs by (repeat case_bool_decide; lia);
      assert (∀ acc x, - 15 ≤ f acc x - acc ≤ 15)%Z as Hstep
  end.
  { intros s x. cbv beta.
    destruct (countCells cs player opponent x) as [pCount oCount].
    unfold W.LINE_2, W.LINE_1, W.BLOCK_OPP_2.
    repeat (case_bool_decide; simpl); lia. }
  specialize (H Hstep). simpl length in H. lia.
Qed.

Lemma getMacroWeight_range (i : nat) : (1 ≤ getMacroWeight i ≤ 5)%Z.
Proof.
  unfold getMacroWeight, W.MACRO_CENTER, W.MACRO_CORNER, W.MACRO_EDGE.
  repeat case_bool_decide; lia.
Qed.

Lemma evaluateBoards_bound (bs : list SmallBoardState) (player opponent : Player)
    (idxs : list nat) (score z : Z) :
  evaluateBoards bs player opponent idxs score = Ok z →
  (- (750 * Z.of_nat (length idxs)) ≤ z - score ≤ 750 * Z.of_nat (length idxs))%Z.
Proof.
  revert score. induction idxs as [|i rest IH]; intros score; simpl evaluateBoards.
  - intros [= <-]. simpl. lia.
  - intros H. apply bind_Ok in H as (board & _ & H).
    apply IH in H. simpl length. rewrite Nat2Z.inj_succ.
    pose proof (getMacroWeight_range i) as Hw.
    pose proof (evaluateSmallBoardRaw_bound (cells board) player opponent) as Hraw.
    unfold W.BOARD_WON, W.BOARD_LOST in H.
    repeat case_bool_decide; nia.
Qed.

(** The macro-board loop returns a win constant only at a completed line,
    and otherwise moves the score by at most 6000 a line. *)
Lemma evaluateMacro_bound (macro : list Winner) (player opponent : Player)
    (patterns : list (nat * nat * nat)) (score : Z) :
  opponent ≠ player →
  match evaluateMacro macro player opponent patterns score with
  | Returned z =>
      (z = WIN_SCORE ∧ ∃ pattern, pattern ∈ patterns ∧ completed macro pattern (Won player))
      ∨ (z = (- WIN_SCORE)%Z
         ∧ ∃ pattern, pattern ∈ patterns ∧ completed macro pattern (Won opponent))
  | Fell score' =>
      (- (6000 * Z.of_nat (length patterns)) ≤ score' - score
       ≤ 6000 * Z.of_nat (length patterns))%Z
  end.
Proof.
  intros Hne. revert score.
  induction patterns as [|pattern rest IH]; intros score.
  - simpl. lia.
  - cbn [evaluateMacro].
    pose proof (countMacro_cases macro player opponent pattern Hne) as Hc.
    destruct (countMacro macro player opponent pattern) as [[pCount oCount] draws].
    destruct Hc as [Hp Ho].
    assert (∀ score',
              match evaluateMacro macro player opponent rest score' with
              | Returned z =>
                  (z = WIN_SCORE
                   ∧ ∃ p, p ∈ pattern :: rest ∧ completed macro p (Won player))
                  ∨ (z = (- WIN_SCORE)%Z
                     ∧ ∃ p, p ∈ pattern :: rest ∧ completed macro p (Won opponent))
              | Fell final =>
                  (- (6000 * Z.of_nat (length rest)) ≤ final - score'
                   ≤ 6000 * Z.of_nat (length rest))%Z
              end) as IH'.
    { intros score'. specialize (IH score').
      destruct (evaluateMacro macro player opponent rest score') as [z|final]; [|done].
      destruct IH as [[-> (p & Hin & Hline)] | [-> (p & Hin & Hline)]].
      - left. split; [done|]. exists p. split; [by right | done].
      - right. split; [done|]. exists p. split; [by right | done]. }
    simpl length. rewrite Nat2Z.inj_succ.
    case_bool_decide as Hd.
    + case_bool_decide as H3.
      { left. split; [done|]. exists pattern. split; [left | by apply Hp]. }
      case_bool_decide as H3'.
      { right. split; [done|]. exists pattern. split; [left | by apply Ho]. }
      unfold W.MACRO_WIN_THREAT, W.MACRO_BLOCK_THREAT, W.MACRO_LINE_1.
      repeat (case_bool_decide; simpl);
        match goal with
        | |- context [evaluateMacro macro player opponent rest ?sc] =>
            specialize (IH' sc);
            destruct (evaluateMacro macro player opponent rest sc); [done | lia]
        end.
    + specialize (IH' score).
      destruct (evaluateMacro macro player opponent rest score); [done | lia].
Qed.

(** X8. Heuristic scores stay far below the win constant: when
    [evaluateStateAdvanced] returns [WIN_SCORE] a macro line of the
    perspective is completed, when it returns [- WIN_SCORE] a macro line of
    the other player is, and every other score lies within [59750] of 0. *)
Theorem evaluateStateAdvanced_bound (state : GameState) (player : Player) (z : Z) :
  evaluateStateAdvanced state player = Ok z →
  (z = WIN_SCORE
   ∧ ∃ pattern, pattern ∈ WINNING_PATTERNS
       ∧ completed (macroBoard state) pattern (Won player))
  ∨ (z = (- WIN_SCORE)%Z
     ∧ ∃ pattern, pattern ∈ WINNING_PATTERNS
         ∧ completed (macroBoard state) pattern (Won (opponentOf player)))
  ∨ (- 59750 ≤ z ≤ 59750)%Z.
Proof.
  unfold evaluateStateAdvanced.
  pose proof (evaluateMacro_bound (macroBoard state) player (opponentOf player)
                WINNING_PATTERNS 0 (opponentOf_ne player)) as Hmacro.
  destruct (evaluateMacro _ _ _ _ _) as [w|score].
  - intros [= <-]. destruct Hmacro as [H | H]; [by left | by right; left].
  - intros H. right; right. simpl length in Hmacro.
    apply bind_Ok in H as (score' & Hboards & H).
    apply evaluateBoards_bound in Hboards. simpl length in Hboards.
    unfold W.GIVE_FREE_MOVE, W.SEND_TO_WINNABLE in H.
    case_bool_decide.
    + destruct (activeBoard state) as [a|].
      * apply bind_Ok in H as (target & _ & H).
        destruct (canWinBoard _ _); injection H as <-; lia.
      * injection H as <-. lia.
    + injection H as <-. lia.
Qed.

Lemma evaluateStateAdvanced_bound_witness :
  evaluateStateAdvanced (stateAfter drawnGame) X = Ok (-4550)%Z
  ∧ (- 59750 ≤ -4550 ≤ 59750)%Z.
Proof.
  assert (evaluateStateAdvanced (stateAfter drawnGame) X = Ok (-4550)%Z) as H
    by (vm_compute; reflexivity).
  split; [exact H|].
  destruct (evaluateStateAdvanced_bound (stateAfter drawnGame) X (-4550) H)
    as [[Hw _] | [[Hl _] | Hb]]; [discriminate Hw | discriminate Hl | exact Hb].
Defined.


(** * Further properties of the decision engine *)

Lemma insertByScore_sorted (item : Move * Z) (sorted : list (Move * Z)) :
  StronglySorted itemBefore sorted →
  Forall (fun other => moveLt item.1 other.1) sorted →
  StronglySorted itemBefore (insertByScore item sorted).
Proof.
  intros Hsorted. induction Hsorted as [|first rest Hrest IH Hall]; intros Hlt; simpl.
  - repeat constructor.
  - apply Forall_cons in Hlt as [Hfirst Hlt].
    destruct (item.2 <? first.2)%Z eqn:E.
    + apply Z.ltb_lt in E. constructor; [by apply IH|].
      rewrite (insertByScore_Permutation item rest). constructor; [by left | done].
    + apply Z.ltb_ge in E. constructor; [by constructor|].
      constructor.
      * destruct (decide (first.2 = item.2)) as [Heq|Hne]; [by right | left; lia].
      * rewrite Forall_forall in Hall, Hlt |- *. intros other Hin.
        specialize (Hall other Hin). specialize (Hlt other Hin).
        destruct Hall as [Hless | [Heq _]].
        -- left. lia.
        -- destruct (decide (other.2 = item.2)) as [Heq'|Hne]; [by right | left; lia].
Qed.

Lemma sortByScore_sorted (items : list (Move * Z)) :
  StronglySorted moveLt items.*1 →
  StronglySorted itemBefore (sortByScore items).
Proof.
  induction items as [|item items IH]; simpl; intros Hsorted; [constructor|].
  apply StronglySorted_cons in Hsorted as [Hall Hrest].
  apply insertByScore_sorted; [by apply IH|].
  rewrite sortByScore_Permutation.
  change (Forall (moveLt item.1) (fst <$> items)) in Hall.
  exact (proj1 (Forall_fmap fst (moveLt item.1) items) Hall).
Qed.

Lemma scoreMoves_scores (state : GameState) (player : Player) (moves : list Move)
    (items : list (Move * Z)) (item : Move * Z) :
  scoreMoves state player moves = Ok items →
  item ∈ items →
  orderScore state player item.1 = Ok item.2.
Proof.
  revert items. induction moves as [|move rest IH]; intros items; simpl.
  - intros [= <-]. by intros ?%elem_of_nil.
  - intros H. apply bind_Ok in H as (z & Hz & H).
    apply bind_Ok in H as (tail & Htail & [= <-]).
    intros [-> | Hin]%elem_of_cons; [done|]. by apply (IH tail).
Qed.

(** X9. [orderMoves] arranges moves given in enumeration order by
    descending ordering score, and moves of equal score stay in enumeration
    order; no move is added or lost. *)
Theorem orderMoves_sorted (state : GameState) (moves ordered : list Move)
    (player : Player) :
  StronglySorted moveLt moves →
  orderMoves state moves player = Ok ordered →
  ordered ≡ₚ moves
  ∧ StronglySorted (orderBefore state player) ordered.
Proof.
  intros Hsorted H. split; [by eapply orderMoves_Permutation|].
  unfold orderMoves in H. apply bind_Ok in H as (items & Hitems & [= <-]).
  pose proof (scoreMoves_fst _ _ _ _ Hitems) as Hfst.
  assert (StronglySorted itemBefore (sortByScore items)) as Hs.
  { apply sortByScore_sorted. by rewrite Hfst. }
  assert (∀ item, item ∈ sortByScore items →
                  orderScore state player item.1 = Ok item.2) as Hscores.
  { intros item Hin. apply (scoreMoves_scores _ _ _ _ _ Hitems).
    by rewrite <- (sortByScore_Permutation items). }
  clear Hitems Hfst Hsorted.
  induction Hs as [|item rest Hrest IH Hall]; simpl; constructor.
  - apply IH. intros other Hin. apply Hscores. by right.
  - apply Forall_fmap. rewrite Forall_forall in Hall |- *. intros other Hin.
    exists item.2, other.2. split_and!.
    + apply Hscores. left.
    + apply Hscores. by right.
    + destruct item, other. by apply Hall.
Qed.

Lemma orderMoves_sorted_witness :
  StronglySorted moveLt (mv 0 <$> seq 0 9)
  ∧ orderMoves replyState (mv 0 <$> seq 0 9) X
    = Ok [mv 0 4; mv 0 0; mv 0 1; mv 0 2; mv 0 3; mv 0 5; mv 0 6; mv 0 7; mv 0 8]
  ∧ [mv 0 4; mv 0 0; mv 0 1; mv 0 2; mv 0 3; mv 0 5; mv 0 6; mv 0 7; mv 0 8]
    ≡ₚ mv 0 <$> seq 0 9
  ∧ StronglySorted (orderBefore replyState X)
      [mv 0 4; mv 0 0; mv 0 1; mv 0 2; mv 0 3; mv 0 5; mv 0 6; mv 0 7; mv 0 8].
Proof.
  assert (StronglySorted moveLt (mv 0 <$> seq 0 9)) as Hsorted.
  { simpl. repeat (constructor; [|repeat constructor; right; simpl; lia]). constructor. }
  assert (orderMoves replyState (mv 0 <$> seq 0 9) X
          = Ok [mv 0 4; mv 0 0; mv 0 1; mv 0 2; mv 0 3; mv 0 5; mv 0 6; mv 0 7; mv 0 8])
    as Hord by (vm_compute; reflexivity).
  split; [exact Hsorted|]. split; [exact Hord|].
  apply (orderMoves_sorted replyState (mv 0 <$> seq 0 9) _ X Hsorted Hord).
Defined.

Lemma mediumWin_spec (state : GameState) (aiPlayer : Player) (moves : list Move)
    (r : option Move) :
  mediumWin state aiPlayer moves = Ok r →
  match r with
  | Some move => firstWith (winsBoard state aiPlayer) moves move
  | None => ∀ m, m ∈ moves → ¬ winsBoard state aiPlayer m
  end.
Proof.
  revert r. induction moves as [|m rest IH]; intros r; simpl.
  - intros [= <-]. by intros m ?%elem_of_nil.
  - intros H. apply bind_Ok in H as (sim & Hsim & H).
    apply bind_Ok in H as (board & Hboard%prop_Ok & H).
    case_bool_decide as Hw.
    + injection H as <-. exists [], rest. split_and!; [done| |by intros x ?%elem_of_nil].
      by exists sim, board.
    + assert (¬ winsBoard state aiPlayer m) as Hnot.
      { intros (sim' & board' & Hsim' & Hboard' & Hw').
        assert (sim' = sim) as -> by congruence.
        assert (board' = board) as -> by congruence. done. }
      specialize (IH r H). destruct r as [move|].
      * destruct IH as (before & after & -> & Hwin & Hbefore).
        exists (m :: before), after. split_and!; [done | done |].
        intros x [-> | Hx]%elem_of_cons; [done | by apply Hbefore].
      * intros x [-> | Hx]%elem_of_cons; [done | by apply IH].
Qed.

Lemma mediumBlock_spec (state : GameState) (opponent : Player) (moves : list Move)
    (r : option Move) :
  mediumBlock state opponent moves = Ok r →
  match r with
  | Some move => firstWith (blocksBoard state opponent) moves move
  | None => ∀ m, m ∈ moves → ¬ blocksBoard state opponent m
  end.
Proof.
  revert r. induction moves as [|m rest IH]; intros r; simpl.
  - intros [= <-]. by intros m ?%elem_of_nil.
  - intros H. apply bind_Ok in H as (board & Hboard%prop_Ok & H).
    apply bind_Ok in H as (clone & Hclone & H).
    case_bool_decide as Hw.
    + injection H as <-. exists [], rest. split_and!; [done| |by intros x ?%elem_of_nil].
      by exists board, clone.
    + assert (¬ blocksBoard state opponent m) as Hnot.
      { intros (board' & clone' & Hboard' & Hclone' & Hw').
        assert (board' = board) as -> by congruence.
        assert (clone' = clone) as -> by congruence. done. }
      specialize (IH r H). destruct r as [move|].
      * destruct IH as (before & after & -> & Hwin & Hbefore).
        exists (m :: before), after. split_and!; [done | done |].
        intros x [-> | Hx]%elem_of_cons; [done | by apply Hbefore].
      * intros x [-> | Hx]%elem_of_cons; [done | by apply IH].
Qed.

(** X10. The ['medium'] tier takes an immediate sub-board win first: it
    returns the first legal move that completes its sub-board for the
    mover; failing that, the first legal move on a cell where the opponent
    would complete the sub-board; failing that, the move at the random
    index.  No score is attached. *)
Theorem medium_win_then_block (now : nat → float) (random_index : nat → nat)
    (state : GameState) (moves : list Move) (move : Move) (sc : option num) :
  getAvailableMoves state = Ok moves →
  getBestMove now random_index state medium = Ok (Some (move, sc)) →
  sc = None
  ∧ (firstWith (winsBoard state (currentPlayer state)) moves move
     ∨ ((∀ m, m ∈ moves → ¬ winsBoard state (currentPlayer state) m)
        ∧ (firstWith (blocksBoard state (opponentOf (currentPlayer state))) moves move
           ∨ ((∀ m, m ∈ moves →
                 ¬ blocksBoard state (opponentOf (currentPlayer state)) m)
              ∧ moves !! random_index (length moves) = Some move)))).
Proof.
  intros Hmoves H. unfold getBestMove in H. rewrite Hmoves in H. simpl in H.
  destruct moves as [|first rest]; [done|].
  apply bind_Ok in H as (win & Hwin & H). apply mediumWin_spec in Hwin.
  destruct win as [w|].
  { injection H as <- <-. split; [done | by left]. }
  apply bind_Ok in H as (block & Hblock & H). apply mediumBlock_spec in Hblock.
  destruct block as [bl|].
  { injection H as <- <-. split; [done|]. right. split; [done | by left]. }
  injection H as H. unfold randomMove in H.
  destruct ((first :: rest) !! random_index (length (first :: rest))) as [m|] eqn:E;
    [|done].
  injection H as <- <-. split; [done|]. right. split; [done|]. by right.
Qed.

Lemma medium_win_then_block_witness :
  getAvailableMoves (stateAfter openingGame)
  = Ok [mv 0 2; mv 0 3; mv 0 4; mv 0 5; mv 0 7; mv 0 8]
  ∧ getBestMove (fun _ => 0%float) (fun _ => 5) (stateAfter openingGame) medium
    = Ok (Some (mv 0 2, None))
  ∧ @None num = None
  ∧ (firstWith (winsBoard (stateAfter openingGame)
                  (currentPlayer (stateAfter openingGame)))
       [mv 0 2; mv 0 3; mv 0 4; mv 0 5; mv 0 7; mv 0 8] (mv 0 2)
     ∨ ((∀ m, m ∈ [mv 0 2; mv 0 3; mv 0 4; mv 0 5; mv 0 7; mv 0 8] →
           ¬ winsBoard (stateAfter openingGame)
               (currentPlayer (stateAfter openingGame)) m)
        ∧ (firstWith (blocksBoard (stateAfter openingGame)
                        (opponentOf (currentPlayer (stateAfter openingGame))))
             [mv 0 2; mv 0 3; mv 0 4; mv 0 5; mv 0 7; mv 0 8] (mv 0 2)
           ∨ ((∀ m, m ∈ [mv 0 2; mv 0 3; mv 0 4; mv 0 5; mv 0 7; mv 0 8] →
                 ¬ blocksBoard (stateAfter openingGame)
                     (opponentOf (currentPlayer (stateAfter openingGame))) m)
              ∧ [mv 0 2; mv 0 3; mv 0 4; mv 0 5; mv 0 7; mv 0 8]
                !! 5 = Some (mv 0 2))))).
Proof.
  assert (getAvailableMoves (stateAfter openingGame)
          = Ok [mv 0 2; mv 0 3; mv 0 4; mv 0 5; mv 0 7; mv 0 8]) as Hmoves
    by (vm_compute; reflexivity).
  assert (getBestMove (fun _ => 0%float) (fun _ => 5) (stateAfter openingGame) medium
          = Ok (Some (mv 0 2, None))) as Hbest
    by (vm_compute; reflexivity).
  split; [exact Hmoves|]. split; [exact Hbest|].
  apply (medium_win_then_block (fun _ => 0%float) (fun _ => 5) (stateAfter openingGame)
           _ (mv 0 2) None Hmoves Hbest).
Defined.

Lemma mediumWin_Ok (state : GameState) (aiPlayer : Player) (moves all : list Move) :
  wf_state state →
  getAvailableMoves state = Ok all →
  (∀ m, m ∈ moves → m ∈ all) →
  ∃ r, mediumWin state aiPlayer moves = Ok r.
Proof.
  intros Hwf Hall. induction moves as [|m rest IH]; intros Hsub; simpl; [by eexists|].
  destruct (getAvailableMoves_elem _ _ m Hall) as (_ & Hc & board & Hb & _ & _);
    [apply Hsub; left|].
  destruct (wf_state_cells _ _ _ Hwf Hb) as [Hb9 _].
  destruct (makeMove_eq _ _ _ _ Hwf Hb Hc) as (target & _ & Heq).
  destruct (makeMove state (boardIndex m) (cellIndex m)) as [sim|e] eqn:Hsim;
    [|by rewrite Heq in Hsim].
  pose proof (wf_state_makeMove _ _ _ _ Hwf Hsim) as (Hlen & _).
  destruct (lookup_lt_is_Some_2 (boards sim) (boardIndex m)) as [bd Hbd]; [lia|].
  clear Heq. simpl. rewrite Hbd. simpl.
  case_bool_decide; [by eexists|]. apply IH. intros x Hx. apply Hsub. by right.
Qed.

Lemma mediumBlock_Ok (state : GameState) (opponent : Player) (moves all : list Move) :
  wf_state state →
  getAvailableMoves state = Ok all →
  (∀ m, m ∈ moves → m ∈ all) →
  ∃ r, mediumBlock state opponent moves = Ok r.
Proof.
  intros Hwf Hall. induction moves as [|m rest IH]; intros Hsub; simpl; [by eexists|].
  destruct (getAvailableMoves_elem _ _ m Hall) as (_ & Hc & board & Hb & _ & _);
    [apply Hsub; left|].
  destruct (wf_state_cells _ _ _ Hwf Hb) as [_ Hlen].
  rewrite Hb. simpl. rewrite js_set_in_range by lia. simpl.
  case_bool_decide; [by eexists|]. apply IH. intros x Hx. apply Hsub. by right.
Qed.

Lemma bind_Throw {A B} (m : result A) (f : A → result B) (e : error) :
  m ≫= f = Throw e → m = Throw e ∨ ∃ a, m = Ok a ∧ f a = Throw e.
Proof.
  destruct m as [a|e']; simpl; intros H.
  - right. by exists a.
  - left. by injection H as ->.
Qed.

(** X11. On a state of nine sub-boards of nine cells [getBestMove] throws
    in no tier, whatever the clock and the random draw: the time-out of the
    search never leaves the ['impossible'] tier. *)
Theorem getBestMove_no_error (now : nat → float) (random_index : nat → nat)
    (state : GameState) (difficulty : Difficulty) :
  wf_state state →
  ∃ r, getBestMove now random_index state difficulty = Ok r.
Proof.
  intros Hwf. destruct (getAvailableMoves_Ok _ Hwf) as [moves Hmoves].
  destruct (getBestMove now random_index state difficulty) as [r|e] eqn:H;
    [by eexists|exfalso].
  unfold getBestMove in H. rewrite Hmoves in H. simpl in H.
  destruct moves as [|first rest]; [done|].
  destruct difficulty; try done.
  - destruct (mediumWin_Ok state (currentPlayer state) (first :: rest) _ Hwf Hmoves)
      as [win Hwin]; [done|].
    destruct (mediumBlock_Ok state (opponentOf (currentPlayer state)) (first :: rest) _
                Hwf Hmoves) as [block Hblock]; [done|].
    apply bind_Throw in H as [H | (win' & Hwin' & H)].
    { assert (Ok win = Throw e) by (rewrite <- Hwin; exact H). done. }
    destruct win'; [done|].
    apply bind_Throw in H as [H | (block' & Hblock' & H)].
    { assert (Ok block = Throw e) by (rewrite <- Hblock; exact H). done. }
    by destruct block'.
  - destruct (orderMoves_Ok state (first :: rest) (currentPlayer state) Hwf Hmoves)
      as [ordered Hord].
    apply bind_Throw in H as [H | (ordered' & Hord' & H)].
    { assert (Ok ordered = Throw e) by (rewrite <- Hord; exact H). done. }
    assert (ordered' = ordered) as ->.
    { assert (Ok ordered' = Ok ordered) as Heq by (rewrite <- Hord; symmetry; exact Hord').
      by injection Heq. }
    destruct (hardLoop_Ok state (currentPlayer state) ordered NegInf first)
      as [[bs bm] Hloop].
    { intros m Hm. eapply moveScore_Ok; [done..|].
      by rewrite <- (orderMoves_Permutation _ _ _ _ Hord). }
    apply bind_Throw in H as [H | ([bs' bm'] & _ & H)]; [|done].
    assert (Ok (bs, bm) = Throw e) by (rewrite <- Hloop; exact H). done.
  - destruct (orderMoves_Ok state (first :: rest) (currentPlayer state) Hwf Hmoves)
      as [ordered Hord].
    apply bind_Throw in H as [H | ([bm bs] & _ & H)]; [|done].
    unfold getImpossibleMove in H.
    apply bind_Throw in H as [H | (ordered' & _ & H)].
    { assert (Ok ordered = Throw e) by (rewrite <- Hord; exact H). done. }
    by destruct (deepen _ _ _ _ _ _ _ _ _ _).
Qed.

Lemma getBestMove_no_error_witness :
  wf_state replyState
  ∧ ∃ r, getBestMove (fun k => msec (2000 * Z.of_nat k)) (fun _ => 0)
           replyState impossible = Ok r.
Proof.
  assert (wf_state replyState) as Hwf.
  { apply reachable_wf.
    apply (playLegal_reachable INITIAL_GAME_STATE _ [(4, 4); (4, 0)] (reachable_init None)).
    vm_compute. reflexivity. }
  split; [exact Hwf|].
  apply (getBestMove_no_error _ _ replyState impossible Hwf).
Defined.

Lemma num_max_fin (a : num) (z : Z) : a ≠ PosInf → ∃ z', num_max a (Fin z) = Fin z'.
Proof.
  intros Ha. unfold num_max, num_leb. destruct a as [|y|]; [by eexists| |done].
  destruct (y <=? z)%Z; by eexists.
Qed.

Lemma num_min_fin (a : num) (z : Z) : a ≠ NegInf → ∃ z', num_min a (Fin z) = Fin z'.
Proof.
  intros Ha. unfold num_min, num_leb. destruct a as [|y|]; [done| |by eexists].
  destruct (y <=? z)%Z; by eexists.
Qed.

Lemma tbind_Ok {A B} (m : Timed A) (f : A → Timed B) (k k' : nat) (b : B) :
  tbind m f k = Ok (b, k') → ∃ a k1, m k = Ok (a, k1) ∧ f a k1 = Ok (b, k').
Proof.
  unfold tbind. destruct (m k) as [[a k1]|]; [|done]. intros H. by exists a, k1.
Qed.

Lemma tlift_Ok {A} (r : result A) (k k' : nat) (a : A) :
  tlift r k = Ok (a, k') → r = Ok a ∧ k' = k.
Proof. unfold tlift. destruct r; [|done]. by intros [= -> ->]. Qed.

Lemma tret_Ok {A} (a b : A) (k k' : nat) : tret a k = Ok (b, k') → b = a ∧ k' = k.
Proof. by intros [= -> ->]. Qed.

(** Takes [H : minimax ... k = Ok (r, k')] through the check of the clock. *)
Ltac minimax_enter H :=
  cbn [minimax] in H;
  let t := fresh "t" in
  let k1 := fresh "k1" in
  let Ht := fresh "Ht" in
  apply tbind_Ok in H as (t & k1 & Ht & H);
  injection Ht as <- <-;
  destruct (overBudget _ _); [discriminate H|].

(** [minimax] never returns an infinity. *)
Lemma minimax_finite (now : nat → float) (depth : nat) :
  ∀ state alpha beta isMaximizing aiPlayer startTime k r k',
    minimax now depth state alpha beta isMaximizing aiPlayer startTime k = Ok (r, k') →
    ∃ z, r = Fin z.
Proof.
  induction depth as [|depth IH];
    intros state alpha beta isMaximizing aiPlayer startTime k r k' H;
    minimax_enter H;
    (case_bool_decide; [apply tret_Ok in H as [-> _]; by eexists|]);
    (case_bool_decide; [apply tret_Ok in H as [-> _]; by eexists|]);
    (case_bool_decide; [apply tret_Ok in H as [-> _]; by eexists|]).
  - apply tbind_Ok in H as (z & k2 & _ & H). apply tret_Ok in H as [-> _]. by eexists.
  - apply tbind_Ok in H as (moves & k2 & _ & H).
    case_bool_decide as Hlen; [apply tret_Ok in H as [-> _]; by eexists|].
    destruct isMaximizing.
    + match type of H with
      | ?F moves alpha NegInf _ = _ =>
          assert (∀ ms a m kk res kk',
                    m ≠ PosInf → F ms a m kk = Ok (res, kk') →
                    (ms = [] ∧ res = m) ∨ ∃ z, res = Fin z) as Hloop
      end.
      { induction ms as [|mv0 ms IHms]; intros a m kk res kk' Hm Hres;
          cbn beta iota in Hres.
        - apply tret_Ok in Hres as [-> _]. by left.
        - right.
          apply tbind_Ok in Hres as (next & k3 & _ & Hres).
          apply tbind_Ok in Hres as (ev & k4 & Hev & Hres).
          destruct (IH _ _ _ _ _ _ _ _ _ Hev) as [z ->].
          destruct (num_max_fin m z Hm) as [z' Hz'].
          cbn zeta in Hres.
          destruct (num_leb beta (num_max a (Fin z))).
          + apply tret_Ok in Hres as [-> _]. by exists z'.
          + apply IHms in Hres; [|by rewrite Hz'].
            destruct Hres as [[_ ->] | Hfin]; [by exists z' | exact Hfin]. }
      destruct (Hloop _ _ NegInf _ _ _ (λ E, ltac:(discriminate E)) H)
        as [[-> _] | Hfin]; [done | exact Hfin].
    + match type of H with
      | ?F moves beta PosInf _ = _ =>
          assert (∀ ms b m kk res kk',
                    m ≠ NegInf → F ms b m kk = Ok (res, kk') →
                    (ms = [] ∧ res = m) ∨ ∃ z, res = Fin z) as Hloop
      end.
      { induction ms as [|mv0 ms IHms]; intros b m kk res kk' Hm Hres;
          cbn beta iota in Hres.
        - apply tret_Ok in Hres as [-> _]. by left.
        - right.
          apply tbind_Ok in Hres as (next & k3 & _ & Hres).
          apply tbind_Ok in Hres as (ev & k4 & Hev & Hres).
          destruct (IH _ _ _ _ _ _ _ _ _ Hev) as [z ->].
          destruct (num_min_fin m z Hm) as [z' Hz'].
          cbn zeta in Hres.
          destruct (num_leb (num_min b (Fin z)) alpha).
          + apply tret_Ok in Hres as [-> _]. by exists z'.
          + apply IHms in Hres; [|by rewrite Hz'].
            destruct Hres as [[_ ->] | Hfin]; [by exists z' | exact Hfin]. }
      destruct (Hloop _ _ PosInf _ _ _ (λ E, ltac:(discriminate E)) H)
        as [[-> _] | Hfin]; [done | exact Hfin].
Qed.

(** A pass over a non-empty [sortedMoves] that starts from [-Infinity], or
    any pass that starts from a finite score, ends on a finite score. *)
Lemma rootLoop_finite (now : nat → float) (state : GameState) (depth : nat)
    (aiPlayer : Player) (startTime : float) (sortedMoves : list Move) :
  ∀ alpha beta currentBestScore currentBestMove k sc r k',
    (sortedMoves ≠ [] ∧ currentBestScore = NegInf) ∨ (∃ z, currentBestScore = Fin z) →
    rootLoop now state depth aiPlayer startTime sortedMoves alpha beta
      currentBestScore currentBestMove k = Ok ((sc, r), k') →
    ∃ z, sc = Fin z.
Proof.
  induction sortedMoves as [|move rest IH];
    intros alpha beta cbs cbm k sc r k' Hstart H; simpl in H.
  - destruct Hstart as [[? _] | Hfin]; [done|]. by injection H as <- _ _.
  - unfold tbind, tlift in H.
    destruct (makeMove state (boardIndex move) (cellIndex move)) as [next|]; [|done].
    destruct (minimax now (depth - 1) next alpha beta false aiPlayer startTime k)
      as [[score k1]|] eqn:Hscore; [|done].
    destruct (minimax_finite _ _ _ _ _ _ _ _ _ _ _ Hscore) as [zs ->].
    assert (∃ z, (if num_gtb (Fin zs) cbs then (Fin zs, Some move) else (cbs, cbm)).1
                 = Fin z) as Hnext.
    { destruct Hstart as [[_ ->] | [z ->]]; [by exists zs|].
      destruct (num_gtb _ _); by eexists. }
    destruct (if num_gtb (Fin zs) cbs then (Fin zs, Some move) else (cbs, cbm))
      as [cbs' cbm']. simpl in Hnext.
    destruct (num_leb beta (num_max alpha (Fin zs))).
    + by injection H as <- _ _.
    + eapply IH; [|exact H]. by right.
Qed.

(** The deepening loop ends as it started, or on a finite score with one
    of the moves searched. *)
Lemma deepen_score (now : nat → float) (state : GameState) (aiPlayer : Player)
    (startTime : float) (remaining : nat) :
  ∀ depth sortedMoves bestScore bestMove k sc r,
    sortedMoves ≠ [] →
    deepen now remaining state depth aiPlayer startTime sortedMoves bestScore bestMove k
    = (sc, r) →
    (sc = bestScore ∧ r = bestMove)
    ∨ ∃ z m, sc = Fin z ∧ r = Some m ∧ m ∈ sortedMoves.
Proof.
  induction remaining as [|remaining IH];
    intros depth sortedMoves bestScore bestMove k sc r Hne H; simpl in H.
  - injection H as <- <-. by left.
  - destruct (searchDepth now state depth aiPlayer startTime sortedMoves k)
      as [[[|cs cm] k']|] eqn:E.
    + injection H as <- <-. by left.
    + destruct (searchDepth_Completed _ _ _ _ _ _ _ _ _ _ Hne E) as (top & -> & Htop).
      assert (∃ z, cs = Fin z) as [z ->].
      { revert E. unfold searchDepth, tbind, performance_now, tret.
        destruct (overBudget _ _); [done|].
        destruct (rootLoop _ _ _ _ _ _ _ _ _ _ _) as [[[sc' r'] k1]|] eqn:E; [|done].
        simpl. intros [= <- _ _].
        eapply rootLoop_finite; [|exact E]. by left. }
      apply IH in H; [|done]. right.
      destruct H as [[-> ->] | (z' & m & -> & -> & Hm)].
      * by exists z, top.
      * exists z', m. split_and!; [done..|].
        apply elem_of_cons in Hm as [-> | Hm]; [done|].
        by apply list_elem_of_filter in Hm as [_ Hm].
    + injection H as <- <-. by left.
Qed.

(** One turn of the deepening loop. *)
Lemma deepen_S (now : nat → float) (remaining : nat) (state : GameState) (depth : nat)
    (aiPlayer : Player) (startTime : float) (sortedMoves : list Move)
    (bestScore : num) (bestMove : option Move) (k : nat) :
  deepen now (S remaining) state depth aiPlayer startTime sortedMoves bestScore bestMove k
  = match searchDepth now state depth aiPlayer startTime sortedMoves k with
    | Throw _ => (bestScore, bestMove)
    | Ok (Break, _) => (bestScore, bestMove)
    | Ok (Completed currentBestScore None, _) => (currentBestScore, None)
    | Ok (Completed currentBestScore (Some top), k') =>
        deepen now remaining state (S depth) aiPlayer startTime
          (top :: filter (fun m => boardIndex m ≠ boardIndex top
                                    ∨ cellIndex m ≠ cellIndex top) sortedMoves)
          currentBestScore (Some top) k'
    end.
Proof. reflexivity. Qed.

(** A completed depth ends on a finite score. *)
Lemma searchDepth_finite (now : nat → float) (state : GameState) (depth : nat)
    (aiPlayer : Player) (startTime : float) (sortedMoves : list Move) (k k' : nat)
    (sc : num) (r : option Move) :
  sortedMoves ≠ [] →
  searchDepth now state depth aiPlayer startTime sortedMoves k = Ok (Completed sc r, k') →
  ∃ z, sc = Fin z.
Proof.
  intros Hne. unfold searchDepth, tbind, performance_now, tret.
  destruct (overBudget _ _); [done|].
  destruct (rootLoop _ _ _ _ _ _ _ _ _ _ _) as [[[sc' r'] k1]|] eqn:E; [|done].
  simpl. intros [= <- _ _].
  eapply rootLoop_finite; [|exact E]. by left.
Qed.

(** X12. The score the time-bounded tier reports is [-Infinity] exactly
    when no depth of the search was completed, that is when the pass at
    depth 1 over the ordered moves, the first of the deepening loop, left
    at the check of the clock or on an exception; the move is then
    [moves[0]].  When that pass was completed the score is finite and the
    move is one of [moves]. *)
Theorem getImpossibleMove_score (now : nat → float) (state : GameState)
    (moves : list Move) (bestMove : option Move) (bestScore : num) :
  moves ≠ [] →
  getImpossibleMove now state moves = Ok (bestMove, bestScore) →
  ∃ sortedMoves,
    orderMoves state moves (currentPlayer state) = Ok sortedMoves
    ∧ ((bestScore = NegInf ∧ bestMove = head moves
        ∧ ∀ sc r k',
            searchDepth now state 1 (currentPlayer state) (now 0) sortedMoves 1
            ≠ Ok (Completed sc r, k'))
       ∨ (∃ z m, bestScore = Fin z ∧ bestMove = Some m ∧ m ∈ moves)
         ∧ ∃ sc r k',
             searchDepth now state 1 (currentPlayer state) (now 0) sortedMoves 1
             = Ok (Completed sc r, k')).
Proof.
  unfold getImpossibleMove. intros Hmoves H.
  apply bind_Ok in H as (sorted & Hsorted & H).
  exists sorted. split; [exact Hsorted|].
  apply orderMoves_Permutation in Hsorted.
  assert (sorted ≠ []) as Hne.
  { intros ->. by apply Permutation_nil_l in Hsorted. }
  destruct (deepen _ _ _ _ _ _ _ _ _ _) as [bs bm] eqn:E.
  injection H as <- <-.
  change MAX_DEPTH_IMPOSSIBLE with (S 11) in E. rewrite deepen_S in E.
  destruct (searchDepth now state 1 (currentPlayer state) (now 0) sorted 1)
    as [[[|cs cm] k']|e] eqn:Es.
  - injection E as <- <-. left. by split_and!.
  - right.
    destruct (searchDepth_Completed _ _ _ _ _ _ _ _ _ _ Hne Es) as (top & -> & Htop).
    destruct (searchDepth_finite _ _ _ _ _ _ _ _ _ _ Hne Es) as [z ->].
    split; [|by eexists _, _, _].
    apply deepen_score in E; [|done].
    destruct E as [[-> ->] | (z' & m & -> & -> & Hm)].
    + exists z, top. split_and!; [done..|]. by rewrite <- Hsorted.
    + exists z', m. split_and!; [done..|]. rewrite <- Hsorted.
      apply elem_of_cons in Hm as [-> | Hm]; [done|].
      by apply list_elem_of_filter in Hm as [_ Hm].
  - injection E as <- <-. left. by split_and!.
Qed.

Lemma getImpossibleMove_score_witness :
  mv 0 <$> seq 0 9 ≠ []
  ∧ getImpossibleMove (fun k => msec (100 * Z.of_nat k)) replyState (mv 0 <$> seq 0 9)
    = Ok (Some (mv 0 4), Fin 57)
  ∧ ∃ sortedMoves,
      orderMoves replyState (mv 0 <$> seq 0 9) (currentPlayer replyState) = Ok sortedMoves
      ∧ ((Fin 57 = NegInf ∧ Some (mv 0 4) = head (mv 0 <$> seq 0 9)
          ∧ ∀ sc r k',
              searchDepth (fun k => msec (100 * Z.of_nat k)) replyState 1
                (currentPlayer replyState) ((fun k => msec (100 * Z.of_nat k)) 0)
                sortedMoves 1
              ≠ Ok (Completed sc r, k'))
         ∨ (∃ z m, Fin 57 = Fin z ∧ Some (mv 0 4) = Some m ∧ m ∈ mv 0 <$> seq 0 9)
           ∧ ∃ sc r k',
               searchDepth (fun k => msec (100 * Z.of_nat k)) replyState 1
                 (currentPlayer replyState) ((fun k => msec (100 * Z.of_nat k)) 0)
                 sortedMoves 1
               = Ok (Completed sc r, k')).
Proof.
  assert (mv 0 <$> seq 0 9 ≠ []) as Hne by done.
  assert (getImpossibleMove (fun k => msec (100 * Z.of_nat k)) replyState
            (mv 0 <$> seq 0 9) = Ok (Some (mv 0 4), Fin 57)) as Hrun
    by (vm_compute; reflexivity).
  split; [exact Hne|]. split; [exact Hrun|].
  exact (getImpossibleMove_score (fun k => msec (100 * Z.of_nat k)) replyState
           (mv 0 <$> seq 0 9) (Some (mv 0 4)) (Fin 57) Hne Hrun).
Defined.

(** The ['hard'] tier on a position with a legal move: the move returned
    is legal, comes with its own score, and no legal move scores more. *)
Lemma getBestMove_hard_maximal (now : nat → float) (random_index : nat → nat)
    (state : GameState) (moves : list Move) :
  wf_state state →
  getAvailableMoves state = Ok moves →
  moves ≠ [] →
  ∃ move sc,
    getBestMove now random_index state hard = Ok (Some (move, Some (Fin sc)))
    ∧ move ∈ moves
    ∧ moveScore state (currentPlayer state) move = Ok sc
    ∧ ∀ m, m ∈ moves →
        ∃ z, moveScore state (currentPlayer state) m = Ok z ∧ (z ≤ sc)%Z.
Proof.
  intros Hwf Hmoves Hne.
  destruct (orderMoves_Ok state moves (currentPlayer state) Hwf Hmoves) as [ordered Hord].
  pose proof (orderMoves_Permutation _ _ _ _ Hord) as Hperm.
  destruct moves as [|first rest]; [done|].
  destruct (hardLoop_Ok state (currentPlayer state) ordered NegInf first) as [r Hr].
  { intros m Hm. eapply moveScore_Ok; [done..|]. by rewrite <- Hperm. }
  destruct (hardLoop_spec _ _ _ _ _ _ Hr) as (Hall & _ & Hcase).
  assert (first ∈ ordered) as Hfirst by (rewrite Hperm; left).
  destruct Hcase as [-> | (before & after & z & Hsplit & Hr1 & Hz & _ & _)].
  { destruct (Hall first Hfirst) as (z & _ & Hz). done. }
  exists r.2, z. split_and!; try done.
  - unfold getBestMove. rewrite Hmoves. simpl. rewrite Hord. simpl.
    rewrite Hr. simpl. destruct r as [r1 r2]. simpl in *. by subst r1.
  - rewrite <- Hperm, Hsplit. apply elem_of_app. right. left.
  - intros m Hm. rewrite <- Hperm in Hm.
    destruct (Hall m Hm) as (zm & Hzm & Hle). exists zm. split; [done|].
    rewrite Hr1 in Hle. by apply num_leb_Fin.
Qed.

(** What [analyzeMoveQuality] computes for a legal move. *)
Lemma analyzeMoveQuality_eq (now : nat → float) (random_index : nat → nat)
    (previousState : GameState) (moves : list Move) (moveMade : Move) :
  wf_state previousState →
  getAvailableMoves previousState = Ok moves →
  moveMade ∈ moves →
  ∃ top sc made a,
    getBestMove now random_index previousState hard = Ok (Some (top, Some (Fin sc)))
    ∧ moveScore previousState (currentPlayer previousState) moveMade = Ok made
    ∧ moveScore previousState (currentPlayer previousState) top = Ok sc
    ∧ (made ≤ sc)%Z
    ∧ analyzeMoveQuality now random_index previousState moveMade = Ok a
    ∧ score a = made
    ∧ classification a
      = (let cls :=
           if bool_decide (sc - made < 50)%Z then best
           else if bool_decide (sc - made < 300)%Z then good
           else if bool_decide (sc - made < 2000)%Z then inaccuracy
           else blunder in
         if bool_decide (cls = best) && bool_decide (made > 1000)%Z
            && bool_decide (Z.abs (sc - made) < 10)%Z
         then brilliant else cls).
Proof.
  intros Hwf Hmoves Hin.
  assert (moves ≠ []) as Hne by (intros ->; by apply elem_of_nil in Hin).
  destruct (getBestMove_hard_maximal now random_index _ _ Hwf Hmoves Hne)
    as (top & sc & Hbest & Htop & Hsc & Hmax).
  destruct (Hmax _ Hin) as (made & Hmade & Hle).
  pose proof Hsc as Hsc'. pose proof Hmade as Hmade'.
  unfold moveScore in Hsc', Hmade'.
  apply bind_Ok in Hsc' as (afterBest & HafterBest & HscoreBest).
  apply bind_Ok in Hmade' as (afterMove & HafterMove & HscoreMade).
  eexists top, sc, made, _. split_and!; [done..| | |].
  - unfold analyzeMoveQuality. rewrite HafterMove. simpl. rewrite HscoreMade. simpl.
    rewrite Hbest. simpl. rewrite HafterBest. simpl. rewrite HscoreBest. simpl.
    reflexivity.
  - reflexivity.
  - reflexivity.
Qed.

(** X13. Grading a legal move on a position of nine sub-boards of nine
    cells succeeds and reports the move's own score.  The move is never
    scored above the ['hard'] recommendation, so the label follows the
    shortfall [sc - made]: below 50 it is [best] or [brilliant], from 50
    it is [good], from 300 [inaccuracy], from 2000 [blunder]; it is never
    [forced].  The recommendation itself is graded [best] or
    [brilliant]. *)
Theorem analyzeMoveQuality_grades (now : nat → float) (random_index : nat → nat)
    (previousState : GameState) (moves : list Move) (moveMade : Move) :
  wf_state previousState →
  getAvailableMoves previousState = Ok moves →
  moveMade ∈ moves →
  ∃ top sc made a,
    getBestMove now random_index previousState hard = Ok (Some (top, Some (Fin sc)))
    ∧ moveScore previousState (currentPlayer previousState) moveMade = Ok made
    ∧ analyzeMoveQuality now random_index previousState moveMade = Ok a
    ∧ score a = made
    ∧ (made ≤ sc)%Z
    ∧ ((sc - made < 50)%Z ↔ classification a = best ∨ classification a = brilliant)
    ∧ ((50 ≤ sc - made < 300)%Z ↔ classification a = good)
    ∧ ((300 ≤ sc - made < 2000)%Z ↔ classification a = inaccuracy)
    ∧ ((2000 ≤ sc - made)%Z ↔ classification a = blunder)
    ∧ classification a ≠ forced
    ∧ (moveMade = top → classification a = best ∨ classification a = brilliant).
Proof.
  intros Hwf Hmoves Hin.
  destruct (analyzeMoveQuality_eq now random_index _ _ _ Hwf Hmoves Hin)
    as (top & sc & made & a & Hbest & Hmade & Hsc & Hle & Ha & Hscore & Hcls).
  exists top, sc, made, a. split_and!; try done.
  all: rewrite Hcls; clear Hcls.
  all: assert (moveMade = top → sc = made) as Hsame
         by (intros ->; rewrite Hsc in Hmade; by injection Hmade).
  all: repeat case_bool_decide; simpl;
         intuition (first [lia | discriminate | congruence]).
Qed.

Lemma analyzeMoveQuality_grades_witness :
  wf_state replyState
  ∧ getAvailableMoves replyState = Ok (mv 0 <$> seq 0 9)
  ∧ mv 0 0 ∈ mv 0 <$> seq 0 9
  ∧ ∃ top sc made a,
      getBestMove (fun _ => 0%float) (fun _ => 0) replyState hard
      = Ok (Some (top, Some (Fin sc)))
      ∧ moveScore replyState (currentPlayer replyState) (mv 0 0) = Ok made
      ∧ analyzeMoveQuality (fun _ => 0%float) (fun _ => 0) replyState (mv 0 0) = Ok a
      ∧ score a = made
      ∧ (made ≤ sc)%Z
      ∧ ((sc - made < 50)%Z ↔ classification a = best ∨ classification a = brilliant)
      ∧ ((50 ≤ sc - made < 300)%Z ↔ classification a = good)
      ∧ ((300 ≤ sc - made < 2000)%Z ↔ classification a = inaccuracy)
      ∧ ((2000 ≤ sc - made)%Z ↔ classification a = blunder)
      ∧ classification a ≠ forced
      ∧ (mv 0 0 = top → classification a = best ∨ classification a = brilliant).
Proof.
  assert (wf_state replyState) as Hwf.
  { apply reachable_wf.
    apply (playLegal_reachable INITIAL_GAME_STATE _ [(4, 4); (4, 0)] (reachable_init None)).
    vm_compute. reflexivity. }
  assert (getAvailableMoves replyState = Ok (mv 0 <$> seq 0 9)) as Hmoves
    by (vm_compute; reflexivity).
  assert (mv 0 0 ∈ mv 0 <$> seq 0 9) as Hin by (vm_compute; left).
  split; [exact Hwf|]. split; [exact Hmoves|]. split; [exact Hin|].
  exact (analyzeMoveQuality_grades (fun _ => 0%float) (fun _ => 0) replyState
           (mv 0 <$> seq 0 9) (mv 0 0) Hwf Hmoves Hin).
Defined.

(** * Further properties: replaying a log, undo and redo *)

Lemma withDifficulty_same (state : GameState) :
  withDifficulty state (difficulty state) = state.
Proof. by destruct state. Qed.

Lemma makeMove_withDifficulty (state state' : GameState) (d : option Difficulty)
    (b c : nat) :
  makeMove state b c = Ok state' →
  makeMove (withDifficulty state d) b c = Ok (withDifficulty state' d).
Proof.
  unfold makeMove. intros H.
  apply bind_Ok in H as (board & Hboard & H).
  apply bind_Ok in H as (newCells & HnewCells & H).
  apply bind_Ok in H as (newMacro & HnewMacro & H).
  apply bind_Ok in H as (target & Htarget & H).
  injection H as <-.
  cbn [withDifficulty boards macroBoard activeBoard currentPlayer state_winner
       history difficulty lastMove].
  rewrite Hboard. simpl. rewrite HnewCells. simpl. rewrite HnewMacro. simpl.
  rewrite Htarget. reflexivity.
Qed.

Lemma reachable_withDifficulty (state : GameState) (d : option Difficulty) :
  reachable state → reachable (withDifficulty state d).
Proof.
  induction 1 as [d0 | s s' b c Hr IH Hlegal Hmove].
  - apply (reachable_init d).
  - eapply reachable_move; [exact IH | exact Hlegal |].
    by apply makeMove_withDifficulty.
Qed.

Lemma playLegal_app (state : GameState) (pre suf : list (nat * nat)) :
  playLegal state (pre ++ suf) = playLegal state pre ≫= fun s => playLegal s suf.
Proof.
  revert state. induction pre as [|[b c] pre IH]; intros state; simpl; [done|].
  destruct (isMoveValid state b c) as [[|]|]; [|done..].
  destruct (makeMove state b c) as [next|]; [apply IH | done].
Qed.

(** Every prefix of the log of a state of play replays, with any
    difficulty, to a state of play whose log is that prefix; the rest of
    the log is legal from there, move by move, and leads to the state. *)
Lemma reachable_prefix (state : GameState) :
  reachable state →
  ∀ (d : option Difficulty) (k : nat),
    ∃ s,
      reconstructGameState (take k (history state)) d = Ok s
      ∧ reachable s
      ∧ history s = take k (history state)
      ∧ difficulty s = d
      ∧ playLegal s (coordinates (drop k (history state))) = Some (withDifficulty state d)
      ∧ replayFrom s (drop k (history state)) = Ok (withDifficulty state d).
Proof.
  induction 1 as [d0 | state state' b c Hr IH Hlegal Hmove]; intros d k.
  - exists (withDifficulty INITIAL_GAME_STATE d).
    change (history (withDifficulty INITIAL_GAME_STATE d0)) with (@nil MoveHistory).
    rewrite take_nil, drop_nil. split_and!; try reflexivity. apply reachable_init.
  - destruct (makeMove_log _ _ _ _ Hmove) as (Hh & _ & _ & _).
    pose proof (makeMove_withDifficulty _ _ d _ _ Hmove) as Hmove'.
    rewrite Hh.
    destruct (decide (k ≤ length (history state))) as [Hk | Hk].
    + destruct (IH d k) as (s & Hs & Hrs & Hhs & Hds & Hplay & Hreplay).
      exists s. rewrite take_app_le, drop_app_le by done.
      split_and!; try done.
      * unfold coordinates. rewrite fmap_app. fold (coordinates (drop k (history state))).
        rewrite playLegal_app, Hplay. simpl.
        change (isMoveValid (withDifficulty state d) b c) with (isMoveValid state b c).
        by rewrite Hlegal, Hmove'.
      * rewrite replayFrom_app, Hreplay. simpl. by rewrite Hmove'.
    + destruct (IH d (length (history state))) as (s & Hs & Hrs & _ & _ & _ & Hreplay).
      rewrite drop_all in Hreplay. injection Hreplay as ->.
      rewrite firstn_all in Hs.
      exists (withDifficulty state' d).
      rewrite take_ge, drop_ge by (rewrite length_app; simpl; lia).
      split_and!; try reflexivity.
      * unfold reconstructGameState in *. rewrite replayFrom_app, Hs. simpl.
        by rewrite Hmove'.
      * eapply reachable_move; [exact Hrs | exact Hlegal | exact Hmove'].
      * simpl. by rewrite Hh.
Qed.

Lemma isMoveValid_available (state : GameState) (moves : list Move) (b c : nat) :
  wf_state state →
  getAvailableMoves state = Ok moves →
  isMoveValid state b c = Ok true →
  mv b c ∈ moves.
Proof.
  intros Hwf Hmoves Hlegal.
  destruct (isMoveValid_true _ _ _ Hlegal) as (_ & Hact & board & Hb & Hw & Hcell).
  destruct (wf_state_cells _ _ _ Hwf Hb) as [Hb9 Hlen].
  unfold getAvailableMoves in Hmoves.
  apply (collectMoves_elem _ _ _ (mv b c) Hmoves). unfold mv. cbn [boardIndex cellIndex].
  split.
  - destruct Hact as [-> | ->]; [|by apply list_elem_of_singleton].
    apply elem_of_seq. lia.
  - exists board. split_and!; try done. rewrite <- Hlen. by eapply lookup_lt_Some.
Qed.

(** X14. Reviewing a recorded game: every move of the log of a state of
    play can be graded.  The log before it replays to a state of play in
    which the logged player is to move and the logged move is legal, and
    the grade reports the score of that move and is never [forced]. *)
Theorem reviewMove_grades (now : nat → float) (random_index : nat → nat)
    (state : GameState) (index : nat) :
  reachable state →
  index < length (history state) →
  ∃ previousState moveMade a,
    reconstructGameState (take index (history state)) None = Ok previousState
    ∧ reachable previousState
    ∧ history state !! index = Some moveMade
    ∧ h_player moveMade = currentPlayer previousState
    ∧ isMoveValid previousState (h_boardIndex moveMade) (h_cellIndex moveMade) = Ok true
    ∧ reviewMove now random_index (history state) index = Ok a
    ∧ moveScore previousState (currentPlayer previousState)
        (mv (h_boardIndex moveMade) (h_cellIndex moveMade)) = Ok (score a)
    ∧ classification a ≠ forced.
Proof.
  intros Hr Hindex.
  destruct (lookup_lt_is_Some_2 _ _ Hindex) as [moveMade Hmove].
  destruct (reachable_prefix _ Hr None index) as (s & Hs & Hrs & Hhs & _ & Hplay & _).
  destruct (reachable_prefix _ Hr None (S index)) as (s' & Hs' & _ & Hhs' & _ & _ & _).
  rewrite (drop_S _ _ _ Hmove) in Hplay. simpl in Hplay.
  destruct (isMoveValid s (h_boardIndex moveMade) (h_cellIndex moveMade))
    as [[|]|] eqn:Hlegal; [|done..].
  destruct (makeMove s (h_boardIndex moveMade) (h_cellIndex moveMade))
    as [next|] eqn:Hnext; [|done].
  assert (h_player moveMade = currentPlayer s) as Hplayer.
  { rewrite (take_S_r _ _ _ Hmove) in Hs', Hhs'.
    unfold reconstructGameState in Hs, Hs'. rewrite replayFrom_app, Hs in Hs'.
    simpl in Hs'. rewrite Hnext in Hs'. injection Hs' as <-.
    destruct (makeMove_log _ _ _ _ Hnext) as (Hlog & _).
    rewrite Hlog, Hhs in Hhs'. apply app_inv_head in Hhs'.
    injection Hhs' as <-. reflexivity. }
  pose proof (reachable_wf _ Hrs) as Hwf.
  destruct (getAvailableMoves_Ok _ Hwf) as [moves Hmoves].
  pose proof (isMoveValid_available _ _ _ _ Hwf Hmoves Hlegal) as Hin.
  destruct (analyzeMoveQuality_eq now random_index _ _ _ Hwf Hmoves Hin)
    as (top & sc & made & a & _ & Hmade & _ & _ & Ha & Hscore & Hcls).
  exists s, moveMade, a. split_and!; try done.
  - unfold reviewMove. rewrite Hs. simpl. by rewrite Hmove.
  - by rewrite Hscore.
  - rewrite Hcls. repeat case_bool_decide; simpl; done.
Qed.

Lemma reviewMove_grades_witness :
  reachable (stateAfter openingGame)
  ∧ 3 < length (history (stateAfter openingGame))
  ∧ ∃ previousState moveMade a,
      reconstructGameState (take 3 (history (stateAfter openingGame))) None
      = Ok previousState
      ∧ reachable previousState
      ∧ history (stateAfter openingGame) !! 3 = Some moveMade
      ∧ h_player moveMade = currentPlayer previousState
      ∧ isMoveValid previousState (h_boardIndex moveMade) (h_cellIndex moveMade)
        = Ok true
      ∧ reviewMove (fun _ => 0%float) (fun _ => 0) (history (stateAfter openingGame)) 3
        = Ok a
      ∧ moveScore previousState (currentPlayer previousState)
          (mv (h_boardIndex moveMade) (h_cellIndex moveMade)) = Ok (score a)
      ∧ classification a ≠ forced.
Proof.
  assert (reachable (stateAfter openingGame)) as Hr.
  { apply (playLegal_reachable INITIAL_GAME_STATE _ openingGame (reachable_init None)).
    vm_compute. reflexivity. }
  assert (3 < length (history (stateAfter openingGame))) as Hindex
    by (vm_compute; lia).
  split; [exact Hr|]. split; [exact Hindex|].
  exact (reviewMove_grades (fun _ => 0%float) (fun _ => 0) (stateAfter openingGame) 3
           Hr Hindex).
Defined.

(** The loop of [handleUndo] takes the last [movesToUndo] entries off the
    log, as many as there are, and puts them in front of [removedMoves] in
    the order of play. *)
Lemma popMoves_spec (movesToUndo : nat) :
  ∀ currentHistory removedMoves,
    popMoves movesToUndo currentHistory removedMoves
    = (take (length currentHistory - movesToUndo) currentHistory,
       drop (length currentHistory - movesToUndo) currentHistory ++ removedMoves).
Proof.
  induction movesToUndo as [|n IH]; intros h r; simpl.
  - by rewrite Nat.sub_0_r, firstn_all, drop_all.
  - destruct (reverse h) as [|move before] eqn:E.
    + assert (h = []) as -> by (by apply (f_equal reverse) in E; rewrite reverse_involutive in E).
      rewrite IH. reflexivity.
    + assert (h = reverse before ++ [move]) as ->.
      { apply (f_equal reverse) in E. rewrite reverse_involutive in E.
        by rewrite E, reverse_cons. }
      rewrite IH, length_app. simpl.
      replace (length (reverse before) + 1 - S n) with (length (reverse before) - n) by lia.
      rewrite take_app_le, drop_app_le by lia.
      by rewrite <- app_assoc.
Qed.

(** X15. Undo, then redo.  Off line, with at least one move played: undo
    steps back one move (two against the computer when it is [X] to move
    and two were played) to a state of play and puts the moves taken back
    in front of the redo list; redoing as many moves restores the game and
    the redo list, with the statistics flag lowered. *)
Theorem handleUndo_handleRedo (app : AppState) :
  reachable (gameState app) →
  gameMode app ≠ Some online →
  history (gameState app) ≠ [] →
  let two := bool_decide (gameMode app = Some cpu)
             && bool_decide (currentPlayer (gameState app) = X)
             && bool_decide (2 ≤ length (history (gameState app))) in
  let n := if two then 2 else 1 in
  ∃ app1,
    handleUndo app = Ok app1
    ∧ reachable (gameState app1)
    ∧ history (gameState app1)
      = take (length (history (gameState app)) - n) (history (gameState app))
    ∧ undoneMoves app1
      = drop (length (history (gameState app)) - n) (history (gameState app))
        ++ undoneMoves app
    ∧ (if two then handleRedo app1 ≫= handleRedo else handleRedo app1)
      = Ok (setGame app (gameState app) (undoneMoves app) false).
Proof.
  intros Hr Hmode Hhist two n.
  assert (0 < length (history (gameState app))) as Hlen
    by (destruct (history (gameState app)); [done | simpl; lia]).
  assert (n ≤ length (history (gameState app)) ∧ (n = 1 ∨ n = 2)) as [Hn Hn12].
  { subst n two. repeat case_bool_decide; simpl; lia. }
  set (k := length (history (gameState app)) - n).
  destruct (reachable_prefix _ Hr (difficulty (gameState app)) k)
    as (s & Hs & Hrs & Hhs & Hds & _ & Hreplay).
  rewrite withDifficulty_same in Hreplay.
  assert (handleUndo app
          = Ok (setGame app s (drop k (history (gameState app)) ++ undoneMoves app) false))
    as Hundo.
  { unfold handleUndo.
    rewrite bool_decide_eq_false_2 by done.
    rewrite bool_decide_eq_false_2 by lia. simpl.
    fold two. fold n. rewrite popMoves_spec. fold k. rewrite app_nil_r.
    by rewrite Hs. }
  eexists. split; [exact Hundo|].
  cbn [setGame gameState undoneMoves].
  split_and!; [done..|].
  assert (length (drop k (history (gameState app))) = n) as Hdrop
    by (rewrite length_drop; lia).
  unfold handleRedo. cbn [setGame gameState undoneMoves gameMode statsRecorded].
  rewrite bool_decide_eq_false_2 by done.
  destruct (drop k (history (gameState app))) as [|e1 rest] eqn:E; [simpl in Hdrop; lia|].
  simpl. simpl in Hreplay.
  destruct (makeMove s (h_boardIndex e1) (h_cellIndex e1)) as [s1|] eqn:Hs1; [|done].
  simpl in Hreplay. rewrite drop_0. 
  destruct two; simpl.
  - assert (n = 2) as Hn2 by (by subst n).
    destruct rest as [|e2 [|]]; simpl in Hdrop; [lia| |lia].
    unfold handleRedo. cbn [setGame gameState undoneMoves gameMode statsRecorded].
    rewrite bool_decide_eq_false_2 by done. simpl.
    simpl in Hreplay.
    destruct (makeMove s1 (h_boardIndex e2) (h_cellIndex e2)) as [s2|]; [|done].
    simpl in Hreplay. injection Hreplay as ->. by rewrite drop_0.
  - assert (n = 1) as Hn1 by (by subst n).
    destruct rest as [|]; simpl in Hdrop; [|lia].
    simpl in Hreplay. by injection Hreplay as ->.
Qed.

Lemma handleUndo_handleRedo_witness :
  reachable (gameState cpuApp)
  ∧ gameMode cpuApp ≠ Some online
  ∧ history (gameState cpuApp) ≠ []
  ∧ (let two := bool_decide (gameMode cpuApp = Some cpu)
                && bool_decide (currentPlayer (gameState cpuApp) = X)
                && bool_decide (2 ≤ length (history (gameState cpuApp))) in
     let n := if two then 2 else 1 in
     ∃ app1,
       handleUndo cpuApp = Ok app1
       ∧ reachable (gameState app1)
       ∧ history (gameState app1)
         = take (length (history (gameState cpuApp)) - n) (history (gameState cpuApp))
       ∧ undoneMoves app1
         = drop (length (history (gameState cpuApp)) - n) (history (gameState cpuApp))
           ++ undoneMoves cpuApp
       ∧ (if two then handleRedo app1 ≫= handleRedo else handleRedo app1)
         = Ok (setGame cpuApp (gameState cpuApp) (undoneMoves cpuApp) false)).
Proof.
  assert (reachable (gameState cpuApp)) as Hr.
  { apply (playLegal_reachable INITIAL_GAME_STATE _ openingGame (reachable_init None)).
    vm_compute. reflexivity. }
  assert (gameMode cpuApp ≠ Some online) as Hmode by (vm_compute; discriminate).
  assert (history (gameState cpuApp) ≠ []) as Hhist by (vm_compute; discriminate).
  split; [exact Hr|]. split; [exact Hmode|]. split; [exact Hhist|].
  exact (handleUndo_handleRedo cpuApp Hr Hmode Hhist).
Defined.

Lemma isMoveValid_Ok (state : GameState) (b c : nat) :
  wf_state state → b < 9 → ∃ valid, isMoveValid state b c = Ok valid.
Proof.
  intros (Hlen & _) Hb. unfold isMoveValid.
  case_bool_decide; [by eexists|]. case_bool_decide; [by eexists|].
  destruct (lookup_lt_is_Some_2 (boards state) b) as [board ->]; [lia|]. simpl.
  case_bool_decide; [by eexists|]. case_bool_decide; by eexists.
Qed.

(** X16. What the handlers keep.  When the game shown is a state of play
    and the moves kept for redo can be played from it, each legal in its
    turn, then a move on one of the nine sub-boards (made here, or received
    while nothing is kept for redo), undo, redo and restart all run without
    an error and leave the game and the redo list so again. *)
Theorem handlers_keep_app_inv (app : AppState) :
  app_inv app →
  (∀ b c isRemote,
      b < 9 →
      isRemote = false ∨ undoneMoves app = [] →
      ∃ app' sent, handleMove app b c isRemote = Ok (app', sent) ∧ app_inv app')
  ∧ (∃ app', handleUndo app = Ok app' ∧ app_inv app')
  ∧ (∃ app', handleRedo app = Ok app' ∧ app_inv app')
  ∧ app_inv (handleRestart app).1.
Proof.
  intros Hinv. pose proof Hinv as [Hr Hredo]. split_and!.
  - intros b c isRemote Hb Hundone. unfold handleMove.
    case_bool_decide; [by eexists _, _|].
    destruct (_ && _ && _); [by eexists _, _|].
    destruct (isMoveValid_Ok _ b c (reachable_wf _ Hr) Hb) as [valid Hvalid].
    rewrite Hvalid. simpl. destruct valid; simpl; [|by eexists _, _].
    destruct (reachable_makeMove_Ok _ _ _ Hr Hvalid) as (state' & -> & Hr').
    simpl. eexists _, _. split; [reflexivity|].
    split; cbn [setGame gameState undoneMoves]; [done|].
    assert ((if negb isRemote then [] else undoneMoves app) = []) as ->
      by (by destruct Hundone as [-> | ->]; [|destruct (negb isRemote)]).
    by eexists.
  - unfold handleUndo. destruct (_ || _) eqn:Hskip; [by eexists|].
    apply orb_false_iff in Hskip as [_ Hlen%bool_decide_eq_false].
    rewrite popMoves_spec, app_nil_r.
    set (k := length (history (gameState app)) - _).
    destruct (reachable_prefix _ Hr (difficulty (gameState app)) k)
      as (s & Hs & Hrs & _ & _ & Hplay & _).
    rewrite withDifficulty_same in Hplay.
    rewrite Hs. simpl. eexists. split; [reflexivity|].
    split; cbn [setGame gameState undoneMoves]; [done|].
    unfold coordinates. rewrite fmap_app.
    fold (coordinates (drop k (history (gameState app)))).
    fold (coordinates (undoneMoves app)).
    by rewrite playLegal_app, Hplay.
  - unfold handleRedo. destruct (_ || _) eqn:Hskip; [by eexists|].
    destruct (undoneMoves app) as [|move rest] eqn:Hundone.
    { apply orb_false_iff in Hskip as [_ Hlen%bool_decide_eq_false].
      done. }
    simpl in Hredo. simpl. rewrite drop_0.
    destruct (isMoveValid (gameState app) (h_boardIndex move) (h_cellIndex move))
      as [[|]|] eqn:Hlegal; try (by destruct Hredo).
    destruct (makeMove (gameState app) (h_boardIndex move) (h_cellIndex move))
      as [state'|] eqn:Hmove; [|by destruct Hredo].
    simpl. eexists. split; [reflexivity|].
    split; cbn [setGame gameState undoneMoves]; [|done].
    by eapply reachable_move.
  - unfold handleRestart. case_bool_decide.
    + destruct (hasPeerService app); [|done].
      split; cbn [fst setGame gameState undoneMoves].
      * exact (reachable_init None).
      * by eexists.
    + split; cbn [fst setGame gameState undoneMoves].
      * apply reachable_init.
      * by eexists.
Qed.

Lemma handlers_keep_app_inv_witness :
  app_inv cpuApp
  ∧ (∀ b c isRemote,
        b < 9 →
        isRemote = false ∨ undoneMoves cpuApp = [] →
        ∃ app' sent, handleMove cpuApp b c isRemote = Ok (app', sent) ∧ app_inv app')
  ∧ (∃ app', handleUndo cpuApp = Ok app' ∧ app_inv app')
  ∧ (∃ app', handleRedo cpuApp = Ok app' ∧ app_inv app')
  ∧ app_inv (handleRestart cpuApp).1.
Proof.
  assert (app_inv cpuApp) as Hinv.
  { split.
    - apply (playLegal_reachable INITIAL_GAME_STATE _ openingGame (reachable_init None)).
      vm_compute. reflexivity.
    - exists (stateAfter openingGame). reflexivity. }
  split; [exact Hinv|].
  exact (handlers_keep_app_inv cpuApp Hinv).
Defined.

(** * Further properties: the cut-off of the search *)

Lemma num_eq_leb (a b : num) : a = b ↔ num_leb a b = true ∧ num_leb b a = true.
Proof.
  split; [intros ->; destruct b; simpl; split; try done; apply Z.leb_refl|].
  destruct a, b; simpl; intros [H1 H2]; try done.
  f_equal. apply Z.leb_le in H1, H2. lia.
Qed.

Ltac num_order :=
  unfold num_max, num_min, num_gtb in *;
  repeat match goal with
         | H : context [if num_leb ?a ?b then _ else _] |- _ =>
             let E := fresh "E" in destruct (num_leb a b) eqn:E
         | |- context [if num_leb ?a ?b then _ else _] =>
             let E := fresh "E" in destruct (num_leb a b) eqn:E
         end;
  repeat match goal with
         | H : context [@eq num _ _] |- _ => setoid_rewrite num_eq_leb in H
         end;
  rewrite ?num_eq_leb;
  repeat match goal with
         | n : num |- _ => destruct n; simpl in *; try done
         end;
  try lia.

(** The steps of the two loops of [minimax], on the order of scores
    alone: [m1] is the full value of the move searched and [ze] what the
    search returned for it, [T'] the best full value of the moves still to
    come. *)
Lemma max_break (a beta M m1 T' : num) (ze : Z) :
  num_leb beta a = false → num_leb M a = true →
  (num_leb (Fin ze) a = true → num_leb m1 (Fin ze) = true) →
  (num_leb beta (Fin ze) = true → num_leb (Fin ze) m1 = true) →
  (num_leb (Fin ze) a = false → num_leb beta (Fin ze) = false → m1 = Fin ze) →
  num_leb beta (num_max a (Fin ze)) = true →
  num_leb M (num_max M (Fin ze)) = true
  ∧ (num_leb (num_max M (Fin ze)) a = true
     → num_leb (num_max m1 T') (num_max M (Fin ze)) = true)
  ∧ (num_leb beta (num_max M (Fin ze)) = true
     → num_leb (num_max M (Fin ze)) (num_max m1 T') = true)
  ∧ (num_leb (num_max M (Fin ze)) a = false → num_leb beta (num_max M (Fin ze)) = false
     → num_max m1 T' = num_max M (Fin ze)).
Proof. intros. num_order. Qed.

Lemma max_continue (a beta M m1 T' res : num) (ze : Z) :
  num_leb beta a = false → num_leb M a = true →
  (num_leb (Fin ze) a = true → num_leb m1 (Fin ze) = true) →
  (num_leb beta (Fin ze) = true → num_leb (Fin ze) m1 = true) →
  (num_leb (Fin ze) a = false → num_leb beta (Fin ze) = false → m1 = Fin ze) →
  num_leb beta (num_max a (Fin ze)) = false →
  num_leb (num_max M (Fin ze)) res = true →
  (num_leb res (num_max a (Fin ze)) = true → num_leb T' res = true) →
  (num_leb beta res = true → num_leb res T' = true) →
  (num_leb res (num_max a (Fin ze)) = false → num_leb beta res = false → T' = res) →
  num_leb M res = true
  ∧ (num_leb res a = true → num_leb (num_max m1 T') res = true)
  ∧ (num_leb beta res = true → num_leb res (num_max m1 T') = true)
  ∧ (num_leb res a = false → num_leb beta res = false → num_max m1 T' = res).
Proof. intros. num_order. Qed.

Lemma min_break (alpha b M m1 T' : num) (ze : Z) :
  num_leb b alpha = false → num_leb b M = true →
  (num_leb (Fin ze) alpha = true → num_leb m1 (Fin ze) = true) →
  (num_leb b (Fin ze) = true → num_leb (Fin ze) m1 = true) →
  (num_leb (Fin ze) alpha = false → num_leb b (Fin ze) = false → m1 = Fin ze) →
  num_leb (num_min b (Fin ze)) alpha = true →
  num_leb (num_min M (Fin ze)) M = true
  ∧ (num_leb (num_min M (Fin ze)) alpha = true
     → num_leb (num_min m1 T') (num_min M (Fin ze)) = true)
  ∧ (num_leb b (num_min M (Fin ze)) = true
     → num_leb (num_min M (Fin ze)) (num_min m1 T') = true)
  ∧ (num_leb (num_min M (Fin ze)) alpha = false → num_leb b (num_min M (Fin ze)) = false
     → num_min m1 T' = num_min M (Fin ze)).
Proof. intros. num_order. Qed.

Lemma min_continue (alpha b M m1 T' res : num) (ze : Z) :
  num_leb b alpha = false → num_leb b M = true →
  (num_leb (Fin ze) alpha = true → num_leb m1 (Fin ze) = true) →
  (num_leb b (Fin ze) = true → num_leb (Fin ze) m1 = true) →
  (num_leb (Fin ze) alpha = false → num_leb b (Fin ze) = false → m1 = Fin ze) →
  num_leb (num_min b (Fin ze)) alpha = false →
  num_leb res (num_min M (Fin ze)) = true →
  (num_leb res alpha = true → num_leb T' res = true) →
  (num_leb (num_min b (Fin ze)) res = true → num_leb res T' = true) →
  (num_leb res alpha = false → num_leb (num_min b (Fin ze)) res = false → T' = res) →
  num_leb res M = true
  ∧ (num_leb res alpha = true → num_leb (num_min m1 T') res = true)
  ∧ (num_leb b res = true → num_leb res (num_min m1 T') = true)
  ∧ (num_leb res alpha = false → num_leb b res = false → num_min m1 T' = res).
Proof. intros. num_order. Qed.

Lemma mapResult_cons {A B} (f : A → result B) (a : A) (rest : list A) (bs : list B) :
  mapResult f (a :: rest) = Ok bs →
  ∃ b bs', f a = Ok b ∧ mapResult f rest = Ok bs' ∧ bs = b :: bs'.
Proof.
  simpl. intros H.
  apply bind_Ok in H as (b & Hb & H). apply bind_Ok in H as (bs' & Hbs' & H).
  injection H as <-. by exists b, bs'.
Qed.

(** The cut-off is sound.  Searched with a window [alpha < beta],
    [minimax] returns the full value when its result is inside the window,
    a bound from above when it is at or below [alpha], and a bound from
    below when it is at or above [beta]. *)
Lemma minimax_window (now : nat → float) (depth : nat) :
  ∀ state alpha beta isMaximizing aiPlayer startTime k v k' m,
    minimax now depth state alpha beta isMaximizing aiPlayer startTime k = Ok (v, k') →
    fullMinimax depth state isMaximizing aiPlayer = Ok m →
    num_leb beta alpha = false →
    (num_leb v alpha = true → num_leb m v = true)
    ∧ (num_leb beta v = true → num_leb v m = true)
    ∧ (num_leb v alpha = false → num_leb beta v = false → m = v).
Proof.
  assert (∀ (x : Z) (alpha beta : num),
            (num_leb (Fin x) alpha = true → num_leb (Fin x) (Fin x) = true)
            ∧ (num_leb beta (Fin x) = true → num_leb (Fin x) (Fin x) = true)
            ∧ (num_leb (Fin x) alpha = false → num_leb beta (Fin x) = false
               → Fin x = Fin x)) as Hexact.
  { intros x alpha beta. unfold num_leb. rewrite Z.leb_refl. by destruct alpha, beta. }
  induction depth as [|depth IH];
    intros state alpha beta isMaximizing aiPlayer startTime k v k' m H Hfull Hwin;
    minimax_enter H; cbn [fullMinimax] in Hfull;
    (case_bool_decide;
     [apply tret_Ok in H as [-> _]; injection Hfull as <-; apply Hexact|]);
    (case_bool_decide;
     [apply tret_Ok in H as [-> _]; injection Hfull as <-; apply Hexact|]);
    (case_bool_decide;
     [apply tret_Ok in H as [-> _]; injection Hfull as <-; apply Hexact|]).
  - apply tbind_Ok in H as (z & k2 & [Hz _]%tlift_Ok & H).
    apply tret_Ok in H as [-> _].
    apply bind_Ok in Hfull as (z' & Hz' & Hfull). injection Hfull as <-.
    rewrite Hz in Hz'. injection Hz' as <-. apply Hexact.
  - apply tbind_Ok in H as (moves & k2 & [Hmoves _]%tlift_Ok & H).
    apply bind_Ok in Hfull as (moves' & Hmoves' & Hfull).
    rewrite Hmoves in Hmoves'. injection Hmoves' as <-.
    case_bool_decide as Hlen;
      [apply tret_Ok in H as [-> _]; injection Hfull as <-; apply Hexact|].
    apply bind_Ok in Hfull as (scores & Hscores & Hm). injection Hm as <-.
    clear Hexact.
    destruct isMaximizing; cbn [negb] in Hscores.
    + match type of H with
      | ?F moves alpha NegInf _ = _ =>
          assert (∀ ms a M kk res kk' ss,
                    mapResult
                      (fun move =>
                         nextState ← makeMove state (boardIndex move) (cellIndex move);
                         fullMinimax depth nextState false aiPlayer) ms = Ok ss →
                    num_leb beta a = false → num_leb M a = true →
                    F ms a M kk = Ok (res, kk') →
                    num_leb M res = true
                    ∧ (num_leb res a = true → num_leb (foldr num_max NegInf ss) res = true)
                    ∧ (num_leb beta res = true
                       → num_leb res (foldr num_max NegInf ss) = true)
                    ∧ (num_leb res a = false → num_leb beta res = false
                       → foldr num_max NegInf ss = res)) as Hloop
      end.
      { clear H Hscores scores Hlen Hmoves moves Hwin.
        induction ms as [|mv0 ms IHms]; intros a M kk res kk' ss Hss Hab HMa Hres;
          cbn beta iota in Hres.
        - injection Hss as <-. apply tret_Ok in Hres as [-> _]. cbn [foldr].
          clear IH. num_order.
        - apply mapResult_cons in Hss as (m1 & ss' & Hm1 & Hss' & ->).
          apply bind_Ok in Hm1 as (next & Hnext & Hm1).
          apply tbind_Ok in Hres as (next' & k3 & [Hnext' _]%tlift_Ok & Hres).
          rewrite Hnext in Hnext'. injection Hnext' as <-.
          apply tbind_Ok in Hres as (ev & k4 & Hev & Hres).
          destruct (minimax_finite _ _ _ _ _ _ _ _ _ _ _ Hev) as [ze ->].
          destruct (IH _ _ _ _ _ _ _ _ _ _ Hev Hm1 Hab) as (Hc1 & Hc2 & Hc3).
          cbn [foldr]. cbn zeta in Hres.
          destruct (num_leb beta (num_max a (Fin ze))) eqn:Hbreak.
          + apply tret_Ok in Hres as [-> _]. by apply max_break.
          + assert (num_leb (num_max M (Fin ze)) (num_max a (Fin ze)) = true) as HMa'
              by (clear -HMa; num_order).
            destruct (IHms _ _ _ _ _ _ Hss' Hbreak HMa' Hres) as (Hl0 & Hl1 & Hl2 & Hl3).
            by apply (max_continue a beta M m1 _ res ze). }
      destruct (Hloop _ _ NegInf _ _ _ _ Hscores Hwin eq_refl H) as (_ & Hbounds).
      exact Hbounds.
    + match type of H with
      | ?F moves beta PosInf _ = _ =>
          assert (∀ ms b M kk res kk' ss,
                    mapResult
                      (fun move =>
                         nextState ← makeMove state (boardIndex move) (cellIndex move);
                         fullMinimax depth nextState true aiPlayer) ms = Ok ss →
                    num_leb b alpha = false → num_leb b M = true →
                    F ms b M kk = Ok (res, kk') →
                    num_leb res M = true
                    ∧ (num_leb res alpha = true
                       → num_leb (foldr num_min PosInf ss) res = true)
                    ∧ (num_leb b res = true → num_leb res (foldr num_min PosInf ss) = true)
                    ∧ (num_leb res alpha = false → num_leb b res = false
                       → foldr num_min PosInf ss = res)) as Hloop
      end.
      { clear H Hscores scores Hlen Hmoves moves Hwin.
        induction ms as [|mv0 ms IHms]; intros b M kk res kk' ss Hss Hab HMb Hres;
          cbn beta iota in Hres.
        - injection Hss as <-. apply tret_Ok in Hres as [-> _]. cbn [foldr].
          clear IH. num_order.
        - apply mapResult_cons in Hss as (m1 & ss' & Hm1 & Hss' & ->).
          apply bind_Ok in Hm1 as (next & Hnext & Hm1).
          apply tbind_Ok in Hres as (next' & k3 & [Hnext' _]%tlift_Ok & Hres).
          rewrite Hnext in Hnext'. injection Hnext' as <-.
          apply tbind_Ok in Hres as (ev & k4 & Hev & Hres).
          destruct (minimax_finite _ _ _ _ _ _ _ _ _ _ _ Hev) as [ze ->].
          destruct (IH _ _ _ _ _ _ _ _ _ _ Hev Hm1 Hab) as (Hc1 & Hc2 & Hc3).
          cbn [foldr]. cbn zeta in Hres.
          destruct (num_leb (num_min b (Fin ze)) alpha) eqn:Hbreak.
          + apply tret_Ok in Hres as [-> _]. by apply min_break.
          + assert (num_leb (num_min b (Fin ze)) (num_min M (Fin ze)) = true) as HMb'
              by (clear -HMb; num_order).
            destruct (IHms _ _ _ _ _ _ Hss' Hbreak HMb' Hres) as (Hl0 & Hl1 & Hl2 & Hl3).
            by apply (min_continue alpha b M m1 _ res ze). }
      assert (num_leb beta PosInf = true) as Htop by (by destruct beta).
      destruct (Hloop _ _ PosInf _ _ _ _ Hscores Hwin Htop H) as (_ & Hbounds).
      exact Hbounds.
Qed.

Lemma mapResult_Ok {A B} (f : A → result B) (l : list A) :
  (∀ a, a ∈ l → ∃ b, f a = Ok b) → ∃ bs, mapResult f l = Ok bs.
Proof.
  induction l as [|a rest IH]; intros Hall; simpl; [by eexists|].
  destruct (Hall a) as [b ->]; [left|]. simpl.
  destruct IH as [bs ->]; [intros a' Ha'; apply Hall; by right|].
  by eexists.
Qed.

Lemma makeMove_available_Ok (state : GameState) (moves : list Move) (move : Move) :
  wf_state state →
  getAvailableMoves state = Ok moves →
  move ∈ moves →
  ∃ next, makeMove state (boardIndex move) (cellIndex move) = Ok next ∧ wf_state next.
Proof.
  intros Hwf Hmoves Hin.
  destruct (getAvailableMoves_elem _ _ _ Hmoves Hin) as (_ & Hc & board & Hb & _ & _).
  destruct (makeMove_eq _ _ _ _ Hwf Hb Hc) as (target & _ & Heq).
  eexists. split; [exact Heq|]. eapply wf_state_makeMove; [exact Hwf | exact Heq].
Qed.

(** The full search of a position of nine sub-boards of nine cells has a
    value. *)
Lemma fullMinimax_Ok (depth : nat) :
  ∀ state isMaximizing aiPlayer,
    wf_state state → ∃ m, fullMinimax depth state isMaximizing aiPlayer = Ok m.
Proof.
  induction depth as [|depth IH]; intros state isMaximizing aiPlayer Hwf; simpl;
    (case_bool_decide; [by eexists|]);
    (case_bool_decide; [by eexists|]);
    (case_bool_decide; [by eexists|]).
  - destruct (evaluateStateAdvanced_Ok state aiPlayer Hwf) as [z ->]. by eexists.
  - destruct (getAvailableMoves_Ok _ Hwf) as [moves Hmoves]. rewrite Hmoves. simpl.
    case_bool_decide; [by eexists|].
    match goal with
    | |- context [mapResult ?f moves] => destruct (mapResult_Ok f moves) as [scores ->]
    end.
    + intros move Hin.
      destruct (makeMove_available_Ok _ _ _ Hwf Hmoves Hin) as (next & -> & Hnext).
      simpl. by apply IH.
    + by eexists.
Qed.

Lemma moveValue_Ok (depth : nat) (state : GameState) (aiPlayer : Player)
    (moves : list Move) (move : Move) :
  wf_state state →
  getAvailableMoves state = Ok moves →
  move ∈ moves →
  ∃ v, moveValue depth state aiPlayer move = Ok v.
Proof.
  intros Hwf Hmoves Hin. unfold moveValue.
  destruct (makeMove_available_Ok _ _ _ Hwf Hmoves Hin) as (next & -> & Hnext).
  simpl. by apply fullMinimax_Ok.
Qed.

(** A pass over the moves at the root, from a best score equal to
    [alpha]: the score it ends with is at least the full value of every
    move searched, and the move it ends with has that value, unless
    neither changed. *)
Lemma rootLoop_exact (now : nat → float) (state : GameState) (depth : nat)
    (aiPlayer : Player) (startTime : float) (sortedMoves : list Move) :
  ∀ a currentBestMove k sc r k',
    a ≠ PosInf →
    (∀ m, m ∈ sortedMoves → ∃ v, moveValue depth state aiPlayer m = Ok v) →
    rootLoop now state depth aiPlayer startTime sortedMoves a PosInf a currentBestMove k
    = Ok ((sc, r), k') →
    num_leb a sc = true
    ∧ (∀ m, m ∈ sortedMoves →
         ∃ v, moveValue depth state aiPlayer m = Ok v ∧ num_leb v sc = true)
    ∧ ((sc = a ∧ r = currentBestMove)
       ∨ ∃ m, r = Some m ∧ m ∈ sortedMoves
              ∧ moveValue depth state aiPlayer m = Ok sc
              ∧ num_leb sc a = false).
Proof.
  induction sortedMoves as [|move rest IH]; intros a cbm k sc r k' Ha Hvals H;
    simpl in H.
  - injection H as <- <- _. split_and!.
    + clear. num_order.
    + intros m Hm. by apply elem_of_nil in Hm.
    + by left.
  - destruct (Hvals move) as [v1 Hv1]; [left|].
    pose proof Hv1 as Hv1'. unfold moveValue in Hv1'.
    apply bind_Ok in Hv1' as (next & Hnext & Hfull).
    unfold tbind, tlift in H. rewrite Hnext in H.
    destruct (minimax now (depth - 1) next a PosInf false aiPlayer startTime k)
      as [[score k1]|] eqn:Hscore; [|done].
    destruct (minimax_finite _ _ _ _ _ _ _ _ _ _ _ Hscore) as [ze ->].
    assert (num_leb PosInf a = false) as Hwin by (by destruct a).
    destruct (minimax_window _ _ _ _ _ _ _ _ _ _ _ _ Hscore Hfull Hwin)
      as (Hc1 & _ & Hc3).
    assert (∀ m, m ∈ rest → ∃ v, moveValue depth state aiPlayer m = Ok v) as Hrest
      by (intros m Hm; apply Hvals; by right).
    destruct (num_gtb (Fin ze) a) eqn:Hgt.
    + assert (num_max a (Fin ze) = Fin ze) as Hmax by (clear -Hgt; num_order).
      rewrite Hmax in H. simpl in H.
      assert (v1 = Fin ze) as ->.
      { apply Hc3; [|done]. clear -Hgt. unfold num_gtb in Hgt.
        by apply negb_true_iff in Hgt. }
      destruct (IH (Fin ze) _ _ _ _ _ ltac:(done) Hrest H) as (Hle & Hall & Hcase).
      split_and!.
      * clear -Hle Hgt. num_order.
      * intros m Hm. apply elem_of_cons in Hm as [-> | Hm]; [|by apply Hall].
        by exists (Fin ze).
      * right. destruct Hcase as [[-> ->] | (m & -> & Hm & Hval & Hlt)].
        -- exists move. split_and!; [done | left | done |].
           clear -Hgt. unfold num_gtb in Hgt. by apply negb_true_iff in Hgt.
        -- exists m. split_and!; [done | by right | done |].
           clear -Hlt Hgt. num_order.
    + assert (num_leb (Fin ze) a = true) as Hle1
        by (clear -Hgt; unfold num_gtb in Hgt; by apply negb_false_iff in Hgt).
      assert (num_max a (Fin ze) = a) as Hmax by (clear -Hle1; num_order).
      rewrite Hmax in H.
      assert (match a with PosInf => true | _ => false end = false) as Hopen
        by (by destruct a).
      rewrite Hopen in H.
      destruct (IH a _ _ _ _ _ Ha Hrest H) as (Hle & Hall & Hcase).
      split_and!; [done| |].
      * intros m Hm. apply elem_of_cons in Hm as [-> | Hm]; [|by apply Hall].
        exists v1. split; [done|]. specialize (Hc1 Hle1).
        clear -Hc1 Hle1 Hle. num_order.
      * destruct Hcase as [[-> ->] | (m & -> & Hm & Hval & Hlt)]; [by left|].
        right. exists m. split_and!; [done | by right | done | done].
Qed.

(** A completed depth returns a move of greatest full value, and that
    value. *)
Lemma searchDepth_exact (now : nat → float) (state : GameState) (depth : nat)
    (aiPlayer : Player) (startTime : float) (sortedMoves : list Move) (k k' : nat)
    (sc : num) (r : option Move) :
  sortedMoves ≠ [] →
  (∀ m, m ∈ sortedMoves → ∃ v, moveValue depth state aiPlayer m = Ok v) →
  searchDepth now state depth aiPlayer startTime sortedMoves k = Ok (Completed sc r, k') →
  ∃ m, r = Some m ∧ m ∈ sortedMoves
       ∧ moveValue depth state aiPlayer m = Ok sc
       ∧ ∀ m', m' ∈ sortedMoves →
           ∃ v, moveValue depth state aiPlayer m' = Ok v ∧ num_leb v sc = true.
Proof.
  intros Hne Hvals. unfold searchDepth, tbind, performance_now, tret.
  destruct (overBudget _ _); [done|].
  destruct (rootLoop _ _ _ _ _ _ _ _ _ _ _) as [[[sc' r'] k1]|] eqn:E; [|done].
  simpl. intros [= <- <- _].
  destruct (rootLoop_finite _ _ _ _ _ _ _ _ _ _ _ _ _ _ (or_introl (conj Hne eq_refl)) E)
    as [z ->].
  assert (NegInf ≠ PosInf) as Hopen by done.
  destruct (rootLoop_exact _ _ _ _ _ _ _ _ _ _ _ _ Hopen Hvals E)
    as (_ & Hall & [[? _] | (m & -> & Hm & Hval & _)]); [done|].
  by exists m.
Qed.

(** The deepening loop, started on a list that holds exactly the legal
    moves: it ends as it started, or with the outcome of one of the
    depths it went through. *)
Lemma deepen_exact (now : nat → float) (state : GameState) (aiPlayer : Player)
    (startTime : float) (moves : list Move) (remaining : nat) :
  wf_state state →
  getAvailableMoves state = Ok moves →
  ∀ depth sortedMoves bestScore bestMove k sc r,
    sortedMoves ≠ [] →
    (∀ m, m ∈ sortedMoves ↔ m ∈ moves) →
    deepen now remaining state depth aiPlayer startTime sortedMoves bestScore bestMove k
    = (sc, r) →
    (sc = bestScore ∧ r = bestMove)
    ∨ ∃ d m, depth ≤ d < depth + remaining
             ∧ r = Some m ∧ m ∈ moves
             ∧ moveValue d state aiPlayer m = Ok sc
             ∧ ∀ m', m' ∈ moves →
                 ∃ v, moveValue d state aiPlayer m' = Ok v ∧ num_leb v sc = true.
Proof.
  intros Hwf Hmoves.
  induction remaining as [|remaining IH];
    intros depth sortedMoves bestScore bestMove k sc r Hne Hsame H; simpl in H.
  - injection H as <- <-. by left.
  - destruct (searchDepth now state depth aiPlayer startTime sortedMoves k)
      as [[[|cs cm] k']|] eqn:E.
    + injection H as <- <-. by left.
    + assert (∀ m, m ∈ sortedMoves → ∃ v, moveValue depth state aiPlayer m = Ok v)
        as Hvals.
      { intros m Hm. eapply moveValue_Ok; [done..|]. by apply Hsame. }
      destruct (searchDepth_exact _ _ _ _ _ _ _ _ _ _ Hne Hvals E)
        as (top & -> & Htop & Hval & Hall).
      apply IH in H; [|done|].
      * right. destruct H as [[-> ->] | (d & m & Hd & -> & Hm & Hvalm & Hallm)].
        -- exists depth, top. split_and!; [lia | lia | done | by apply Hsame | done |].
           intros m' Hm'. apply Hall. by apply Hsame.
        -- exists d, m. split_and!; [lia | lia | done..].
      * intros m. rewrite <- Hsame. split.
        -- intros Hm. apply elem_of_cons in Hm as [-> | Hm]; [done|].
           by apply list_elem_of_filter in Hm as [_ Hm].
        -- intros Hm.
           destruct (decide (boardIndex m ≠ boardIndex top ∨ cellIndex m ≠ cellIndex top))
             as [Hdiff | Hequal].
           ++ right. by apply list_elem_of_filter.
           ++ assert (m = top) as ->; [|left].
              destruct m as [mb mc], top as [tb tc]. simpl in Hequal.
              destruct (decide (mb = tb)) as [-> | ?]; [|by destruct Hequal; left].
              destruct (decide (mc = tc)) as [-> | ?]; [done | by destruct Hequal; right].
    + injection H as <- <-. by left.
Qed.

(** X17. The time-bounded tier plays minimax.  On a position of nine
    sub-boards of nine cells, the move it returns is [moves[0]] with
    score [-Infinity] when no depth was completed; otherwise, for the
    last depth [d] completed (between 1 and [MAX_DEPTH_IMPOSSIBLE]), the
    score is the value that a full search of depth [d], without cut-off,
    gives the move returned, and no legal move has a greater one. *)
Theorem getImpossibleMove_exact (now : nat → float) (state : GameState)
    (moves : list Move) (bestMove : option Move) (bestScore : num) :
  wf_state state →
  getAvailableMoves state = Ok moves →
  moves ≠ [] →
  getImpossibleMove now state moves = Ok (bestMove, bestScore) →
  (bestScore = NegInf ∧ bestMove = head moves)
  ∨ ∃ d m,
      1 ≤ d ≤ MAX_DEPTH_IMPOSSIBLE
      ∧ bestMove = Some m ∧ m ∈ moves
      ∧ moveValue d state (currentPlayer state) m = Ok bestScore
      ∧ ∀ m', m' ∈ moves →
          ∃ v, moveValue d state (currentPlayer state) m' = Ok v
               ∧ num_leb v bestScore = true.
Proof.
  unfold getImpossibleMove. intros Hwf Hmoves Hne H.
  apply bind_Ok in H as (sorted & Hsorted & H).
  apply orderMoves_Permutation in Hsorted.
  destruct (deepen _ _ _ _ _ _ _ _ _ _) as [bs bm] eqn:E.
  injection H as <- <-.
  assert (sorted ≠ []) as Hne'.
  { intros ->. by apply Permutation_nil_l in Hsorted. }
  assert (∀ m, m ∈ sorted ↔ m ∈ moves) as Hsame by (intros m; by rewrite Hsorted).
  destruct (deepen_exact _ _ _ _ _ _ Hwf Hmoves _ _ _ _ _ _ _ Hne' Hsame E)
    as [[-> ->] | (d & m & Hd & -> & Hm & Hval & Hall)].
  - by left.
  - right. exists d, m. split_and!; [lia | | done..].
    unfold MAX_DEPTH_IMPOSSIBLE in *. lia.
Qed.

Lemma getImpossibleMove_exact_witness :
  wf_state replyState
  ∧ getAvailableMoves replyState = Ok (mv 0 <$> seq 0 9)
  ∧ mv 0 <$> seq 0 9 ≠ []
  ∧ getImpossibleMove (fun k => msec (10 * Z.of_nat k)) replyState (mv 0 <$> seq 0 9)
    = Ok (Some (mv 0 1), Fin 27)
  ∧ ((Fin 27 = NegInf ∧ Some (mv 0 1) = head (mv 0 <$> seq 0 9))
     ∨ ∃ d m,
         1 ≤ d ≤ MAX_DEPTH_IMPOSSIBLE
         ∧ Some (mv 0 1) = Some m ∧ m ∈ mv 0 <$> seq 0 9
         ∧ moveValue d replyState (currentPlayer replyState) m = Ok (Fin 27)
         ∧ ∀ m', m' ∈ mv 0 <$> seq 0 9 →
             ∃ v, moveValue d replyState (currentPlayer replyState) m' = Ok v
                  ∧ num_leb v (Fin 27) = true).
Proof.
  assert (wf_state replyState) as Hwf.
  { apply reachable_wf.
    apply (playLegal_reachable INITIAL_GAME_STATE _ [(4, 4); (4, 0)] (reachable_init None)).
    vm_compute. reflexivity. }
  assert (getAvailableMoves replyState = Ok (mv 0 <$> seq 0 9)) as Hmoves
    by (vm_compute; reflexivity).
  assert (mv 0 <$> seq 0 9 ≠ []) as Hne by done.
  assert (getImpossibleMove (fun k => msec (10 * Z.of_nat k)) replyState
            (mv 0 <$> seq 0 9) = Ok (Some (mv 0 1), Fin 27)) as Hrun
    by (vm_compute; reflexivity).
  split; [exact Hwf|]. split; [exact Hmoves|]. split; [exact Hne|]. split; [exact Hrun|].
  exact (getImpossibleMove_exact (fun k => msec (10 * Z.of_nat k)) replyState
           (mv 0 <$> seq 0 9) (Some (mv 0 1)) (Fin 27) Hwf Hmoves Hne Hrun).
Defined.

(** * Further properties: the board and the log *)

Lemma cellAt_initial (d : option Difficulty) (b c : nat) (cell : option Player) :
  cellAt (withDifficulty INITIAL_GAME_STATE d) b c = Some cell → cell = None.
Proof.
  unfold cellAt. cbn [withDifficulty boards INITIAL_GAME_STATE].
  intros H. apply bind_Some in H as (board & Hboard & Hcell).
  apply lookup_replicate in Hboard as [-> _].
  cbn [cells] in Hcell. by apply lookup_replicate in Hcell as [-> _].
Qed.

(** X18. The board is what the log says.  In a state of play a cell holds
    the mark of a player exactly when the log has an entry for that cell
    and that player, and no cell occurs twice in the log. *)
Theorem reachable_cells_from_log (state : GameState) :
  reachable state →
  (∀ b c p,
      cellAt state b c = Some (Some p)
      ↔ ∃ k, history state !! k
             = Some {| h_boardIndex := b; h_cellIndex := c; h_player := p |})
  ∧ NoDup (coordinates (history state)).
Proof.
  induction 1 as [d | state state' b0 c0 Hr [IHcells IHdup] Hlegal Hmove].
  - split.
    + intros b c p. split.
      * by intros ?%cellAt_initial.
      * intros [k Hk].
        change (history (withDifficulty INITIAL_GAME_STATE d)) with (@nil MoveHistory) in Hk.
        by rewrite lookup_nil in Hk.
    + apply NoDup_nil_2.
  - pose proof (reachable_wf _ Hr) as Hwf.
    destruct (makeMove_log _ _ _ _ Hmove) as (Hlog & _).
    destruct (legal_move_boards _ _ _ Hwf Hlegal)
      as (board & s' & Hb & Hw & Hcell & Hb9 & Hc9 & Hmove' & _ & Hboards & _).
    assert (s' = state') as -> by congruence.
    pose proof (legal_move_other_cells _ _ _ _ Hwf Hlegal Hmove) as Hother.
    assert (cellAt state b0 c0 = Some None) as Hempty
      by (unfold cellAt; by rewrite Hb).
    assert (cellAt state' b0 c0 = Some (Some (currentPlayer state))) as Hmark.
    { destruct (wf_state_cells _ _ _ Hwf Hb) as [_ Hlen]. destruct Hwf as (Hlen9 & _).
      unfold cellAt. rewrite Hboards, list_lookup_insert_eq by lia. simpl.
      by rewrite list_lookup_insert_eq by lia. }
    rewrite Hlog. split.
    + intros b c p. destruct (decide ((b, c) = (b0, c0))) as [[= -> ->] | Hne].
      * rewrite Hmark. split.
        -- intros [= <-]. exists (length (history state)).
           by rewrite lookup_app_r, Nat.sub_diag by lia.
        -- intros [k Hk]. apply lookup_app_Some in Hk as [Hk | [_ Hk]].
           ++ assert (cellAt state b0 c0 = Some (Some p)) as Hold
                by (apply IHcells; by exists k).
              congruence.
           ++ apply list_lookup_singleton_Some in Hk as [_ [= <-]]. done.
      * rewrite (Hother _ _ Hne), IHcells. split.
        -- intros [k Hk]. exists k. by apply lookup_app_l_Some.
        -- intros [k Hk]. apply lookup_app_Some in Hk as [Hk | [_ Hk]]; [by exists k|].
           apply list_lookup_singleton_Some in Hk as [_ [= <- <- _]]. done.
    + unfold coordinates. rewrite fmap_app. apply NoDup_app. split_and!.
      * exact IHdup.
      * intros [b c] Hin Hin'. apply list_elem_of_singleton in Hin'. injection Hin' as -> ->.
        apply list_elem_of_fmap in Hin as (entry & Hentry & Hin).
        apply list_elem_of_lookup in Hin as [k Hk].
        assert (cellAt state b0 c0 = Some (Some (h_player entry))) as Hold.
        { apply IHcells. exists k. rewrite Hk. destruct entry. simpl in Hentry.
          by injection Hentry as -> ->. }
        congruence.
      * simpl. apply NoDup_singleton.
Qed.

Lemma reachable_cells_from_log_witness :
  reachable (stateAfter openingGame)
  ∧ (∀ b c p,
        cellAt (stateAfter openingGame) b c = Some (Some p)
        ↔ ∃ k, history (stateAfter openingGame) !! k
               = Some {| h_boardIndex := b; h_cellIndex := c; h_player := p |})
  ∧ NoDup (coordinates (history (stateAfter openingGame))).
Proof.
  assert (reachable (stateAfter openingGame)) as Hr.
  { apply (playLegal_reachable INITIAL_GAME_STATE _ openingGame (reachable_init None)).
    vm_compute. reflexivity. }
  split; [exact Hr|].
  exact (reachable_cells_from_log (stateAfter openingGame) Hr).
Defined.

(** X19. The outcomes are what the lines say.  In a state of play the
    outcome of every sub-board is what [checkBoardWinner] gives on its
    cells, the macro board holds these outcomes, the result of the game is
    what [checkBoardWinner] gives on the macro board, and a sub-board that
    play is sent to is undecided and has an empty cell. *)
Theorem reachable_outcomes (state : GameState) :
  reachable state →
  (∀ i board, boards state !! i = Some board →
     winner board = checkBoardWinner (cellValue <$> cells board)
     ∧ macroBoard state !! i = Some (winner board))
  ∧ state_winner state = checkBoardWinner (macroBoard state)
  ∧ (∀ a, activeBoard state = Some a →
       ∃ board c, boards state !! a = Some board
                  ∧ winner board = None
                  ∧ cells board !! c = Some None).
Proof.
  intros Hr.
  destruct (reachable_play_inv _ Hr) as (_ & Hmirror & Hempty & Hres & Hactive).
  split_and!.
  - intros i board Hi. split; [|by apply Hmirror].
    clear Hmirror Hempty Hres Hactive. revert i board Hi.
    induction Hr as [d | state state' b0 c0 Hr IH Hlegal Hmove]; intros i board Hi.
    + cbn [withDifficulty boards INITIAL_GAME_STATE] in Hi.
      by apply lookup_replicate in Hi as [-> _].
    + pose proof (reachable_wf _ Hr) as Hwf.
      destruct (legal_move_boards _ _ _ Hwf Hlegal)
        as (old & s' & Hb & Hw & Hcell & Hb9 & Hc9 & Hmove' & _ & Hboards & _).
      assert (s' = state') as -> by congruence.
      rewrite Hboards in Hi. destruct (decide (i = b0)) as [-> | Hne].
      * destruct Hwf as (Hlen9 & _).
        rewrite list_lookup_insert_eq in Hi by lia. injection Hi as <-.
        unfold placed. cbn [cells winner]. rewrite Hw.
        by destruct (checkBoardWinner _).
      * rewrite list_lookup_insert_ne in Hi by done. by eapply IH.
  - exact Hres.
  - intros a Ha. destruct (Hactive a Ha) as (board & Hb & Hw).
    destruct (Hempty a board Hb Hw) as [c Hc]. by exists board, c.
Qed.

Lemma reachable_outcomes_witness :
  reachable (stateAfter wonGame)
  ∧ (∀ i board, boards (stateAfter wonGame) !! i = Some board →
       winner board = checkBoardWinner (cellValue <$> cells board)
       ∧ macroBoard (stateAfter wonGame) !! i = Some (winner board))
  ∧ state_winner (stateAfter wonGame) = checkBoardWinner (macroBoard (stateAfter wonGame))
  ∧ (∀ a, activeBoard (stateAfter wonGame) = Some a →
       ∃ board c, boards (stateAfter wonGame) !! a = Some board
                  ∧ winner board = None
                  ∧ cells board !! c = Some None).
Proof.
  assert (reachable (stateAfter wonGame)) as Hr.
  { apply (playLegal_reachable INITIAL_GAME_STATE _ wonGame (reachable_init None)).
    vm_compute. reflexivity. }
  split; [exact Hr|].
  exact (reachable_outcomes (stateAfter wonGame) Hr).
Defined.

(** X20. A move can be taken back.  Off line, when it is not the
    computer's turn, a valid move made through [handleMove] is carried
    out, empties the redo list and sends nothing; [handleUndo] right after
    it shows the game as it was before the move, with the move as the
    only entry of the redo list. *)
Theorem handleMove_handleUndo (app : AppState) (b c : nat) :
  reachable (gameState app) →
  gameMode app ≠ Some online →
  (gameMode app = Some cpu → currentPlayer (gameState app) = X) →
  isMoveValid (gameState app) b c = Ok true →
  ∃ state',
    makeMove (gameState app) b c = Ok state'
    ∧ handleMove app b c false = Ok (setGame app state' [] (statsRecorded app), None)
    ∧ handleUndo (setGame app state' [] (statsRecorded app))
      = Ok (setGame app (gameState app)
              [ {| h_boardIndex := b; h_cellIndex := c;
                   h_player := currentPlayer (gameState app) |} ]
              false).
Proof.
  intros Hr Hmode Hturn Hlegal.
  destruct (reachable_makeMove_Ok _ _ _ Hr Hlegal) as (state' & Hmove & Hr').
  destruct (isMoveValid_true _ _ _ Hlegal) as (Hnone & _).
  destruct (makeMove_log _ _ _ _ Hmove) as (Hlog & Hdiff & Hplayer & _).
  exists state'. split_and!; [done| |].
  - unfold handleMove. rewrite Hnone.
    rewrite bool_decide_eq_false_2 by (by intros ?).
    rewrite (bool_decide_eq_false_2 (gameMode app = Some online)) by done.
    cbn [andb]. rewrite Hlegal. simpl. by rewrite Hmove.
  - unfold handleUndo. cbn [setGame gameState gameMode undoneMoves].
    rewrite (bool_decide_eq_false_2 (gameMode app = Some online)) by done.
    rewrite bool_decide_eq_false_2 by (rewrite Hlog, length_app; simpl; lia).
    cbn [orb].
    assert (bool_decide (gameMode app = Some cpu)
            && bool_decide (currentPlayer state' = X)
            && bool_decide (2 ≤ length (history state')) = false) as ->.
    { case_bool_decide as Hcpu; [|done].
      rewrite Hplayer, (Hturn Hcpu). by rewrite bool_decide_eq_false_2. }
    rewrite popMoves_spec, app_nil_r, Hlog, length_app. simpl.
    replace (length (history (gameState app)) + 1 - 1)
      with (length (history (gameState app))) by lia.
    rewrite take_app_length, drop_app_length.
    destruct (reachable_prefix _ Hr (difficulty (gameState app))
                (length (history (gameState app))))
      as (s & Hs & _ & _ & _ & _ & Hreplay).
    rewrite drop_all, withDifficulty_same in Hreplay. injection Hreplay as ->.
    rewrite firstn_all in Hs. rewrite Hdiff, Hs. reflexivity.
Qed.

Lemma handleMove_handleUndo_witness :
  reachable (gameState cpuApp)
  ∧ gameMode cpuApp ≠ Some online
  ∧ (gameMode cpuApp = Some cpu → currentPlayer (gameState cpuApp) = X)
  ∧ isMoveValid (gameState cpuApp) 0 2 = Ok true
  ∧ ∃ state',
      makeMove (gameState cpuApp) 0 2 = Ok state'
      ∧ handleMove cpuApp 0 2 false
        = Ok (setGame cpuApp state' [] (statsRecorded cpuApp), None)
      ∧ handleUndo (setGame cpuApp state' [] (statsRecorded cpuApp))
        = Ok (setGame cpuApp (gameState cpuApp)
                [ {| h_boardIndex := 0; h_cellIndex := 2;
                     h_player := currentPlayer (gameState cpuApp) |} ]
                false).
Proof.
  assert (reachable (gameState cpuApp)) as Hr.
  { apply (playLegal_reachable INITIAL_GAME_STATE _ openingGame (reachable_init None)).
    vm_compute. reflexivity. }
  assert (gameMode cpuApp ≠ Some online) as Hmode by (vm_compute; discriminate).
  assert (gameMode cpuApp = Some cpu → currentPlayer (gameState cpuApp) = X) as Hturn
    by (intros _; vm_compute; reflexivity).
  assert (isMoveValid (gameState cpuApp) 0 2 = Ok true) as Hlegal
    by (vm_compute; reflexivity).
  split; [exact Hr|]. split; [exact Hmode|]. split; [exact Hturn|]. split; [exact Hlegal|].
  exact (handleMove_handleUndo cpuApp 0 2 Hr Hmode Hturn Hlegal).
Defined.

(** * Further properties: threats in a sub-board *)

Lemma test_lookup (cs : list (option Player)) (player : Player) (i j : nat) :
  i < length cs →
  (cellValue <$> <[i := Some player]> cs) !! j
  = if decide (j = i) then Some (Some (Won player)) else (cellValue <$> cs) !! j.
Proof.
  intros Hi. rewrite !list_lookup_fmap. destruct (decide (j = i)) as [-> | Hne].
  - by rewrite list_lookup_insert_eq.
  - by rewrite list_lookup_insert_ne.
Qed.

Lemma test_completed (cs : list (option Player)) (player : Player) (i : nat)
    (pattern : nat * nat * nat) (v : Outcome) :
  i < length cs →
  completed (cellValue <$> <[i := Some player]> cs) pattern v →
  (i ∈ [pattern.1.1; pattern.1.2; pattern.2] ∧ v = Won player)
  ∨ completed (cellValue <$> cs) pattern v.
Proof.
  intros Hi. destruct pattern as [[a b] c]. unfold completed. cbn [fst snd].
  rewrite !test_lookup by done. intros (Ha & Hb & Hc).
  destruct (decide (a = i)) as [-> | ?];
    [left; split; [by repeat constructor | congruence]|].
  destruct (decide (b = i)) as [-> | ?];
    [left; split; [by repeat constructor | congruence]|].
  destruct (decide (c = i)) as [-> | ?];
    [left; split; [by repeat constructor | congruence]|].
  by right.
Qed.

Lemma pattern_index_lt (pattern : nat * nat * nat) (i : nat) :
  pattern ∈ WINNING_PATTERNS →
  i ∈ [pattern.1.1; pattern.1.2; pattern.2] →
  i < 9.
Proof.
  unfold WINNING_PATTERNS. intros Hp Hi.
  repeat (apply elem_of_cons in Hp as [-> | Hp];
          [cbn [fst snd] in Hi;
           repeat (apply elem_of_cons in Hi as [-> | Hi]; [lia|]);
           by apply elem_of_nil in Hi|]).
  by apply elem_of_nil in Hp.
Qed.

(** X21. On a sub-board without a completed line, [canWinBoard] holds for
    a player exactly when some winning line has an empty cell and that
    player's mark in its two other cells. *)
Theorem canWinBoard_iff (cs : list (option Player)) (player : Player) :
  (∀ pattern v, pattern ∈ WINNING_PATTERNS → ¬ completed (cellValue <$> cs) pattern v) →
  canWinBoard cs player = true
  ↔ ∃ pattern i,
      pattern ∈ WINNING_PATTERNS
      ∧ i ∈ [pattern.1.1; pattern.1.2; pattern.2]
      ∧ cs !! i = Some None
      ∧ ∀ j, j ∈ [pattern.1.1; pattern.1.2; pattern.2] → j ≠ i →
          cs !! j = Some (Some player).
Proof.
  intros Hopen. unfold canWinBoard. rewrite existsb_exists. split.
  - intros (i & _ & Hi). apply andb_true_iff in Hi as [Hcell Hwin].
    apply bool_decide_eq_true in Hcell. apply bool_decide_eq_true in Hwin.
    assert (i < length cs) as Hlt by (by eapply lookup_lt_Some).
    unfold checkBoardWinner in Hwin.
    destruct (firstLine _ WINNING_PATTERNS) as [v|] eqn:E;
      [|by destruct (allFilled _)].
    injection Hwin as ->.
    apply firstLine_Some in E as (pre & pattern & post & Hsplit & _ & Hdone).
    assert (pattern ∈ WINNING_PATTERNS) as Hp by (rewrite Hsplit; apply elem_of_app; right; left).
    destruct (test_completed _ _ _ _ _ Hlt Hdone) as [[Hin _] | Hold];
      [|by destruct (Hopen pattern (Won player) Hp)].
    exists pattern, i. split_and!; [done..|].
    intros j Hj Hne.
    assert ((cellValue <$> <[i := Some player]> cs) !! j = Some (Some (Won player)))
      as Hlook.
    { destruct pattern as [[a b] c]. destruct Hdone as (Ha & Hb & Hc). cbn [fst snd] in *.
      repeat (apply elem_of_cons in Hj as [-> | Hj]; [done|]).
      by apply elem_of_nil in Hj. }
    rewrite test_lookup in Hlook by done.
    destruct (decide (j = i)); [done|].
    rewrite list_lookup_fmap in Hlook.
    destruct (cs !! j) as [[p|]|]; simpl in Hlook; congruence.
  - intros (pattern & i & Hp & Hi & Hcell & Hrest).
    assert (i < length cs) as Hlt by (by eapply lookup_lt_Some).
    exists i. split.
    { apply in_seq. pose proof (pattern_index_lt _ _ Hp Hi). lia. }
    apply andb_true_iff. split; [by apply bool_decide_eq_true|].
    apply bool_decide_eq_true.
    assert (completed (cellValue <$> <[i := Some player]> cs) pattern (Won player))
      as Hdone.
    { assert (∀ j, j ∈ [pattern.1.1; pattern.1.2; pattern.2] →
                   (cellValue <$> <[i := Some player]> cs) !! j
                   = Some (Some (Won player))) as Hall.
      { intros j Hj. rewrite test_lookup by done.
        destruct (decide (j = i)); [done|].
        by rewrite list_lookup_fmap, (Hrest j Hj). }
      unfold completed. split_and!; apply Hall; by repeat constructor. }
    unfold checkBoardWinner.
    destruct (firstLine _ WINNING_PATTERNS) as [v|] eqn:E.
    + apply firstLine_Some in E as (pre & first & post & Hsplit & _ & Hfirst).
      destruct (test_completed _ _ _ _ _ Hlt Hfirst) as [[_ ->] | Hold]; [done|].
      destruct (Hopen first v); [rewrite Hsplit; apply elem_of_app; right; left | done].
    + destruct (proj1 (firstLine_None _ _) E pattern (Won player) Hp Hdone).
Qed.

Lemma canWinBoard_iff_witness :
  (∀ pattern v, pattern ∈ WINNING_PATTERNS →
     ¬ completed (cellValue <$> [Some X; None; Some X; None; Some O; None;
                                  None; None; Some O]) pattern v)
  ∧ (canWinBoard [Some X; None; Some X; None; Some O; None; None; None; Some O] X = true
     ↔ ∃ pattern i,
         pattern ∈ WINNING_PATTERNS
         ∧ i ∈ [pattern.1.1; pattern.1.2; pattern.2]
         ∧ [Some X; None; Some X; None; Some O; None; None; None; Some O] !! i = Some None
         ∧ ∀ j, j ∈ [pattern.1.1; pattern.1.2; pattern.2] → j ≠ i →
             [Some X; None; Some X; None; Some O; None; None; None; Some O] !! j
             = Some (Some X)).
Proof.
  assert (∀ pattern v, pattern ∈ WINNING_PATTERNS →
            ¬ completed (cellValue <$> [Some X; None; Some X; None; Some O; None;
                                         None; None; Some O]) pattern v) as Hopen.
  { intros pattern v Hp. apply (proj1 (firstLine_None _ WINNING_PATTERNS)); [|done].
    vm_compute. reflexivity. }
  split; [exact Hopen|].
  exact (canWinBoard_iff [Some X; None; Some X; None; Some O; None; None; None; Some O]
           X Hopen).
Defined.

(** * Further properties: the board shown *)

(** X22. The cells that can be clicked are the legal moves.  On a state of
    nine sub-boards of nine cells shown with [highlightMoves], the button
    of a cell is enabled exactly when the cell is one of
    [getAvailableMoves]; without [highlightMoves] no button is enabled. *)
Theorem cellEnabled_iff_available (state : GameState) (moves : list Move) (b c : nat) :
  wf_state state →
  getAvailableMoves state = Ok moves →
  (cellEnabled state true b c = Some true ↔ mv b c ∈ moves)
  ∧ cellEnabled state false b c ≠ Some true.
Proof.
  intros Hwf Hmoves. split.
  - unfold getAvailableMoves in Hmoves.
    rewrite (collectMoves_elem _ _ _ (mv b c) Hmoves).
    unfold mv. cbn [boardIndex cellIndex].
    unfold cellEnabled, isValid, isActive, buttonDisabled. split.
    + intros H. apply bind_Some in H as (board & Hb & H).
      apply bind_Some in H as (cell & Hcell & H). injection H as H.
      destruct (wf_state_cells _ _ _ Hwf Hb) as [Hb9 Hlen].
      apply negb_true_iff, orb_false_iff in H as [H _].
      apply negb_false_iff in H.
      repeat (apply andb_true_iff in H as [H ?]).
      apply orb_true_iff in H.
      repeat match goal with
             | Hd : bool_decide _ = true |- _ => apply bool_decide_eq_true in Hd
             end.
      split.
      * destruct H as [H%bool_decide_eq_true | H%bool_decide_eq_true]; rewrite H.
        -- apply elem_of_seq. lia.
        -- by apply list_elem_of_singleton.
      * exists board. split_and!; [done | done | | by subst cell].
        rewrite <- Hlen. by eapply lookup_lt_Some.
    + intros (Hidx & board & Hb & Hw & _ & Hcell).
      rewrite Hb. simpl. rewrite Hcell. simpl. rewrite Hw. f_equal.
      assert (bool_decide (activeBoard state = None)
              || bool_decide (activeBoard state = Some b) = true) as ->.
      { destruct (activeBoard state) as [a|]; [|done].
        apply list_elem_of_singleton in Hidx as ->. simpl.
        by apply bool_decide_eq_true. }
      by repeat (rewrite ?bool_decide_eq_true_2, ?bool_decide_eq_false_2 by (by intros ?)
                 || simpl).
  - unfold cellEnabled, isValid, isActive, buttonDisabled.
    destruct (boards state !! b) as [board|]; [|done]. simpl.
    destruct (cells board !! c) as [cell|]; [|done]. simpl.
    rewrite !andb_false_r. simpl. done.
Qed.

Lemma cellEnabled_iff_available_witness :
  wf_state replyState
  ∧ getAvailableMoves replyState = Ok (mv 0 <$> seq 0 9)
  ∧ (cellEnabled replyState true 0 4 = Some true ↔ mv 0 4 ∈ mv 0 <$> seq 0 9)
  ∧ cellEnabled replyState false 0 4 ≠ Some true.
Proof.
  assert (wf_state replyState) as Hwf.
  { apply reachable_wf.
    apply (playLegal_reachable INITIAL_GAME_STATE _ [(4, 4); (4, 0)] (reachable_init None)).
    vm_compute. reflexivity. }
  assert (getAvailableMoves replyState = Ok (mv 0 <$> seq 0 9)) as Hmoves
    by (vm_compute; reflexivity).
  split; [exact Hwf|]. split; [exact Hmoves|].
  exact (cellEnabled_iff_available replyState (mv 0 <$> seq 0 9) 0 4 Hwf Hmoves).
Defined.

(** * Further properties: the computer's turn *)

Lemma reachable_moves_nonempty (state : GameState) (moves : list Move) :
  reachable state →
  state_winner state = None →
  getAvailableMoves state = Ok moves →
  moves ≠ [].
Proof.
  intros Hr Hnone Hmoves.
  destruct (reachable_play_inv _ Hr) as (Hwf & Hmirror & Hempty & Hres & Hactive).
  assert (∃ b board c, (activeBoard state = None ∨ activeBoard state = Some b)
                       ∧ boards state !! b = Some board ∧ winner board = None
                       ∧ cells board !! c = Some None)
    as (b & board & c & Hact & Hb & Hw & Hcell).
  { destruct (activeBoard state) as [a|] eqn:Ea.
    - destruct (Hactive a eq_refl) as (board & Hb & Hw).
      destruct (Hempty a board Hb Hw) as [c Hc].
      exists a, board, c. split_and!; try done. by right.
    - rewrite Hres in Hnone. apply checkBoardWinner_None in Hnone as [i Hi].
      destruct Hwf as (Hlen & Hmac & _ & _).
      destruct (lookup_lt_is_Some_2 (boards state) i) as [board Hb].
      { rewrite Hlen, <- Hmac. by eapply lookup_lt_Some. }
      assert (winner board = None) as Hw.
      { specialize (Hmirror i board Hb). unfold Winner in *. congruence. }
      destruct (Hempty i board Hb Hw) as [c Hc].
      exists i, board, c. split_and!; try done. by left. }
  assert (mv b c ∈ moves) as Hin.
  { unfold getAvailableMoves in Hmoves.
    apply (collectMoves_elem _ _ _ _ Hmoves). unfold mv. cbn [boardIndex cellIndex]. split.
    - destruct Hact as [-> | ->].
      + apply elem_of_seq. destruct (wf_state_cells _ _ _ Hwf Hb). lia.
      + by apply list_elem_of_singleton.
    - exists board. split_and!; try done.
      destruct (wf_state_cells _ _ _ Hwf Hb) as [_ <-]. by eapply lookup_lt_Some. }
  intros ->. by apply elem_of_nil in Hin.
Qed.

Lemma available_isMoveValid (state : GameState) (moves : list Move) (move : Move) :
  getAvailableMoves state = Ok moves →
  state_winner state = None →
  move ∈ moves →
  isMoveValid state (boardIndex move) (cellIndex move) = Ok true.
Proof.
  intros Hmoves Hnone Hin.
  destruct (getAvailableMoves_elem _ _ _ Hmoves Hin) as (Hact & _ & board & Hb & Hw & Hcell).
  unfold isMoveValid. rewrite Hnone.
  rewrite bool_decide_eq_false_2 by (by intros ?).
  rewrite bool_decide_eq_false_2; [|by destruct Hact as [-> | ->]; intros []].
  rewrite Hb. simpl. rewrite Hw, Hcell.
  rewrite bool_decide_eq_false_2 by (by intros ?).
  by rewrite bool_decide_eq_false_2 by (by intros ?).
Qed.

Lemma result_bind_Ok {A B} (a : A) (f : A → result B) : Ok a ≫= f = f a.
Proof. reflexivity. Qed.

Section ComputerTurn.

Variable now : nat → float.
Variable random_index : nat → nat.
Hypothesis random_index_lt : ∀ n, 0 < n → random_index n < n.

(** With a legal move to choose from, every tier returns one. *)
Lemma getBestMove_Some (state : GameState) (difficulty : Difficulty) (moves : list Move) :
  wf_state state →
  getAvailableMoves state = Ok moves →
  moves ≠ [] →
  ∃ move sc,
    getBestMove now random_index state difficulty = Ok (Some (move, sc))
    ∧ move ∈ moves.
Proof.
  intros Hwf Hmoves Hne.
  destruct moves as [|first rest]; [done|].
  destruct (randomMove_Some random_index random_index_lt (first :: rest) Hne)
    as [rm Hrm].
  pose proof (randomMove_elem random_index _ _ _ Hrm) as Hrand.
  unfold getBestMove. rewrite Hmoves, result_bind_Ok. cbv beta iota.
  destruct difficulty.
  - rewrite Hrm. by exists rm, None.
  - destruct (mediumWin_Ok state (currentPlayer state) (first :: rest) _ Hwf Hmoves)
      as [win Hwin]; [done|].
    rewrite Hwin, result_bind_Ok. destruct win as [move|].
    { exists move, None. split; [done|]. by eapply mediumWin_elem. }
    destruct (mediumBlock_Ok state (opponentOf (currentPlayer state)) (first :: rest) _
                Hwf Hmoves) as [block Hblock]; [done|].
    rewrite Hblock, result_bind_Ok. destruct block as [move|].
    { exists move, None. split; [done|]. by eapply mediumBlock_elem. }
    rewrite Hrm. by exists rm, None.
  - destruct (orderMoves_Ok state (first :: rest) (currentPlayer state) Hwf Hmoves)
      as [ordered Hord].
    pose proof (orderMoves_Permutation _ _ _ _ Hord) as Hperm.
    rewrite Hord, result_bind_Ok.
    destruct (hardLoop_Ok state (currentPlayer state) ordered NegInf first)
      as [[bs bm] Hloop].
    { intros m Hm. eapply moveScore_Ok; [done..|]. by rewrite <- Hperm. }
    rewrite Hloop, result_bind_Ok. exists bm, (Some bs). split; [done|].
    destruct (hardLoop_spec _ _ _ _ _ _ Hloop)
      as (_ & _ & [[= _ ->] | (before & after & z & Hsplit & _)]); [left|].
    cbn [fst snd] in Hsplit. rewrite <- Hperm, Hsplit. apply elem_of_app. right. left.
  - destruct (getImpossibleMove now state (first :: rest)) as [[bm bs]|e] eqn:Himp.
    + destruct (getImpossibleMove_move _ _ _ _ _ _ Himp) as (m & -> & Hm).
      rewrite result_bind_Ok. by exists m, (Some bs).
    + exfalso. unfold getImpossibleMove in Himp.
      destruct (orderMoves_Ok state (first :: rest) (currentPlayer state) Hwf Hmoves)
        as [ordered Hord].
      rewrite Hord, result_bind_Ok in Himp.
      by destruct (deepen _ _ _ _ _ _ _ _ _ _).
  - exists first, None. split; [done | left].
Qed.

(** X23. The computer always answers.  In a game against the computer
    shown in a state of play, undecided, with [O] to move, the turn of the
    computer ends without an error: [getBestMove] gives one of the legal
    moves, [handleMove] accepts it, and the game shown becomes the state
    after that move, the redo list empty and nothing sent. *)
Theorem aiTurn_moves (app : AppState) :
  reachable (gameState app) →
  gameMode app = Some cpu →
  currentPlayer (gameState app) = O →
  state_winner (gameState app) = None →
  ∃ moves move state',
    getAvailableMoves (gameState app) = Ok moves
    ∧ move ∈ moves
    ∧ makeMove (gameState app) (boardIndex move) (cellIndex move) = Ok state'
    ∧ aiTurn now random_index app
      = Ok (setGame app state' [] (statsRecorded app), None).
Proof.
  intros Hr Hmode Hturn Hnone.
  pose proof (reachable_wf _ Hr) as Hwf.
  destruct (getAvailableMoves_Ok _ Hwf) as [moves Hmoves].
  pose proof (reachable_moves_nonempty _ _ Hr Hnone Hmoves) as Hne.
  destruct (getBestMove_Some (gameState app)
              (default medium (difficulty (gameState app))) moves Hwf Hmoves Hne)
    as (move & sc & Hbest & Hin).
  pose proof (available_isMoveValid _ _ _ Hmoves Hnone Hin) as Hlegal.
  destruct (reachable_makeMove_Ok _ _ _ Hr Hlegal) as (state' & Hmove & _).
  exists moves, move, state'. split_and!; [done..|].
  unfold aiTurn. rewrite Hmode, Hturn, Hnone.
  rewrite !bool_decide_eq_true_2 by done.
  rewrite bool_decide_eq_false_2 by (by intros ?). cbn [andb negb].
  rewrite Hbest. simpl.
  unfold handleMove. rewrite Hnone, Hmode.
  rewrite bool_decide_eq_false_2 by (by intros ?).
  rewrite (bool_decide_eq_false_2 (Some cpu = Some online)) by done.
  cbn [andb]. rewrite Hlegal. simpl. by rewrite Hmove.
Qed.

End ComputerTurn.

Lemma aiTurn_moves_witness :
  (∀ n, 0 < n → (fun _ : nat => 0) n < n)
  ∧ reachable (gameState cpuTurnApp)
  ∧ gameMode cpuTurnApp = Some cpu
  ∧ currentPlayer (gameState cpuTurnApp) = O
  ∧ state_winner (gameState cpuTurnApp) = None
  ∧ ∃ moves move state',
      getAvailableMoves (gameState cpuTurnApp) = Ok moves
      ∧ move ∈ moves
      ∧ makeMove (gameState cpuTurnApp) (boardIndex move) (cellIndex move) = Ok state'
      ∧ aiTurn (fun _ => 0%float) (fun _ => 0) cpuTurnApp
        = Ok (setGame cpuTurnApp state' [] (statsRecorded cpuTurnApp), None).
Proof.
  assert (∀ n, 0 < n → (fun _ : nat => 0) n < n) as Hrandom by (intros n Hn; exact Hn).
  assert (reachable (gameState cpuTurnApp)) as Hr.
  { apply (playLegal_reachable INITIAL_GAME_STATE _ [(4, 4)] (reachable_init None)).
    vm_compute. reflexivity. }
  assert (gameMode cpuTurnApp = Some cpu) as Hmode by reflexivity.
  assert (currentPlayer (gameState cpuTurnApp) = O) as Hturn by (vm_compute; reflexivity).
  assert (state_winner (gameState cpuTurnApp) = None) as Hnone
    by (vm_compute; reflexivity).
  split; [exact Hrandom|]. split; [exact Hr|]. split; [exact Hmode|].
  split; [exact Hturn|]. split; [exact Hnone|].
  exact (aiTurn_moves (fun _ => 0%float) (fun _ => 0) Hrandom cpuTurnApp Hr Hmode Hturn Hnone).
Defined.
